(** * Routes: unicast and broadcast route tables of a mesh peer

    A shallow embedding of [routes.go].  The route tables are finite maps,
    the [Routes] struct is a record, and the goroutine started by
    [NewRoutes] (the serializer, [run]) is a transition system: every
    statement of [run], [calculate] and of the closure built by
    [lookupOrCalculate] that takes a lock, sends or receives is one
    transition.  A region bracketed by [Lock]/[Unlock] or [RLock]/[RUnlock]
    sends nothing, receives nothing and invokes no callback, so it is taken
    as one atomic transition.  Callers and the rest of the program are the environment:
    they may change the topology, register callbacks, request a
    recalculation or start an accessor call between any two transitions of
    the serializer.  Select statements with several ready cases choose
    freely.  Slices are values: a caller does not write into the slice a
    [Broadcast] call returned to it. *)

From Stdlib Require Import ZArith Lia.
From stdpp Require Import base gmap sets list option.

(** ** The data model *)

(** What [routes.go] takes from the rest of the package.
    - [PeerName] and [UnknownPeerName] are declared elsewhere; the code only
      needs names to be map keys.  [zeroPeerName] is the zero value of the
      type, which Go yields on a failed map lookup.
    - [Peer] and [Peers] are the handles [*Peer] and [*Peers]; a [Topology]
      is the content of the peer directory and of every peer's connections
      at one moment.  The handles never change, the content does.
    - [Callback] is the type of the [func()] values given to [OnChange].
    - [Name p] is the field [p.Name]; [byName t ps n] is the lookup
      [ps.byName[n]]; [Names t ps] is [ps.Names()];
      [Peer_Routes t p stopAt e] is [p.Routes(stopAt, e)];
      [ForEachConnectedPeer t p e reached] lists, in visiting order, the
      peers on which [p.ForEachConnectedPeer(e, reached, f)] calls [f].
    The methods are taken to return: they are total functions of the
    topology. *)
Class Collaborators (PeerName : Type) `{Countable PeerName} := {
  UnknownPeerName : PeerName;
  zeroPeerName : PeerName;
  Peer : Type;
  Peers : Type;
  Topology : Type;
  Callback : Type;
  Name : Peer → PeerName;
  byName : Topology → Peers → PeerName → option Peer;
  Names : Topology → Peers → gset PeerName;
  Peer_Routes :
    Topology → Peer → option Peer → bool → bool * gmap PeerName PeerName;
  ForEachConnectedPeer :
    Topology → Peer → bool → gmap PeerName PeerName → list Peer;
}.

Section routes.

Context {PeerName : Type} `{Countable PeerName} `{!Collaborators PeerName}.

(** [type unicastRoutes map[PeerName]PeerName] and
    [type broadcastRoutes map[PeerName][]PeerName] are written out as
    [gmap PeerName PeerName] and [gmap PeerName (list PeerName)]. *)

(** The [Routes] struct.  The embedded [RWMutex] is accounted for by the
    atomicity of transitions.  [recalculate] is the buffer of the capacity-1
    channel: [true] when it holds a signal.  The unbuffered channels [wait]
    and [action] hold nothing; the goroutines blocked sending on them are in
    the [callers] component of the system state below. *)
Record Routes := mkRoutes {
  ourself : Peer;
  peers : Peers;
  onChange : list Callback;
  unicast : gmap PeerName PeerName;
  unicastAll : gmap PeerName PeerName;
  broadcast : gmap PeerName (list PeerName);
  broadcastAll : gmap PeerName (list PeerName);
  recalculate : bool;
}.

(** The two pointers [&routes.broadcast] and [&routes.broadcastAll] handed
    to [lookupOrCalculate]. *)
Inductive BroadcastPtr := PtrBroadcast | PtrBroadcastAll.

#[global] Instance BroadcastPtr_eq_dec : EqDecision BroadcastPtr.
Proof. solve_decision. Defined.

Definition deref (p : BroadcastPtr) (r : Routes) : gmap PeerName (list PeerName) :=
  match p with
  | PtrBroadcast => broadcast r
  | PtrBroadcastAll => broadcastAll r
  end.

(** [( *broadcast)[name] = hops]. *)
Definition store (p : BroadcastPtr) (name : PeerName) (hops : list PeerName)
    (r : Routes) : Routes :=
  match p with
  | PtrBroadcast =>
      mkRoutes (ourself r) (peers r) (onChange r) (unicast r) (unicastAll r)
        (<[name := hops]> (broadcast r)) (broadcastAll r) (recalculate r)
  | PtrBroadcastAll =>
      mkRoutes (ourself r) (peers r) (onChange r) (unicast r) (unicastAll r)
        (broadcast r) (<[name := hops]> (broadcastAll r)) (recalculate r)
  end.

Definition set_recalculate (b : bool) (r : Routes) : Routes :=
  mkRoutes (ourself r) (peers r) (onChange r) (unicast r) (unicastAll r)
    (broadcast r) (broadcastAll r) b.

(** ** Construction and the lock-protected accessors *)

(** [NewRoutes], lines 29-46 (the [go routes.run(...)] statement is the
    initial control point of the system state, see [NewState]). *)
Definition NewRoutes (ourself : Peer) (peers : Peers) : Routes :=
  mkRoutes ourself peers []
    {[ Name ourself := UnknownPeerName ]}
    {[ Name ourself := UnknownPeerName ]}
    {[ Name ourself := [] ]}
    {[ Name ourself := [] ]}
    false.

(** [OnChange], lines 50-54. *)
Definition OnChange (callback : Callback) (r : Routes) : Routes :=
  mkRoutes (ourself r) (peers r) (onChange r ++ [callback]) (unicast r)
    (unicastAll r) (broadcast r) (broadcastAll r) (recalculate r).

(** [PeerNames], lines 57-59. *)
Definition PeerNames (t : Topology) (r : Routes) : gset PeerName :=
  Names t (peers r).

(** [hop, found := m[name]]. *)
Definition comma_ok (m : gmap PeerName PeerName) (name : PeerName) : PeerName * bool :=
  match m !! name with
  | Some hop => (hop, true)
  | None => (zeroPeerName, false)
  end.

(** [Unicast], lines 63-68, and [UnicastAll], lines 72-77. *)
Definition Unicast (r : Routes) (name : PeerName) : PeerName * bool :=
  comma_ok (unicast r) name.

Definition UnicastAll (r : Routes) (name : PeerName) : PeerName * bool :=
  comma_ok (unicastAll r) name.

(** [Recalculate], lines 158-166: a non-blocking send into the capacity-1
    channel.  When the buffer is full the [default] case runs and nothing
    changes. *)
Definition Recalculate (r : Routes) : Routes :=
  if recalculate r then r else set_recalculate true r.

(** ** The recalculation engine *)

(** [calculateUnicast], lines 229-232. *)
Definition calculateUnicast (t : Topology) (r : Routes)
    (establishedAndSymmetric : bool) : gmap PeerName PeerName :=
  (Peer_Routes t (ourself r) None establishedAndSymmetric).2.

(** [calculateBroadcast], lines 252-263. *)
Definition calculateBroadcast (t : Topology) (r : Routes) (name : PeerName)
    (establishedAndSymmetric : bool) : list PeerName :=
  match byName t (peers r) name with
  | None => []
  | Some peer =>
      let '(found, reached) :=
        Peer_Routes t peer (Some (ourself r)) establishedAndSymmetric in
      if found
      then Name <$> ForEachConnectedPeer t (ourself r)
                      establishedAndSymmetric reached
      else []
  end.

(** The four local variables of [calculate]. *)
Record Tables := mkTables {
  t_unicast : gmap PeerName PeerName;
  t_unicastAll : gmap PeerName PeerName;
  t_broadcast : gmap PeerName (list PeerName);
  t_broadcastAll : gmap PeerName (list PeerName);
}.

(** [calculate], lines 194-205: the derivation under the two read locks. *)
Definition calculate_derive (t : Topology) (r : Routes) : Tables :=
  mkTables
    (calculateUnicast t r true)
    (calculateUnicast t r false)
    (<[ Name (ourself r) := calculateBroadcast t r (Name (ourself r)) true ]> ∅)
    (<[ Name (ourself r) := calculateBroadcast t r (Name (ourself r)) false ]> ∅).

(** [calculate], lines 207-213: the replacement under the write lock.  The
    snapshot [onChange := routes.onChange] taken in the same region is the
    [onChange] field of the argument. *)
Definition calculate_replace (tb : Tables) (r : Routes) : Routes :=
  mkRoutes (ourself r) (peers r) (onChange r) (t_unicast tb)
    (t_unicastAll tb) (t_broadcast tb) (t_broadcastAll tb) (recalculate r).

(** ** The neighbour sampler *)

(** [int(math.Log2(float64(n)))].  For [1 <= n] below the precision of
    [float64] this is the integer logarithm.  For [n = 0] Go converts minus
    infinity, with a platform-dependent result; the loop below then has no
    entry to visit, so the value is never compared. *)
Definition log2_count (n : nat) : Z := Z.log2 (Z.of_nat n).

(** The first loop of [RandomNeighbours], lines 140-147.  [entries] is the
    order in which [range routes.unicastAll] yields the entries. *)
Fixpoint RandomNeighbours_loop (count : Z) (except : PeerName)
    (entries : list (PeerName * PeerName)) (destinations : gset PeerName)
    : gset PeerName :=
  match entries with
  | [] => destinations
  | (_, dst) :: rest =>
      if decide (dst ≠ UnknownPeerName ∧ dst ≠ except) then
        let destinations' := {[ dst ]} ∪ destinations in
        if decide (count ≤ Z.of_nat (size destinations'))%Z
        then destinations'
        else RandomNeighbours_loop count except rest destinations'
      else RandomNeighbours_loop count except rest destinations
  end.

(** [RandomNeighbours], lines 134-153.  Go's map iteration order is an
    input: [entries] for the table; the result is collected from the set
    [destinations] in the order of [elements]. *)
Definition RandomNeighbours (r : Routes) (except : PeerName)
    (entries : list (PeerName * PeerName)) : list PeerName :=
  elements
    (RandomNeighbours_loop (log2_count (size (unicastAll r))) except entries ∅).

(** The distinct next hops in the table that the sampler may return. *)
Definition eligible (m : gmap PeerName PeerName) (except : PeerName) : gset PeerName :=
  list_to_set
    (filter (λ dst, dst ≠ UnknownPeerName ∧ dst ≠ except)
            ((map_to_list m).*2)).

(** ** The serializer and its callers as a transition system *)

(** What [run] does when [calculate] returns: go round the loop (line 179)
    or close the waiter's channel (line 186). *)
Inductive Cont := KLoop | KClose (c : nat).

(** Control points of the goroutine running [run].  Each carries the local
    variables that are live there.
    - [PSelect]: the outer select, line 177;
    - [PDrain c]: the inner select, line 181, [done] received from [c];
    - [PClose c]: [close(done)], line 186;
    - [PCalculate k]: entry of [calculate], line 194;
    - [PReplace tb k]: the tables are derived, line 207;
    - [PCallbacks rest k]: the loop over the snapshot, line 215;
    - [PAction c name p e]: entry of the closure, line 102;
    - [PCompute c name p e]: the closure missed the table, line 109;
    - [PReplyFound c name p hops]: [res <- hops], line 106;
    - [PReplyCalc c name p hops]: [res <- hops], line 114;
    - [PStore name p hops]: the store under the write lock, line 115. *)
Inductive Pc :=
| PSelect
| PDrain (c : nat)
| PClose (c : nat)
| PCalculate (k : Cont)
| PReplace (tb : Tables) (k : Cont)
| PCallbacks (rest : list Callback) (k : Cont)
| PAction (c : nat) (name : PeerName) (p : BroadcastPtr) (e : bool)
| PCompute (c : nat) (name : PeerName) (p : BroadcastPtr) (e : bool)
| PReplyFound (c : nat) (name : PeerName) (p : BroadcastPtr)
    (hops : list PeerName)
| PReplyCalc (c : nat) (name : PeerName) (p : BroadcastPtr)
    (hops : list PeerName)
| PStore (name : PeerName) (p : BroadcastPtr) (hops : list PeerName).

(** A goroutine blocked inside [lookupOrCalculate] or [EnsureRecalculated]:
    sending the closure (line 101), receiving the result (line 119), sending
    [done] (line 171), receiving from [done] (line 172). *)
Inductive Caller :=
| CSendAction (name : PeerName) (p : BroadcastPtr) (e : bool)
| CRecvRes (name : PeerName) (p : BroadcastPtr)
| CSendWait
| CRecvDone.

(** Observable events, newest first in [trace]: [calculate] is called (a
    signal was taken from [recalculate]); the tables are replaced and the
    callback list is snapshot; a callback is invoked; the closure calls
    [calculateBroadcast]; the closure stores an entry; a
    [Broadcast]/[BroadcastAll] call of caller [c] returns; [done] is
    closed. *)
Inductive Event :=
| EvCalculate
| EvReplace (snapshot : list Callback)
| EvCallback (callback : Callback)
| EvCalculateBroadcast (p : BroadcastPtr) (name : PeerName)
    (hops : list PeerName)
| EvStore (p : BroadcastPtr) (name : PeerName) (hops : list PeerName)
| EvReturn (c : nat) (p : BroadcastPtr) (name : PeerName)
    (hops : list PeerName)
| EvDone (c : nat).

Record State := mkState {
  routes : Routes;
  topology : Topology;
  pc : Pc;
  callers : gmap nat Caller;
  trace : list Event;
}.

Definition with_routes (r : Routes) (s : State) : State :=
  mkState r (topology s) (pc s) (callers s) (trace s).
Definition with_topology (t : Topology) (s : State) : State :=
  mkState (routes s) t (pc s) (callers s) (trace s).
Definition goto (p : Pc) (s : State) : State :=
  mkState (routes s) (topology s) p (callers s) (trace s).
Definition block (c : nat) (w : Caller) (s : State) : State :=
  mkState (routes s) (topology s) (pc s) (<[c := w]> (callers s)) (trace s).
Definition resume (c : nat) (s : State) : State :=
  mkState (routes s) (topology s) (pc s) (delete c (callers s)) (trace s).
Definition emit (ev : Event) (s : State) : State :=
  mkState (routes s) (topology s) (pc s) (callers s) (ev :: trace s).

(** The state [NewRoutes] leaves behind: the tables seeded, [run] started
    and waiting in its select. *)
Definition NewState (ourself : Peer) (peers : Peers) (t : Topology) : State :=
  mkState (NewRoutes ourself peers) t PSelect ∅ [].

(** [lookupOrCalculate], lines 94-101, run by caller [c]: the fast path
    returns the cached hops; on a miss the caller blocks sending the
    closure. *)
Definition lookupOrCalculate (c : nat) (name : PeerName) (p : BroadcastPtr)
    (establishedAndSymmetric : bool) (s : State) : option State :=
  match callers s !! c with
  | Some _ => None
  | None =>
      match deref p (routes s) !! name with
      | Some hops => Some (emit (EvReturn c p name hops) s)
      | None => Some (block c (CSendAction name p establishedAndSymmetric) s)
      end
  end.

(** [Broadcast], line 83, and [BroadcastAll], line 90. *)
Definition Broadcast (c : nat) (name : PeerName) : State → option State :=
  lookupOrCalculate c name PtrBroadcast true.
Definition BroadcastAll (c : nat) (name : PeerName) : State → option State :=
  lookupOrCalculate c name PtrBroadcastAll false.

(** [EnsureRecalculated], lines 170-171: the caller blocks sending [done]. *)
Definition EnsureRecalculated (c : nat) (s : State) : option State :=
  match callers s !! c with
  | Some _ => None
  | None => Some (block c CSendWait s)
  end.

(** The three receive cases of the select in [run], lines 177-187. *)
Definition run_recv_recalculate (s : State) : option State :=
  match pc s with
  | PSelect =>
      if recalculate (routes s)
      then Some (goto (PCalculate KLoop)
                   (emit EvCalculate
                      (with_routes (set_recalculate false (routes s)) s)))
      else None
  | _ => None
  end.

Definition run_recv_wait (c : nat) (s : State) : option State :=
  match pc s, callers s !! c with
  | PSelect, Some CSendWait => Some (goto (PDrain c) (block c CRecvDone s))
  | _, _ => None
  end.

Definition run_recv_action (c : nat) (s : State) : option State :=
  match pc s, callers s !! c with
  | PSelect, Some (CSendAction name p e) =>
      Some (goto (PAction c name p e) (block c (CRecvRes name p) s))
  | _, _ => None
  end.

Definition after_calculate (k : Cont) : Pc :=
  match k with
  | KLoop => PSelect
  | KClose c => PClose c
  end.

(** The next statement of the serializer goroutine away from the outer
    select: the inner select and [close(done)] of [run] (lines 181-186),
    [calculate] (lines 193-218), and the closure of [lookupOrCalculate]
    (lines 102-117). *)
Definition run (s : State) : option State :=
  match pc s with
  | PSelect => None
  | PDrain c =>
      if recalculate (routes s)
      then Some (goto (PCalculate (KClose c))
                   (emit EvCalculate
                      (with_routes (set_recalculate false (routes s)) s)))
      else Some (goto (PClose c) s)
  | PClose c => Some (goto PSelect (emit (EvDone c) (resume c s)))
  | PCalculate k =>
      Some (goto (PReplace (calculate_derive (topology s) (routes s)) k) s)
  | PReplace tb k =>
      Some (goto (PCallbacks (onChange (routes s)) k)
              (emit (EvReplace (onChange (routes s)))
                 (with_routes (calculate_replace tb (routes s)) s)))
  | PCallbacks [] k => Some (goto (after_calculate k) s)
  | PCallbacks (callback :: rest) k =>
      Some (goto (PCallbacks rest k) (emit (EvCallback callback) s))
  | PAction c name p e =>
      match deref p (routes s) !! name with
      | Some hops => Some (goto (PReplyFound c name p hops) s)
      | None => Some (goto (PCompute c name p e) s)
      end
  | PCompute c name p e =>
      let hops := calculateBroadcast (topology s) (routes s) name e in
      Some (goto (PReplyCalc c name p hops)
              (emit (EvCalculateBroadcast p name hops) s))
  | PReplyFound c name p hops =>
      Some (goto PSelect (emit (EvReturn c p name hops) (resume c s)))
  | PReplyCalc c name p hops =>
      Some (goto (PStore name p hops)
              (emit (EvReturn c p name hops) (resume c s)))
  | PStore name p hops =>
      Some (goto PSelect
              (emit (EvStore p name hops)
                 (with_routes (store p name hops (routes s)) s)))
  end.

(** Transition labels.  The first six are the environment (any goroutine
    other than the serializer); the last four are the serializer. *)
Inductive Label :=
| LOnChange (callback : Callback)
| LRecalculate
| LTopology (t : Topology)
| LBroadcast (c : nat) (name : PeerName)
| LBroadcastAll (c : nat) (name : PeerName)
| LEnsureRecalculated (c : nat)
| LRecvRecalculate
| LRecvWait (c : nat)
| LRecvAction (c : nat)
| LRun.

Definition step (l : Label) (s : State) : option State :=
  match l with
  | LOnChange callback => Some (with_routes (OnChange callback (routes s)) s)
  | LRecalculate => Some (with_routes (Recalculate (routes s)) s)
  | LTopology t => Some (with_topology t s)
  | LBroadcast c name => Broadcast c name s
  | LBroadcastAll c name => BroadcastAll c name s
  | LEnsureRecalculated c => EnsureRecalculated c s
  | LRecvRecalculate => run_recv_recalculate s
  | LRecvWait c => run_recv_wait c s
  | LRecvAction c => run_recv_action c s
  | LRun => run s
  end.

Fixpoint exec (ls : list Label) (s : State) : option State :=
  match ls with
  | [] => Some s
  | l :: ls' =>
      match step l s with
      | Some s' => exec ls' s'
      | None => None
      end
  end.

Definition env_label (l : Label) : bool :=
  match l with
  | LRecvRecalculate | LRecvWait _ | LRecvAction _ | LRun => false
  | _ => true
  end.

(** States the system can be in: some schedule leads there from a freshly
    constructed [Routes]. *)
Definition reachable (s : State) : Prop :=
  ∃ o ps t ls, exec ls (NewState o ps t) = Some s.

End routes.

(** ** The topology provider, as the specification describes it

    [Peer.Routes], the peer directory and the connections are not part of
    [routes.go].  This section gives them the meaning the specification
    states, for the properties that depend on what the provider returns. *)

Section described.

Context {PeerName : Type} `{Countable PeerName}.

(** Modelled from the spec: the peer directory and the connections (the
    types [Peers], [Peer] and their connection state are missing).  A
    topology maps each known peer to its connections; a connection maps the
    remote peer's name to whether the link is established (glossary:
    "Established connection"). *)
Definition connections (t : gmap PeerName (gmap PeerName bool))
    (p : PeerName) : gmap PeerName bool :=
  default ∅ (t !! p).

(** Modelled from the spec: the connection-quality filter (the method that
    tests a connection is missing).  Under "all connections" every known
    connection counts; under "established and symmetric" the connection
    must be established and confirmed by an established connection of the
    remote peer back to this one (glossary: "Symmetric connection"). *)
Definition passes (t : gmap PeerName (gmap PeerName bool))
    (establishedAndSymmetric : bool) (p q : PeerName) : bool :=
  match connections t p !! q with
  | None => false
  | Some established =>
      if establishedAndSymmetric
      then established && default false (connections t q !! p)
      else true
  end.

(** [q] is reachable from [p] under the filter: a chain of connections
    that pass the filter leads from [p] to [q]. *)
Inductive reaches (t : gmap PeerName (gmap PeerName bool)) (e : bool)
    (p : PeerName) : PeerName → Prop :=
| reaches_here : reaches t e p p
| reaches_next (q q' : PeerName) :
    reaches t e p q → passes t e q q' = true → reaches t e p q'.

Definition neighbours (t : gmap PeerName (gmap PeerName bool))
    (establishedAndSymmetric : bool) (p : PeerName) : list PeerName :=
  filter (λ q, passes t establishedAndSymmetric p q = true)
         (elements (dom (connections t p))).

(** Every name the topology mentions, as a peer or as a remote end. *)
Definition mentioned (t : gmap PeerName (gmap PeerName bool)) : gset PeerName :=
  dom t ∪ ⋃ (dom <$> (map_to_list t).*2).

(** One round of the spanning computation: every peer already in the table
    offers each of its neighbours; a neighbour not yet in the table enters
    with the next hop of the peer that offered it, or with itself when the
    source offered it. *)
Definition offer (source p hop : PeerName)
    (table : gmap PeerName PeerName) (q : PeerName) : gmap PeerName PeerName :=
  match table !! q with
  | Some _ => table
  | None => <[q := if decide (p = source) then q else hop]> table
  end.

Definition visit (t : gmap PeerName (gmap PeerName bool)) (e : bool)
    (source : PeerName) (table : gmap PeerName PeerName)
    (entry : PeerName * PeerName) : gmap PeerName PeerName :=
  foldl (offer source entry.1 entry.2) table (neighbours t e entry.1).

Definition round (t : gmap PeerName (gmap PeerName bool)) (e : bool)
    (source : PeerName) (table : gmap PeerName PeerName)
    : gmap PeerName PeerName :=
  foldl (visit t e source) table (map_to_list table).

Fixpoint rounds (n : nat) (t : gmap PeerName (gmap PeerName bool)) (e : bool)
    (source : PeerName) (table : gmap PeerName PeerName)
    : gmap PeerName PeerName :=
  match n with
  | O => table
  | S n' => rounds n' t e source (round t e source table)
  end.

(** Modelled from the spec: the reachability primitive [Peer.Routes] (the
    method is missing).  "A single-source reachability/spanning computation
    rooted at the [source] peer, filtered by the connection-quality
    predicate, producing a direct next hop for every reachable destination";
    the source's own entry is the sentinel.  The boolean tells whether
    [stopAt] is reachable from the source under the filter, and the table's
    keys are the reachability set (glossary: "the set of peers reachable
    from a given source under a connection-quality filter"). *)
Definition described_Routes (unknown : PeerName)
    (t : gmap PeerName (gmap PeerName bool)) (source : PeerName)
    (stopAt : option PeerName) (establishedAndSymmetric : bool)
    : bool * gmap PeerName PeerName :=
  let table :=
    rounds (size (mentioned t)) t establishedAndSymmetric source
      {[ source := unknown ]} in
  (match stopAt with
   | Some s => bool_decide (is_Some (table !! s))
   | None => false
   end, table).

(** Modelled from the spec: the lookup [peers.byName] (the type [Peers] is
    missing): a peer is known when the topology has an entry for it.  Peers
    are identified with their names. *)
Definition described_byName (t : gmap PeerName (gmap PeerName bool))
    (ps : unit) (name : PeerName) : option PeerName :=
  match t !! name with
  | Some _ => Some name
  | None => None
  end.

(** The provider built from the definitions above.  The neighbour
    enumerator stays a parameter: no claim depends on which neighbours it
    visits.  Callbacks are numbered. *)
Definition described (unknown zero : PeerName)
    (enumerate : gmap PeerName (gmap PeerName bool) → PeerName → bool →
                 gmap PeerName PeerName → list PeerName)
    : Collaborators PeerName :=
  {| UnknownPeerName := unknown;
     zeroPeerName := zero;
     Peer := PeerName;
     Peers := unit;
     Topology := gmap PeerName (gmap PeerName bool);
     Callback := nat;
     Name := id;
     byName := described_byName;
     Names := λ t _, dom t;
     Peer_Routes := described_Routes unknown;
     ForEachConnectedPeer := enumerate |}.

End described.

(** ** A concrete mesh to run the model on

    Peer names are numbers, [0] is the unknown name.  The enumerator is a
    stand-in for the one of the package, to run the model on examples: it
    visits every neighbour whose link passes the filter and that the given
    table reaches through a next hop (which leaves out the source of the
    table). *)
Module Mesh.

Definition enumerate (t : gmap N (gmap N bool)) (p : N) (e : bool)
    (reached : gmap N N) : list N :=
  filter (λ q, default 0%N (reached !! q) ≠ 0%N) (neighbours t e p).

#[global] Instance provider : Collaborators N := described 0%N 0%N enumerate.

(** A link in both directions, established at both ends. *)
Definition link (p q : N) (t : gmap N (gmap N bool)) : gmap N (gmap N bool) :=
  <[p := <[q := true]> (connections t p)]>
    (<[q := <[p := true]> (connections t q)]> t).

(** The chain 1 - 2 - 3 and the isolated peer 4. *)
Definition chain : gmap N (gmap N bool) := link 1 2 (link 2 3 {[ 4%N := ∅ ]}).

(** The same mesh after peer 1 has left. *)
Definition without_1 : Topology := link 2 3 {[ 4%N := ∅ ]}.

(** Peer 2 is the local peer.  [after ls] is the state the schedule [ls]
    leads to from a fresh [Routes] on the chain. *)
Definition fresh : State := NewState (2%N : Peer) (tt : Peers) (chain : Topology).

Definition after (ls : list Label) : State := default fresh (exec ls fresh).

(** Caller 7 asks for the broadcast routes of peer 1 and the serializer
    fills the cache. *)
Definition fill_1 : list Label :=
  [LBroadcast 7 1%N; LRecvAction 7; LRun; LRun; LRun; LRun].

(** The mesh of the specification's scenarios A and B, 1 - 2 - 3, and of
    scenario C, a star around peer 1; there peer 1 is the local peer. *)
Definition line : Topology := link 1 2 (link 2 3 ∅).

Definition star : Topology := link 1 2 (link 1 3 (link 1 4 (link 1 5 ∅))).

Definition after_on (t : Topology) (ls : list Label) : State :=
  default (NewState (1%N : Peer) (tt : Peers) t)
    (exec ls (NewState (1%N : Peer) (tt : Peers) t)).

(** A [Routes] value whose unicastAll table lacks the local peer's entry
    (no execution leads to it). *)
Definition without_self : Routes :=
  mkRoutes (2%N : Peer) (tt : Peers) [] ∅ {[ 1%N := 3%N ]} ∅ ∅ false.

(** Callbacks are numbered. *)
Definition callback (n : nat) : Callback := n.

(** A full recalculation with no callback registered. *)
Definition recalculation : list Label :=
  [LRecalculate; LRecvRecalculate; LRun; LRun; LRun].

End Mesh.

(** ** [calculate] statement by statement, with its locks

    The transition system takes every region between a lock and its unlock
    as one transition, so in it the serializer holds no lock between two
    transitions.  Here [calculate] is embedded once more, one statement at a
    time, with the locks the goroutine holds written out: which locks it
    holds when it reads the topology, when it replaces the tables and when
    it invokes a callback is then a property of the code, not of the
    granularity of the transitions.  A callback is an opaque call that
    returns. *)

Section locks.

Context {PeerName : Type} `{Countable PeerName} `{!Collaborators PeerName}.

(** The three [sync.RWMutex] values [routes.go] locks: the one embedded in
    [Routes] (line 13), the one of [routes.peers] and the one of
    [routes.ourself]. *)
Inductive Mutex := MuRoutes | MuPeers | MuOurself.

(** A lock the goroutine holds: taken by [RLock] or by [Lock]. *)
Inductive Hold := HRead (m : Mutex) | HWrite (m : Mutex).

#[global] Instance Mutex_eq_dec : EqDecision Mutex.
Proof. solve_decision. Defined.

#[global] Instance Hold_eq_dec : EqDecision Hold.
Proof. solve_decision. Defined.

(** What [calculate] does between its lock operations: it derives the
    tables from the peer directory and the local peer's connections (lines
    196-203), it assigns the four tables and takes the snapshot of the
    callbacks (lines 208-212), it invokes a callback (line 216). *)
Inductive Access :=
| ADerive
| AReplace
| AInvoke (callback : Callback).

(** The goroutine that runs [calculate]: the [Routes] value it works on,
    the locks it holds (the latest first), and what it has done so far (the
    oldest first), each with the locks it held then. *)
Record Goroutine := mkGoroutine {
  g_routes : Routes;
  g_held : list Hold;
  g_log : list (Access * list Hold);
}.

(** Give up the latest hold [h]; [None] when [h] is not held. *)
Fixpoint release (h : Hold) (held : list Hold) : option (list Hold) :=
  match held with
  | [] => None
  | h' :: rest =>
      if decide (h' = h) then Some rest
      else match release h rest with
           | Some rest' => Some (h' :: rest')
           | None => None
           end
  end.

(** The four methods of [sync.RWMutex], as far as the goroutine's own holds
    go.  [RLock] does not return while the goroutine itself holds the write
    lock, [Lock] does not return while it holds the lock either way, and
    [RUnlock] and [Unlock] of a lock that is not held are fatal errors:
    these are [None].  What other goroutines hold delays a lock operation
    and does not change its result. *)
Definition RLock (m : Mutex) (g : Goroutine) : option Goroutine :=
  if decide (HWrite m ∈ g_held g) then None
  else Some (mkGoroutine (g_routes g) (HRead m :: g_held g) (g_log g)).

Definition RUnlock (m : Mutex) (g : Goroutine) : option Goroutine :=
  match release (HRead m) (g_held g) with
  | Some held => Some (mkGoroutine (g_routes g) held (g_log g))
  | None => None
  end.

Definition Lock (m : Mutex) (g : Goroutine) : option Goroutine :=
  if decide (HRead m ∈ g_held g ∨ HWrite m ∈ g_held g) then None
  else Some (mkGoroutine (g_routes g) (HWrite m :: g_held g) (g_log g)).

Definition Unlock (m : Mutex) (g : Goroutine) : option Goroutine :=
  match release (HWrite m) (g_held g) with
  | Some held => Some (mkGoroutine (g_routes g) held (g_log g))
  | None => None
  end.

(** Record an access together with the locks held at that moment. *)
Definition access (a : Access) (g : Goroutine) : Goroutine :=
  mkGoroutine (g_routes g) (g_held g) (g_log g ++ [(a, g_held g)]).

Definition assign (r : Routes) (g : Goroutine) : Goroutine :=
  mkGoroutine r (g_held g) (g_log g).

(** [calculate], lines 193-218, on the topology [t].  The topology is read
    between [routes.peers.RLock()] and [routes.peers.RUnlock()] only. *)
Definition calculate (t : Topology) (g : Goroutine) : option Goroutine :=
  g ← RLock MuPeers g;
  g ← RLock MuOurself g;
  let tb := calculate_derive t (g_routes g) in
  let g := access ADerive g in
  g ← RUnlock MuOurself g;
  g ← RUnlock MuPeers g;
  g ← Lock MuRoutes g;
  let g := access AReplace (assign (calculate_replace tb (g_routes g)) g) in
  let onChange := onChange (g_routes g) in
  g ← Unlock MuRoutes g;
  Some (foldl (λ g callback, access (AInvoke callback) g) g onChange).

End locks.

(** ** Vocabulary of the properties *)

Section vocabulary.

Context {PeerName : Type} `{Countable PeerName} `{!Collaborators PeerName}.

(** The self-entries of the four tables. *)
Definition self_unicast (r : Routes) : Prop :=
  unicast r !! Name (ourself r) = Some UnknownPeerName ∧
  unicastAll r !! Name (ourself r) = Some UnknownPeerName.

Definition self_broadcast (r : Routes) : Prop :=
  is_Some (broadcast r !! Name (ourself r)) ∧
  is_Some (broadcastAll r !! Name (ourself r)).

(** The same for the local variables of [calculate] before they are
    installed. *)
Definition self_tables (r : Routes) (tb : Tables (PeerName:=PeerName))
    : Prop :=
  t_unicast tb !! Name (ourself r) = Some UnknownPeerName ∧
  t_unicastAll tb !! Name (ourself r) = Some UnknownPeerName ∧
  is_Some (t_broadcast tb !! Name (ourself r)) ∧
  is_Some (t_broadcastAll tb !! Name (ourself r)).

(** The four tables of a [Routes] value. *)
Definition tables (r : Routes) : Tables :=
  mkTables (unicast r) (unicastAll r) (broadcast r) (broadcastAll r).

(** A schedule of the environment alone. *)
Definition env_only (ls : list Label) : Prop :=
  ∀ l, l ∈ ls → env_label l = true.

(** The closure of the lazy fill never runs for the local peer's name. *)
Definition never_lazy_for_self (s : State) : Prop :=
  (∀ c name ptr e,
     callers s !! c = Some (CSendAction name ptr e) →
     name ≠ Name (ourself (routes s))) ∧
  (∀ c name ptr e,
     pc s = PAction c name ptr e ∨ pc s = PCompute c name ptr e →
     name ≠ Name (ourself (routes s))) ∧
  (∀ ptr name hops,
     EvCalculateBroadcast ptr name hops ∈ trace s →
     name ≠ Name (ourself (routes s))).

(** The caller the serializer is working for at a control point, and where
    that caller is blocked. *)
Definition serves (p : Pc) : option (nat * Caller) :=
  match p with
  | PDrain c | PClose c | PCalculate (KClose c) | PReplace _ (KClose c)
  | PCallbacks _ (KClose c) => Some (c, CRecvDone)
  | PAction c name ptr _ | PCompute c name ptr _ | PReplyFound c name ptr _
  | PReplyCalc c name ptr _ => Some (c, CRecvRes name ptr)
  | _ => None
  end.

(** The control points of the closure built by [lookupOrCalculate]. *)
Definition in_action (p : Pc) : bool :=
  match p with
  | PAction _ _ _ _ | PCompute _ _ _ _ | PReplyFound _ _ _ _
  | PReplyCalc _ _ _ _ | PStore _ _ _ => true
  | _ => false
  end.

(** The entry the closure has computed and not stored yet. *)
Definition unstored (p : Pc) : option (BroadcastPtr * PeerName * list PeerName) :=
  match p with
  | PReplyCalc _ name ptr hops | PStore name ptr hops => Some (ptr, name, hops)
  | _ => None
  end.

(** [hops] is what the table [ptr] holds for [name], or is about to. *)
Definition cached (s : State) (ptr : BroadcastPtr) (name : PeerName)
    (hops : list PeerName) : Prop :=
  deref ptr (routes s) !! name = Some hops ∨
  unstored (pc s) = Some (ptr, name, hops).

(** The broadcast entry an event speaks of. *)
Definition entry_of (ev : Event)
    : option (BroadcastPtr * PeerName * list PeerName) :=
  match ev with
  | EvCalculateBroadcast ptr name hops | EvStore ptr name hops
  | EvReturn _ ptr name hops => Some (ptr, name, hops)
  | _ => None
  end.

Definition is_replace (ev : Event) : bool :=
  match ev with EvReplace _ => true | _ => false end.

Definition is_calculate (ev : Event) : bool :=
  match ev with EvCalculate => true | _ => false end.

(** No table replacement among the events. *)
Definition no_replace (tr : list Event) : Prop :=
  ∀ ev, ev ∈ tr → is_replace ev = false.

(** The events since the last table replacement. *)
Fixpoint since_replace (tr : list Event) : list Event :=
  match tr with
  | [] => []
  | ev :: tr' => if is_replace ev then [] else ev :: since_replace tr'
  end.

(** The callbacks invoked, in the order of the event list. *)
Definition callbacks_of (tr : list Event) : list Callback :=
  omap (λ ev, match ev with EvCallback cb => Some cb | _ => None end) tr.

(** The callbacks a schedule registers, in order. *)
Definition registered (ls : list Label) : list Callback :=
  omap (λ l, match l with LOnChange cb => Some cb | _ => None end) ls.

(** A schedule in which the serializer, if it moves, only executes its next
    statement (it takes nothing new from its channels). *)
Definition runs_on (ls : list Label) : Prop :=
  ∀ l, l ∈ ls → env_label l = true ∨ l = LRun.

Definition is_run (l : Label) : bool :=
  match l with LRun => true | _ => false end.

Definition is_Recalculate (l : Label) : bool :=
  match l with LRecalculate => true | _ => false end.

(** How many statements the serializer executes in a schedule. *)
Definition count_run (ls : list Label) : nat := length (filter is_run ls).

(** How many times [calculate] is called among the events. *)
Definition count_calculate (tr : list Event) : nat :=
  length (filter is_calculate tr).

(** A monitor for one recalculation in a window of events, read oldest
    first: [calculate] not called yet; called, tables not replaced yet;
    tables replaced with the given snapshot of callbacks, of which [fired]
    have been invoked so far. *)
Inductive Stage :=
| SIdle
| SCalled
| SReplaced (snapshot fired : list Callback).

Definition advance (ev : Event) (st : Stage) : Stage :=
  match ev, st with
  | EvCalculate, SIdle => SCalled
  | EvReplace snapshot, SCalled => SReplaced snapshot []
  | EvCallback cb, SReplaced snapshot fired => SReplaced snapshot (fired ++ [cb])
  | _, _ => st
  end.

Definition stage (new : list Event) : Stage := foldr advance SIdle new.

(** The stage the monitor was in when [done] was first closed for [c]. *)
Fixpoint stage_at_done (c : nat) (new : list Event) : option Stage :=
  match new with
  | [] => None
  | ev :: older =>
      match stage_at_done c older with
      | Some st => Some st
      | None =>
          match ev with
          | EvDone c' => if decide (c' = c) then Some (stage older) else None
          | _ => None
          end
      end
  end.

(** Where caller [c] is while inside [EnsureRecalculated]: still sending
    [done], or receiving from it with the serializer where [P] says. *)
Definition awaiting (w : option (Caller (PeerName:=PeerName))) (P : Prop)
    : Prop :=
  w = Some CSendWait ∨ (w = Some CRecvDone ∧ P).

Definition in_calculate (p : Pc) : option Cont :=
  match p with
  | PCalculate k | PReplace _ k | PCallbacks _ k => Some k
  | _ => None
  end.

(** The relation between a window of events and the state, for a window
    that opens with the signal pending and [c] entering
    [EnsureRecalculated], and in which nobody else signals.  It relates the
    signal, the serializer's control point, the place of caller [c], the
    stage at which [done] was closed for [c] if it was, the stage now, and
    the number of calls of [calculate]. *)
Definition phase_of (c : nat) (signal : bool) (p : Pc)
    (w : option (Caller (PeerName:=PeerName)))
    (closed : option Stage) (st : Stage) (n : nat) : Prop :=
  match closed with
  | Some st' =>
      (∃ snapshot, st' = SReplaced snapshot snapshot) ∧
      signal = false ∧ n = 1
  | None =>
      match st with
      | SIdle =>
          signal = true ∧ n = 0 ∧ awaiting w (p = PDrain c)
      | SCalled =>
          signal = false ∧ n = 1 ∧
          ∃ k, (p = PCalculate k ∨ ∃ tb, p = PReplace tb k) ∧
               awaiting w (k = KClose c)
      | SReplaced snapshot fired =>
          signal = false ∧ n = 1 ∧
          ((∃ rest k, p = PCallbacks rest k ∧ snapshot = fired ++ rest ∧
                      awaiting w (k = KClose c)) ∨
           (fired = snapshot ∧ in_calculate p = None ∧
            awaiting w (p = PDrain c ∨ p = PClose c)))
      end
  end.

Definition phase (c : nat) (s : State) (new : list Event) : Prop :=
  phase_of c (recalculate (routes s)) (pc s) (callers s !! c)
    (stage_at_done c new) (stage new) (count_calculate new).

(** Invariants of the reachable states. *)

(** The caller the serializer works for is blocked where the serializer
    left it. *)
Definition served (s : State) : Prop :=
  ∀ c w, serves (pc s) = Some (c, w) → callers s !! c = Some w.

(** Coherence of the broadcast tables with the events since the last
    replacement, and with the local variables of the closure. *)
Definition coherent (s : State) : Prop :=
  (∀ ev ptr name hops,
     ev ∈ since_replace (trace s) → entry_of ev = Some (ptr, name, hops) →
     cached s ptr name hops) ∧
  (∀ ptr name hops,
     unstored (pc s) = Some (ptr, name, hops) →
     deref ptr (routes s) !! name = None) ∧
  (∀ c name ptr e,
     pc s = PCompute c name ptr e → deref ptr (routes s) !! name = None) ∧
  (∀ c name ptr hops,
     pc s = PReplyFound c name ptr hops →
     deref ptr (routes s) !! name = Some hops).

End vocabulary.

(** ** Vocabulary of the properties of the whole system *)

Section vocabulary_system.

Context {PeerName : Type} `{Countable PeerName} `{!Collaborators PeerName}.

(** The filter each accessor passes along with its pointer: [Broadcast]
    passes [&routes.broadcast] and [true] (line 83), [BroadcastAll] passes
    [&routes.broadcastAll] and [false] (line 90). *)
Definition filter_of (ptr : BroadcastPtr) : bool :=
  match ptr with
  | PtrBroadcast => true
  | PtrBroadcastAll => false
  end.

Definition is_Topology (l : Label) : bool :=
  match l with LTopology _ => true | _ => false end.

Definition is_callback (ev : Event) : bool :=
  match ev with EvCallback _ => true | _ => false end.

(** How many times [Recalculate] is called in a schedule, and whether the
    channel [recalculate] holds a signal, as a number. *)
Definition count_Recalculate (ls : list Label) : nat :=
  length (filter is_Recalculate ls).

Definition pending (r : Routes) : nat := if recalculate r then 1 else 0.

(** How many of the calls of [Recalculate] in a schedule find the channel
    empty and send a signal (line 163); the others take the [default] case
    (line 164). *)
Fixpoint count_sent (ls : list Label) (s : State) : nat :=
  match ls with
  | [] => 0
  | l :: ls' =>
      match step l s with
      | Some s' =>
          (if is_Recalculate l && negb (recalculate (routes s))
           then 1 else 0) + count_sent ls' s'
      | None => 0
      end
  end.

(** A schedule of the serializer alone. *)
Definition serializer_only (ls : list Label) : Prop :=
  Forall (λ l, env_label l = false) ls.

(** The tables say what the provider says now: the unicast tables are the
    ones [calculateUnicast] derives from the current topology, and every
    broadcast entry is the list [calculateBroadcast] derives from it for
    that name under the filter of its table. *)
Definition up_to_date (s : State) : Prop :=
  unicast (routes s) = calculateUnicast (topology s) (routes s) true ∧
  unicastAll (routes s) = calculateUnicast (topology s) (routes s) false ∧
  (∀ ptr X hops,
     deref ptr (routes s) !! X = Some hops →
     hops = calculateBroadcast (topology s) (routes s) X (filter_of ptr)).

(** The tables [NewRoutes] seeds (lines 36-39), as far as the local peer's
    entries go. *)
Definition seeded (r : Routes) : Prop :=
  unicast r = {[ Name (ourself r) := UnknownPeerName ]} ∧
  unicastAll r = {[ Name (ourself r) := UnknownPeerName ]} ∧
  broadcast r !! Name (ourself r) = Some [] ∧
  broadcastAll r !! Name (ourself r) = Some [].

(** The unicast tables and the local peer's broadcast entries are those
    one run of [calculate] derives from the topology [t]. *)
Definition snapshot_of (t : Topology) (r : Routes) : Prop :=
  unicast r = calculateUnicast t r true ∧
  unicastAll r = calculateUnicast t r false ∧
  broadcast r !! Name (ourself r) =
    Some (calculateBroadcast t r (Name (ourself r)) true) ∧
  broadcastAll r !! Name (ourself r) =
    Some (calculateBroadcast t r (Name (ourself r)) false).

(** How many statements the serializer executes from its control point
    until it is back at the outer select, when nothing is registered or
    signalled meanwhile: [calculate] takes one transition to derive, one to
    replace, one per callback and one to leave the loop; the closure takes
    two transitions when it finds the entry and four when it computes
    it. *)
Definition after_calculate_steps (k : Cont) : nat :=
  match k with
  | KLoop => 0
  | KClose _ => 1
  end.

Definition steps_to_select (s : State) : nat :=
  match pc s with
  | PSelect => 0
  | PDrain _ =>
      if recalculate (routes s)
      then 5 + length (onChange (routes s))
      else 2
  | PClose _ => 1
  | PCalculate k => 3 + length (onChange (routes s)) + after_calculate_steps k
  | PReplace _ k => 2 + length (onChange (routes s)) + after_calculate_steps k
  | PCallbacks rest k => 1 + length rest + after_calculate_steps k
  | PAction _ name p _ =>
      match deref p (routes s) !! name with
      | Some _ => 2
      | None => 4
      end
  | PCompute _ _ _ _ => 3
  | PReplyFound _ _ _ _ => 1
  | PReplyCalc _ _ _ _ => 2
  | PStore _ _ _ => 1
  end.

(** What a blocked caller waits for: [done] to be closed, or its result. *)
Definition answers (c : nat) (w : Caller (PeerName:=PeerName))
    (ev : Event) : Prop :=
  match w with
  | CSendWait | CRecvDone => ev = EvDone c
  | CSendAction name p _ | CRecvRes name p =>
      ∃ hops, ev = EvReturn c p name hops
  end.

(** The receive of the select in [run] that takes what the caller sends. *)
Definition receive (c : nat) (w : Caller (PeerName:=PeerName))
    : option Label :=
  match w with
  | CSendWait => Some (LRecvWait c)
  | CSendAction _ _ _ => Some (LRecvAction c)
  | _ => None
  end.

(** Invariants of the reachable states. *)

(** A caller whose [done] or closure the serializer has received is the one
    the serializer is working for. *)
Definition serving (s : State) : Prop :=
  ∀ c w, callers s !! c = Some w → receive c w = None →
         serves (pc s) = Some (c, w).

(** The closure is built with the filter of its table. *)
Definition filters_match (s : State) : Prop :=
  (∀ c name p e,
     callers s !! c = Some (CSendAction name p e) → e = filter_of p) ∧
  (∀ c name p e,
     pc s = PAction c name p e ∨ pc s = PCompute c name p e →
     e = filter_of p).

(** What [calculate] and the closure hold in their local variables is what
    the provider says now. *)
Definition locals_up_to_date (s : State) : Prop :=
  (∀ tb k, pc s = PReplace tb k →
           tb = calculate_derive (topology s) (routes s)) ∧
  (∀ ptr X hops,
     unstored (pc s) = Some (ptr, X, hops) →
     hops = calculateBroadcast (topology s) (routes s) X (filter_of ptr)).

Definition settled (s : State) : Prop := up_to_date s ∧ locals_up_to_date s.

(** A recalculation is owed to caller [c]: a signal is pending, or
    [calculate] has started on the current topology and has not replaced
    the tables yet; and if the serializer has received [done] from [c], it
    has not closed it and will not before [calculate] has run. *)
Definition owed (c : nat) (s : State) : Prop :=
  (recalculate (routes s) = true ∧
   (callers s !! c = Some CRecvDone → pc s = PDrain c)) ∨
  (∃ k, (pc s = PCalculate k ∨
         pc s = PReplace (calculate_derive (topology s) (routes s)) k) ∧
        (callers s !! c = Some CRecvDone → k = KClose c)).

(** A complete recalculation among the events of a window (newest first):
    [calculate] was called, it replaced the tables, and it invoked every
    callback of its snapshot, in order. *)
Definition completed (new : list Event) : Prop :=
  ∃ post mid2 snapshot mid1 pre,
    new = post ++ mid2 ++ EvReplace snapshot :: mid1 ++ EvCalculate :: pre ∧
    callbacks_of mid2 = rev snapshot.

(** Every time [done] is closed for [c] in the window, a complete
    recalculation of the window lies before it. *)
Definition done_after_completed (c : nat) (new : list Event) : Prop :=
  ∀ post older, new = post ++ EvDone c :: older → completed older.

(** [P] holds if the serializer has received [done] from the caller. *)
Definition once_received (w : option (Caller (PeerName:=PeerName)))
    (P : Prop) : Prop :=
  w = Some CRecvDone → P.

(** The window opened with a call of [Recalculate] and no complete
    recalculation lies in it yet: the signal is still pending; or
    [calculate] was called in the window and has not replaced the tables;
    or it has, and is invoking the callbacks.  In each case, if the
    serializer has received [done] from [c], it is still to run or to
    finish that recalculation before it closes [done]. *)
Definition waiting_of (c : nat) (signal : bool) (p : Pc)
    (w : option (Caller (PeerName:=PeerName))) (st : Stage) : Prop :=
  match st with
  | SIdle => signal = true ∧ once_received w (p = PDrain c)
  | SCalled =>
      ∃ k, (p = PCalculate k ∨ ∃ tb, p = PReplace tb k) ∧
           once_received w (k = KClose c)
  | SReplaced snapshot fired =>
      ∃ rest k, p = PCallbacks rest k ∧ snapshot = fired ++ rest ∧
                once_received w (k = KClose c)
  end.

Definition before_barrier (c : nat) (s : State) (new : list Event) : Prop :=
  waiting_of c (recalculate (routes s)) (pc s) (callers s !! c) (stage new) ∧
  EvDone c ∉ new.

Definition barrier (c : nat) (s : State) (new : list Event) : Prop :=
  before_barrier c s new ∨ (completed new ∧ done_after_completed c new).

End vocabulary_system.

(** * Properties *)

(** ** Executions *)

Section executions.

Context {PeerName : Type} `{Countable PeerName} `{!Collaborators PeerName}.

Lemma exec_app (ls1 ls2 : list Label) (s : State) :
  exec (ls1 ++ ls2) s = exec ls1 s ≫= exec ls2.
Proof.
  revert s. induction ls1 as [|l ls1 IH]; intros s; simpl; [done|].
  destruct (step l s); simpl; [apply IH|done].
Qed.

Lemma exec_app_Some (ls1 ls2 : list Label) (s s' : State) :
  exec (ls1 ++ ls2) s = Some s' ↔
  ∃ s1, exec ls1 s = Some s1 ∧ exec ls2 s1 = Some s'.
Proof.
  rewrite exec_app. destruct (exec ls1 s) as [s1|]; simpl.
  - split; [eauto|]. by intros (? & [= <-] & ?).
  - split; [done|]. by intros (? & ? & ?).
Qed.

Lemma exec_cons_Some (l : Label) (ls : list Label) (s s' : State) :
  exec (l :: ls) s = Some s' ↔
  ∃ s1, step l s = Some s1 ∧ exec ls s1 = Some s'.
Proof.
  simpl. destruct (step l s) as [s1|].
  - split; [eauto|]. by intros (? & [= <-] & ?).
  - split; [done|]. by intros (? & ? & ?).
Qed.

Lemma reachable_new (o : Peer) (ps : Peers) (t : Topology) :
  reachable (NewState o ps t).
Proof. by exists o, ps, t, []. Qed.

Lemma reachable_step (l : Label) (s s' : State) :
  reachable s → step l s = Some s' → reachable s'.
Proof.
  intros (o & ps & t & ls & Hls) Hstep. exists o, ps, t, (ls ++ [l]).
  apply exec_app_Some. exists s. split; [done|]. simpl. by rewrite Hstep.
Qed.

Lemma reachable_exec (ls : list Label) (s s' : State) :
  reachable s → exec ls s = Some s' → reachable s'.
Proof.
  revert s. induction ls as [|l ls IH]; intros s Hs; simpl.
  - by intros [= <-].
  - destruct (step l s) as [s1|] eqn:Hstep; [|done].
    apply IH. by eapply reachable_step.
Qed.

(** Induction over the executions that lead to a reachable state. *)
Lemma reachable_ind (P : State → Prop) :
  (∀ o ps t, P (NewState o ps t)) →
  (∀ l s s', reachable s → P s → step l s = Some s' → P s') →
  ∀ s, reachable s → P s.
Proof.
  intros Hnew Hstep s (o & ps & t & ls & Hls). revert s Hls.
  induction ls as [|l ls IH] using rev_ind; intros s Hls.
  - simpl in Hls. injection Hls as <-. apply Hnew.
  - apply exec_app_Some in Hls as (s1 & Hs1 & Hl).
    apply exec_cons_Some in Hl as (s2 & Hl & [= <-]).
    eapply Hstep; [|by apply IH|done]. by exists o, ps, t, ls.
Qed.

End executions.

(** Induction on the execution behind a hypothesis [Hs : reachable s]. *)
Ltac reachable_induction Hs :=
  match type of Hs with
  | reachable ?s =>
      pattern s; revert s Hs; apply reachable_ind;
      [intros ?o ?ps ?t | intros ?l ?s ?s' ?Hreach ?IH ?Hstep]
  end.

(** Break the existentials, conjunctions and disjunctions among the
    hypotheses. *)
Ltac break :=
  repeat match goal with
  | H : ∃ _, _ |- _ => destruct H
  | H : _ ∧ _ |- _ => destruct H
  | H : _ ∨ _ |- _ => destruct H
  end.

(** Case analysis of one transition: [step_cases Hstep] leaves one goal per
    statement the transition may have executed. *)
Ltac step_cases Hstep :=
  match type of Hstep with
  | step ?l ?s = Some ?s' =>
      destruct s as [?r ?t ?p ?cs ?tr];
      destruct l; simpl in Hstep;
      unfold Broadcast, BroadcastAll, lookupOrCalculate, EnsureRecalculated,
        run_recv_recalculate, run_recv_wait, run_recv_action, run in Hstep;
      simpl in Hstep;
      repeat (case_match; simplify_eq/=); simplify_eq/=
  end.

(** ** Invariants of the reachable states *)

Section invariants.

Context {PeerName : Type} `{Countable PeerName} `{!Collaborators PeerName}.

Lemma deref_store (ptr ptr' : BroadcastPtr) (name : PeerName)
    (hops : list PeerName) (r : Routes) :
  deref ptr' (store ptr name hops r) =
  if decide (ptr' = ptr) then <[name := hops]> (deref ptr' r) else deref ptr' r.
Proof. by destruct ptr, ptr'. Qed.

Lemma deref_Recalculate (ptr : BroadcastPtr) (r : Routes) :
  deref ptr (Recalculate r) = deref ptr r.
Proof. unfold Recalculate. by destruct (recalculate r), ptr. Qed.

Lemma served_reachable (s : State) : reachable s → served s.
Proof.
  intros Hs. reachable_induction Hs.
  - intros c w. by simpl.
  - unfold served in *. intros c w. step_cases Hstep; simpl in *;
      try (by apply IH); intros; simplify_eq/=;
      rewrite ?lookup_insert_eq, ?lookup_delete_eq; try done.
    all: try (destruct k; simplify_eq/=; try done).
    all: match goal with Hs : serves _ = Some _ |- _ => apply IH in Hs end.
    all: rewrite lookup_insert_ne; [done|congruence].
Qed.

Lemma coherent_reachable (s : State) : reachable s → coherent s.
Proof.
  intros Hs. reachable_induction Hs.
  - split_and!; simpl; intros; simplify_eq/=. by apply elem_of_nil in H0.
  - destruct IH as (I1 & I2 & I3 & I4).
    unfold coherent, cached in *. step_cases Hstep; simpl in *.
    all: split_and!; intros; simplify_eq/=; eauto.
    all: try match goal with H : _ ∈ _ :: _ |- _ => apply elem_of_cons in H as [->|H]; simplify_eq/= end; eauto.
    all: rewrite ?deref_Recalculate; eauto.
    all: try match goal with H : _ ∈ [] |- _ => by apply elem_of_nil in H end.
    all: try match goal with k : Cont |- _ => destruct k; simplify_eq/=; by eauto end.
    all: try match goal with
      | Hev : ?ev ∈ since_replace _, He : entry_of ?ev = Some _ |- _ =>
          destruct (I1 _ _ _ _ Hev He) as [?|?]; simplify_eq/=
      end; eauto.
    all: left; rewrite deref_store; case_decide; simplify_eq/=; eauto.
    all: try by rewrite lookup_insert_eq.
    all: rewrite lookup_insert_ne; [done|].
    all: intros ->; specialize (I2 _ _ _ eq_refl); congruence.
Qed.

End invariants.

(** ** The broadcast cache *)

Section cache.

Context {PeerName : Type} `{Countable PeerName} `{!Collaborators PeerName}.

Lemma step_trace (l : Label) (s s' : State) :
  step l s = Some s' →
  trace s' = trace s ∨ ∃ ev, trace s' = ev :: trace s.
Proof. intros Hstep. step_cases Hstep; eauto. Qed.

(** Every event of a reachable trace was emitted by a transition out of a
    reachable state whose trace is the rest of the list. *)
Lemma trace_history (s : State) :
  reachable s →
  ∀ a ev b, trace s = a ++ ev :: b →
  ∃ l s1 s2, reachable s1 ∧ step l s1 = Some s2 ∧
             trace s1 = b ∧ trace s2 = ev :: b.
Proof.
  intros Hs. reachable_induction Hs.
  - intros a ev b Ht. simpl in Ht. by destruct a.
  - intros a ev b Ht.
    destruct (step_trace _ _ _ Hstep) as [Heq|[ev' Heq]].
    + rewrite Heq in Ht. eauto.
    + rewrite Heq in Ht. destruct a as [|x a]; simplify_eq/=.
      * exists l, s, s'. eauto.
      * eauto.
Qed.

Lemma no_replace_since (t2 t1 : list Event) (ev : Event) :
  no_replace t2 → is_replace ev = false →
  ev ∈ since_replace (t2 ++ ev :: t1).
Proof.
  induction t2 as [|x t2 IH]; intros Hno Hev; simpl.
  - rewrite Hev. by left.
  - rewrite (Hno x) by by left. right. apply IH; [|done].
    intros y Hy. apply Hno. by right.
Qed.

Lemma cached_functional (s : State) (ptr : BroadcastPtr) (name : PeerName)
    (hops1 hops2 : list PeerName) :
  coherent s → cached s ptr name hops1 → cached s ptr name hops2 →
  hops1 = hops2.
Proof.
  intros (_ & I2 & _) [H1|H1] [H2|H2]; try congruence.
  - specialize (I2 _ _ _ H2). congruence.
  - specialize (I2 _ _ _ H1). congruence.
Qed.

Lemma trace_fresh (tr : list Event) (ev : Event) : tr ≠ ev :: tr.
Proof. intros Heq. apply (f_equal length) in Heq. simpl in Heq. lia. Qed.

(** A [Broadcast]/[BroadcastAll] call returns what the table holds or is
    about to hold. *)
Lemma return_cached (l : Label) (s s' : State) (c : nat) (ptr : BroadcastPtr)
    (name : PeerName) (hops : list PeerName) :
  coherent s → step l s = Some s' →
  trace s' = EvReturn c ptr name hops :: trace s →
  cached s ptr name hops.
Proof.
  intros (_ & _ & _ & I4) Hstep Ht. unfold cached.
  step_cases Hstep; simpl in *; simplify_eq/=;
    try (by destruct (trace_fresh _ _ Ht)); eauto.
Qed.

(** The closure calls [calculateBroadcast] only for a name that the table
    does not hold and is not about to hold. *)
Lemma compute_uncached (l : Label) (s s' : State) (ptr : BroadcastPtr)
    (name : PeerName) (hops hops' : list PeerName) :
  coherent s → step l s = Some s' →
  trace s' = EvCalculateBroadcast ptr name hops :: trace s →
  ¬ cached s ptr name hops'.
Proof.
  intros (_ & _ & I3 & _) Hstep Ht. unfold cached.
  step_cases Hstep; simpl in *; simplify_eq/=;
    try (by destruct (trace_fresh _ _ Ht)).
  specialize (I3 _ _ _ _ eq_refl). intros [?|?]; congruence.
Qed.

(** An entry spoken of since the last replacement is cached. *)
Lemma since_cached (s : State) (t2 t1 : list Event) (ev : Event)
    (ptr : BroadcastPtr) (name : PeerName) (hops : list PeerName) :
  reachable s → trace s = t2 ++ ev :: t1 → no_replace t2 →
  entry_of ev = Some (ptr, name, hops) →
  cached s ptr name hops.
Proof.
  intros Hs Ht Hno Hev.
  destruct (coherent_reachable s Hs) as (I1 & _).
  apply (I1 ev); [|done]. rewrite Ht. apply no_replace_since; [done|].
  by destruct ev.
Qed.

(** C2.  Cache coherence: when a [Broadcast] (or [BroadcastAll]) call for
    [X] has returned [S1] and a later call for [X] on the same table
    returns [S2] with no replacement of the tables in between, then
    [S2 = S1], and [calculateBroadcast] was not run for [X] in between. *)
Theorem broadcast_cache_coherence (s : State) (c1 c2 : nat)
    (ptr : BroadcastPtr) (X : PeerName) (S1 S2 : list PeerName)
    (t1 t2 t3 : list Event) :
  reachable s →
  trace s = t3 ++ EvReturn c2 ptr X S2 :: t2 ++ EvReturn c1 ptr X S1 :: t1 →
  no_replace t2 →
  S2 = S1 ∧ ∀ hops, EvCalculateBroadcast ptr X hops ∉ t2.
Proof.
  intros Hs Ht Hno. split.
  - destruct (trace_history s Hs _ _ _ Ht) as (l & s1 & s2 & Hs1 & Hstep & Ht1 & Ht2).
    rewrite <- Ht1 in Ht2.
    eapply cached_functional; [by apply coherent_reachable| |].
    + eapply return_cached; [by apply coherent_reachable|done..].
    + by eapply since_cached.
  - intros hops Hin. apply list_elem_of_split in Hin as (u & v & ->).
    assert (trace s = (t3 ++ EvReturn c2 ptr X S2 :: u) ++
              EvCalculateBroadcast ptr X hops ::
              (v ++ EvReturn c1 ptr X S1 :: t1)) as Ht'.
    { rewrite Ht. by simplify_list_eq. }
    destruct (trace_history s Hs _ _ _ Ht') as (l & s1 & s2 & Hs1 & Hstep & Ht1 & Ht2).
    rewrite <- Ht1 in Ht2.
    eapply compute_uncached; [by apply coherent_reachable|done..|].
    eapply (since_cached s1 v); [done..| |done].
    intros y Hy. apply Hno. apply elem_of_app. right. by right.
Qed.

(** C8.  Between two replacements of the tables the closure runs
    [calculateBroadcast] at most once per name and table: two such events
    for the same name and table have a replacement between them.  And the
    closure runs it only at its control point after the second look at the
    table, for a name the table does not hold. *)
Theorem lazy_fill_once (s : State) (ptr : BroadcastPtr) (X : PeerName) :
  reachable s →
  (∀ hops1 hops2 t1 t2 t3,
     trace s = t3 ++ EvCalculateBroadcast ptr X hops2 :: t2 ++
               EvCalculateBroadcast ptr X hops1 :: t1 →
     ∃ snapshot, EvReplace snapshot ∈ t2) ∧
  (∀ l s' hops,
     step l s = Some s' →
     trace s' = EvCalculateBroadcast ptr X hops :: trace s →
     l = LRun ∧ (∃ c e, pc s = PCompute c X ptr e) ∧
     deref ptr (routes s) !! X = None).
Proof.
  intros Hs. split.
  - intros hops1 hops2 t1 t2 t3 Ht.
    destruct (decide (Forall (λ ev, is_replace ev = false) t2)) as [Hno|Hyes].
    + exfalso. rewrite list.Forall_forall in Hno.
      destruct (trace_history s Hs _ _ _ Ht)
        as (l & s1 & s2 & Hs1 & Hstep & Ht1 & Ht2).
      rewrite <- Ht1 in Ht2.
      eapply compute_uncached; [by apply coherent_reachable|done..|].
      eapply (since_cached s1 t2); [done|done|exact Hno|done].
    + apply not_Forall_Exists in Hyes; [|apply _].
      apply Exists_exists in Hyes as (ev & Hin & Hev).
      apply list_elem_of_In in Hin.
      destruct ev; simpl in Hev; try done. eauto.
  - intros l s' hops Hstep Ht.
    destruct (coherent_reachable s Hs) as (_ & _ & I3 & _).
    step_cases Hstep; simpl in *; simplify_eq/=;
      try (by destruct (trace_fresh _ _ Ht)).
    split_and!; eauto.
Qed.

End cache.

(** ** The self-entries *)

Section self_entries.

Context {PeerName : Type} `{Countable PeerName} `{!Collaborators PeerName}.

(** The broadcast half of the invariant holds whatever the provider
    returns. *)
Lemma self_broadcast_invariant (s : State) :
  reachable s →
  self_broadcast (routes s) ∧
  (∀ tb k, pc s = PReplace tb k →
           is_Some (t_broadcast tb !! Name (ourself (routes s))) ∧
           is_Some (t_broadcastAll tb !! Name (ourself (routes s)))) ∧
  never_lazy_for_self s.
Proof.
  intros Hs. reachable_induction Hs.
  - unfold self_broadcast, never_lazy_for_self. simpl.
    rewrite !lookup_singleton_eq. split_and!; eauto; try done.
    + intros ? ? ? ? [?|?]; done.
    + intros ? ? ? Hin. by apply elem_of_nil in Hin.
  - destruct IH as ((Ib & Iba) & Ir & Ic & Ip & It).
    unfold self_broadcast, never_lazy_for_self in *.
    step_cases Hstep; simpl in *.
    all: try match goal with
         | |- context [Recalculate ?r] =>
             unfold Recalculate; destruct (recalculate r) eqn:E; simpl
         end.
    all: try match goal with ptr : BroadcastPtr |- _ => destruct ptr; simpl end.
    all: split_and!; eauto; try done.
    all: try (intros; break; simplify_eq/=; eauto; fail).
    all: try (rewrite lookup_insert; case_decide; eauto; fail).
    all: try (intros ? ? ? ? Hl; apply lookup_insert_Some in Hl;
              destruct Hl as [[? ?]|[? ?]]; simplify_eq/=; eauto;
              intros ->; destruct Ib, Iba; simplify_eq/=; congruence).
    all: try (intros ? ? ? ? Hl; apply lookup_delete_Some in Hl;
              destruct Hl as [? ?]; eauto; fail).
    all: try (intros ? ? ? Hin; apply elem_of_cons in Hin;
              destruct Hin as [?|?]; simplify_eq/=; eauto; fail).
    all: try (intros ? ? [= <- <-]; simpl;
              rewrite !lookup_insert_eq; eauto; fail).
    all: try (by apply (Ir _ _ eq_refl)).
    all: destruct k; simpl; intros; break; simplify_eq/=.
Qed.


(** The unicast half holds as soon as the provider's next-hop table rooted
    at a peer maps that peer to the unknown name. *)
Lemma self_unicast_reachable (s : State) :
  (∀ t p e, (Peer_Routes t p None e).2 !! Name p = Some UnknownPeerName) →
  reachable s →
  self_unicast (routes s) ∧
  (∀ tb k, pc s = PReplace tb k →
           t_unicast tb !! Name (ourself (routes s))
             = Some UnknownPeerName ∧
           t_unicastAll tb !! Name (ourself (routes s))
             = Some UnknownPeerName).
Proof.
  intros Hseed Hs. reachable_induction Hs.
  - unfold self_unicast. simpl. by rewrite !lookup_singleton_eq.
  - destruct IH as ((Iu & Iua) & Ir). unfold self_unicast in *.
    step_cases Hstep; simpl in *.
    all: try match goal with
         | |- context [Recalculate ?r] =>
             unfold Recalculate; destruct (recalculate r) eqn:E; simpl
         end.
    all: try match goal with ptr : BroadcastPtr |- _ => destruct ptr; simpl end.
    all: split_and!; eauto; try done.
    all: try (by apply (Ir _ _ eq_refl)).
    all: try (intros ? ? [= <- <-]; simpl; unfold calculateUnicast; eauto; fail).
    all: destruct k; simpl; intros; break; simplify_eq/=.
Qed.

(** The two unicast tables are derived from the same topology and installed
    together: when the provider's table under the first filter has its keys
    among those under the second, so have the tables of every reachable
    state. *)
Lemma unicast_within_all (s : State) :
  (∀ t p, dom (Peer_Routes t p None true).2 ⊆
          dom (Peer_Routes t p None false).2) →
  reachable s →
  dom (unicast (routes s)) ⊆ dom (unicastAll (routes s)) ∧
  (∀ tb k, pc s = PReplace tb k →
           dom (t_unicast tb) ⊆ dom (t_unicastAll tb)).
Proof.
  intros Hall Hs. reachable_induction Hs.
  - simpl. split; [done|]. intros ? ?. done.
  - destruct IH as (Iu & Ir).
    step_cases Hstep; simpl in *.
    all: try match goal with
         | |- context [Recalculate ?r] =>
             unfold Recalculate; destruct (recalculate r) eqn:E; simpl
         end.
    all: try match goal with ptr : BroadcastPtr |- _ => destruct ptr; simpl end.
    all: split_and!; eauto; try done.
    all: try (by apply (Ir _ _ eq_refl)).
    all: try (intros ? ? [= <- <-]; simpl; unfold calculateUnicast; eauto; fail).
    all: destruct k; simpl; intros; break; simplify_eq/=.
Qed.

End self_entries.

(** ** Recalculation and the lazy fill, step by step *)

Section recalculation.

Context {PeerName : Type} `{Countable PeerName} `{!Collaborators PeerName}.

Lemma callbacks_of_app (tr1 tr2 : list Event) :
  callbacks_of (tr1 ++ tr2) = callbacks_of tr1 ++ callbacks_of tr2.
Proof. apply omap_app. Qed.

Lemma registered_app (ls1 ls2 : list Label) :
  registered (ls1 ++ ls2) = registered ls1 ++ registered ls2.
Proof. apply omap_app. Qed.

Lemma count_calculate_app (tr1 tr2 : list Event) :
  count_calculate (tr1 ++ tr2) = count_calculate tr1 + count_calculate tr2.
Proof.
  unfold count_calculate. induction tr1 as [|ev tr1 IH]; [done|].
  simpl. rewrite !filter_cons. destruct (decide (is_calculate ev)); simpl; lia.
Qed.

Lemma count_calculate_cons (ev : Event) (tr : list Event) :
  count_calculate (ev :: tr) =
  (if is_calculate ev then 1 else 0) + count_calculate tr.
Proof.
  unfold count_calculate. rewrite filter_cons.
  destruct (is_calculate ev); simpl; done.
Qed.

Lemma count_run_cons (l : Label) (ls : list Label) :
  count_run (l :: ls) = (if is_run l then 1 else 0) + count_run ls.
Proof.
  unfold count_run. rewrite filter_cons. destruct (is_run l); simpl; done.
Qed.

(** What a transition of the environment can change: the topology, the
    callback list (by appending), the signal, the blocked callers, and the
    trace by a fast-path return. *)
Lemma env_step (l : Label) (s s' : State) :
  env_label l = true → step l s = Some s' →
  pc s' = pc s ∧ tables (routes s') = tables (routes s) ∧
  ourself (routes s') = ourself (routes s) ∧
  peers (routes s') = peers (routes s) ∧
  onChange (routes s') = onChange (routes s) ++ registered [l] ∧
  ∃ new, trace s' = new ++ trace s ∧ callbacks_of new = [] ∧
         count_calculate new = 0.
Proof.
  intros Hl Hstep. unfold tables in *.
  step_cases Hstep; simpl in *; rewrite ?app_nil_r; split_and!; try done.
  all: try (by exists []).
  all: try (by eexists [_]).
  all: unfold Recalculate; by destruct (recalculate r).
Qed.

Lemma env_exec (ls : list Label) (s s' : State) :
  env_only ls → exec ls s = Some s' →
  pc s' = pc s ∧ tables (routes s') = tables (routes s) ∧
  ourself (routes s') = ourself (routes s) ∧
  peers (routes s') = peers (routes s) ∧
  onChange (routes s') = onChange (routes s) ++ registered ls ∧
  ∃ new, trace s' = new ++ trace s ∧ callbacks_of new = [] ∧
         count_calculate new = 0.
Proof.
  revert s. induction ls as [|l ls IH]; intros s Hls Hexec.
  - simpl in Hexec. injection Hexec as <-. simpl. rewrite app_nil_r.
    split_and!; try done. by exists [].
  - apply exec_cons_Some in Hexec as (s1 & Hstep & Hexec).
    apply env_step in Hstep
      as (Hp & Ht & Ho & Hps & Hc & new1 & Hn1 & Hcb1 & Hcc1);
      [|apply Hls; by left].
    apply IH in Hexec
      as (Hp' & Ht' & Ho' & Hps' & Hc' & new2 & Hn2 & Hcb2 & Hcc2);
      [|intros x Hx; apply Hls; by right].
    split_and!; try congruence.
    + rewrite Hc', Hc, <- app_assoc. f_equal.
      change (l :: ls) with ([l] ++ ls). by rewrite registered_app.
    + exists (new2 ++ new1). rewrite Hn2, Hn1, app_assoc.
      by rewrite callbacks_of_app, count_calculate_app, Hcb1, Hcb2, Hcc1, Hcc2.
Qed.

(** Once the tables are replaced, the serializer invokes the callbacks of
    its snapshot one by one, in order, whatever the environment does in
    between; nothing else changes but what the environment changes. *)
Lemma callbacks_fire (sch : list Label) (s s' : State)
    (cbs : list Callback) (k : Cont) :
  pc s = PCallbacks cbs k → runs_on sch → count_run sch = length cbs →
  exec sch s = Some s' →
  pc s' = PCallbacks [] k ∧ tables (routes s') = tables (routes s) ∧
  ourself (routes s') = ourself (routes s) ∧
  peers (routes s') = peers (routes s) ∧
  onChange (routes s') = onChange (routes s) ++ registered sch ∧
  ∃ new, trace s' = new ++ trace s ∧ callbacks_of new = rev cbs ∧
         count_calculate new = 0.
Proof.
  revert s cbs. induction sch as [|l sch IH]; intros s cbs Hpc Hsch Hn Hexec.
  - simpl in Hexec. injection Hexec as <-. destruct cbs; [|done].
    simpl. rewrite app_nil_r. split_and!; try done. by exists [].
  - apply exec_cons_Some in Hexec as (s1 & Hstep & Hexec).
    assert (runs_on sch) as Hsch' by (intros x Hx; apply Hsch; by right).
    rewrite count_run_cons in Hn.
    destruct (Hsch l) as [Hl| ->]; [by left|..].
    + apply env_step in Hstep
        as (Hp & Ht & Ho & Hps & Hc & new1 & Hn1 & Hcb1 & Hcc1); [|done].
      assert (is_run l = false) as Hr by by destruct l.
      rewrite Hr in Hn. simpl in Hn.
      eapply (IH _ cbs) in Hexec
        as (Hp' & Ht' & Ho' & Hps' & Hc' & new2 & Hn2 & Hcb2 & Hcc2);
        [|by rewrite Hp|done|done].
      split_and!; try congruence.
      * rewrite Hc', Hc, <- app_assoc. f_equal.
        change (l :: sch) with ([l] ++ sch). by rewrite registered_app.
      * exists (new2 ++ new1). rewrite Hn2, Hn1, app_assoc.
        rewrite callbacks_of_app, count_calculate_app, Hcb1, Hcb2, Hcc1, Hcc2.
        by rewrite app_nil_r.
    + simpl in Hn. destruct cbs as [|cb cbs]; [done|].
      simpl in Hstep. unfold run in Hstep. rewrite Hpc in Hstep.
      injection Hstep as <-. simpl in Hn.
      eapply (IH _ cbs) in Hexec
        as (Hp' & Ht' & Ho' & Hps' & Hc' & new2 & Hn2 & Hcb2 & Hcc2);
        [|done|done|lia].
      simpl in *. split_and!; try done.
      exists (new2 ++ [EvCallback cb]). rewrite Hn2, <- app_assoc.
      rewrite callbacks_of_app, count_calculate_app, Hcb2, Hcc2. done.
Qed.

(** The callback loop of [calculate] changes neither the [Routes] value nor
    the locks held, and logs one invocation per callback, in order. *)
Lemma invoke_all (cbs : list Callback) (g : Goroutine) :
  foldl (λ g callback, access (AInvoke callback) g) g cbs =
  mkGoroutine (g_routes g) (g_held g)
    (g_log g ++ ((λ callback, (AInvoke callback, g_held g)) <$> cbs)).
Proof.
  revert g. induction cbs as [|cb cbs IH]; intros g; simpl.
  - rewrite app_nil_r. by destruct g.
  - rewrite IH. simpl. by rewrite <- app_assoc.
Qed.

(** C6.  Wholesale replacement and callback discipline.
    - In the transition system.  From the entry of [calculate], whatever
      the environment does in between: until the serializer replaces the
      tables, the four tables are the old ones; the one transition that
      replaces them installs four freshly derived tables, namely the two
      next-hop tables that [Peer.Routes] computes from the local peer on
      the topology read at the derivation, under each filter, and two
      broadcast tables whose only entry is the local peer's, holding what
      [calculateBroadcast] computes for it on that topology: every entry
      the lazy fill had stored is gone.  After that transition the
      serializer invokes the callbacks registered at the replacement, all
      of them, in registration order, and the tables stay as installed.
    - Statement by statement.  Called with no lock held, [calculate]
      returns with no lock held; it derives the tables holding the read
      locks of the local peer and of the peer directory, replaces them
      holding the write lock of [Routes], and invokes every callback of its
      snapshot, in registration order, each with no lock held.  The
      [Routes] value it leaves is the one the transition system
      installs.
    - The closure of the lazy fill invokes no callback. *)
Theorem recalculation_replaces_and_notifies :
  (∀ (s sb s2 s' : State) (k : Cont) (env1 sch : list Label),
     pc s = PCalculate k →
     env_only env1 → exec (LRun :: env1) s = Some sb →
     step LRun sb = Some s2 →
     runs_on sch → count_run sch = length (onChange (routes sb)) →
     exec sch s2 = Some s' →
     let o := ourself (routes s) in
     tables (routes sb) = tables (routes s) ∧
     (unicast (routes s2) = (Peer_Routes (topology s) o None true).2 ∧
      unicastAll (routes s2) = (Peer_Routes (topology s) o None false).2 ∧
      broadcast (routes s2) =
        {[ Name o := calculateBroadcast (topology s) (routes s) (Name o)
                       true ]} ∧
      broadcastAll (routes s2) =
        {[ Name o := calculateBroadcast (topology s) (routes s) (Name o)
                       false ]}) ∧
     trace s2 = EvReplace (onChange (routes sb)) :: trace sb ∧
     tables (routes s') = tables (routes s2) ∧
     (∃ new, trace s' = new ++ trace s2 ∧
             callbacks_of new = rev (onChange (routes sb))) ∧
     pc s' = PCallbacks [] k) ∧
  (∀ (t : Topology) (r : Routes),
     ∃ g, calculate t (mkGoroutine r [] []) = Some g ∧
       g_routes g =
         mkRoutes (ourself r) (peers r) (onChange r)
           (Peer_Routes t (ourself r) None true).2
           (Peer_Routes t (ourself r) None false).2
           {[ Name (ourself r) :=
                calculateBroadcast t r (Name (ourself r)) true ]}
           {[ Name (ourself r) :=
                calculateBroadcast t r (Name (ourself r)) false ]}
           (recalculate r) ∧
       g_held g = [] ∧
       g_log g =
         (ADerive, [HRead MuOurself; HRead MuPeers]) ::
         (AReplace, [HWrite MuRoutes]) ::
         ((λ callback, (AInvoke callback, [])) <$> onChange r)) ∧
  (∀ s s' : State,
     in_action (pc s) = true → run s = Some s' →
     callbacks_of (trace s') = callbacks_of (trace s)).
Proof.
  split_and!.
  - intros s sb s2 s' k env1 sch Hpc Henv1 Hexec1 Hstep2 Hsch Hn Hexec2 o.
    apply exec_cons_Some in Hexec1 as (s1 & Hstep1 & Hexec1).
    simpl in Hstep1. unfold run in Hstep1. rewrite Hpc in Hstep1.
    injection Hstep1 as <-.
    apply env_exec in Hexec1 as (Hp1 & Ht1 & Ho1 & Hps1 & Hc1 & _); [|done].
    simpl in Hp1, Ht1, Ho1, Hps1, Hc1.
    simpl in Hstep2. unfold run in Hstep2. rewrite Hp1 in Hstep2.
    injection Hstep2 as <-.
    eapply callbacks_fire in Hexec2
      as (Hp2 & Ht2 & Ho2 & Hps2 & Hc2 & new & Hn2 & Hcb2 & _);
      [|done|done|done].
    simpl in Hn2. split_and!; try done.
    by exists new.
  - intros t r. unfold calculate, RLock, RUnlock, Lock, Unlock. simpl.
    eexists. split; [reflexivity|]. rewrite invoke_all. done.
  - intros s s' Hpc Hrun. unfold run in Hrun.
    destruct (pc s); simpl in Hpc; try done;
      repeat case_match; by simplify_eq/=.
Qed.

(** No transition changes the handles, and only [OnChange] changes the
    callback list. *)
Lemma step_frame (l : Label) (s s' : State) :
  step l s = Some s' →
  onChange (routes s') = onChange (routes s) ++ registered [l] ∧
  ourself (routes s') = ourself (routes s) ∧
  peers (routes s') = peers (routes s).
Proof.
  intros Hstep.
  step_cases Hstep; simpl in *; rewrite ?app_nil_r; split_and!; try done.
  all: try (unfold Recalculate; by destruct (recalculate r)).
  all: match goal with ptr : BroadcastPtr |- _ => by destruct ptr end.
Qed.

Lemma exec_frame (ls : list Label) (s s' : State) :
  exec ls s = Some s' →
  onChange (routes s') = onChange (routes s) ++ registered ls ∧
  ourself (routes s') = ourself (routes s) ∧
  peers (routes s') = peers (routes s).
Proof.
  revert s. induction ls as [|l ls IH]; intros s Hexec.
  - simpl in Hexec. injection Hexec as <-. simpl. by rewrite app_nil_r.
  - apply exec_cons_Some in Hexec as (s1 & Hstep & Hexec).
    apply step_frame in Hstep as (Hc & Ho & Hps).
    apply IH in Hexec as (Hc' & Ho' & Hps').
    split_and!; try congruence.
    rewrite Hc', Hc, <- app_assoc. f_equal.
    change (l :: ls) with ([l] ++ ls). by rewrite registered_app.
Qed.

(** C9.  Frame of the recalculation: the serializer never changes the
    callback list, the local-peer handle, the peers handle or the
    topology; and the callbacks a recalculation invokes are those
    registered before its snapshot, in registration order, also when
    further callbacks are registered while it invokes them. *)
Theorem recalculation_frame :
  (∀ (l : Label) (s s' : State),
     env_label l = false → step l s = Some s' →
     onChange (routes s') = onChange (routes s) ∧
     ourself (routes s') = ourself (routes s) ∧
     peers (routes s') = peers (routes s) ∧
     topology s' = topology s) ∧
  (∀ (o : Peer) (ps : Peers) (t : Topology) (ls sch : list Label)
     (sb s' : State) (tb : Tables) (k : Cont),
     exec ls (NewState o ps t) = Some sb → pc sb = PReplace tb k →
     runs_on sch → count_run sch = length (registered ls) →
     exec (LRun :: sch) sb = Some s' →
     (∃ new, trace s' = new ++ EvReplace (registered ls) :: trace sb ∧
             callbacks_of new = rev (registered ls)) ∧
     ourself (routes s') = o ∧ peers (routes s') = ps ∧
     onChange (routes s') = registered ls ++ registered sch).
Proof.
  split.
  - intros l s s' Hl Hstep.
    destruct (step_frame _ _ _ Hstep) as (Hc & Ho & Hps).
    split_and!; try done.
    + rewrite Hc. destruct l; try done; simpl; by rewrite app_nil_r.
    + step_cases Hstep; by simpl in *.
  - intros o ps t ls sch sb s' tb k Hls Hpc Hsch Hn Hexec.
    apply exec_frame in Hls as (Hc & Ho & Hps). simpl in Hc, Ho, Hps.
    apply exec_cons_Some in Hexec as (s2 & Hstep & Hexec).
    simpl in Hstep. unfold run in Hstep. rewrite Hpc in Hstep.
    injection Hstep as <-. rewrite Hc in Hexec.
    eapply callbacks_fire in Hexec
      as (Hp2 & Ht2 & Ho2 & Hps2 & Hc2 & new & Hn2 & Hcb2 & _);
      [|done|done|done].
    simpl in *. split_and!; try congruence.
    by exists new.
Qed.

(** C10.  The lazy fill stores exactly what it returned.  From the control
    point where the closure is about to call [calculateBroadcast], whatever
    the environment does in between: the value computed is sent to the
    caller while the table still has no entry for the name; the next
    statement stores that same value; and from then on the fast path of any
    caller returns it. *)
Theorem lazy_fill_stores_reply (s s1 s2 s3 : State) (c : nat) (X : PeerName)
    (ptr : BroadcastPtr) (e : bool) (env1 env2 : list Label) :
  reachable s → pc s = PCompute c X ptr e →
  env_only env1 → exec (LRun :: env1) s = Some s1 →
  env_only env2 → exec (LRun :: env2) s1 = Some s2 →
  run s2 = Some s3 →
  let hops := calculateBroadcast (topology s) (routes s) X e in
  (∃ new1 new2,
     trace s2 = new2 ++ EvReturn c ptr X hops :: new1 ++
                EvCalculateBroadcast ptr X hops :: trace s) ∧
  deref ptr (routes s2) !! X = None ∧
  trace s3 = EvStore ptr X hops :: trace s2 ∧
  deref ptr (routes s3) !! X = Some hops ∧
  (∀ c' e', callers s3 !! c' = None →
     lookupOrCalculate c' X ptr e' s3 =
     Some (emit (EvReturn c' ptr X hops) s3)).
Proof.
  intros Hs Hpc Henv1 Hexec1 Henv2 Hexec2 Hrun hops.
  destruct (coherent_reachable s Hs) as (_ & _ & I3 & _).
  specialize (I3 _ _ _ _ Hpc).
  apply exec_cons_Some in Hexec1 as (sa & Hstep1 & Hexec1).
  apply exec_cons_Some in Hexec2 as (sb & Hstep2 & Hexec2).
  simpl in Hstep1. unfold run in Hstep1. rewrite Hpc in Hstep1.
  injection Hstep1 as <-.
  apply env_exec in Hexec1 as (Hp1 & Ht1 & _ & _ & _ & new1 & Hn1 & _);
    [|done].
  simpl in Hp1, Ht1, Hn1.
  simpl in Hstep2. unfold run in Hstep2. rewrite Hp1 in Hstep2.
  injection Hstep2 as <-.
  apply env_exec in Hexec2 as (Hp2 & Ht2 & _ & _ & _ & new2 & Hn2 & _);
    [|done].
  simpl in Hp2, Ht2, Hn2.
  unfold run in Hrun. rewrite Hp2 in Hrun. injection Hrun as <-.
  assert (deref ptr (routes s2) = deref ptr (routes s)) as Hd.
  { unfold tables in Ht1, Ht2.
    destruct ptr; simpl; congruence. }
  simpl. fold hops. split_and!.
  - exists new1, new2. by rewrite Hn2, Hn1.
  - by rewrite Hd.
  - done.
  - rewrite deref_store, decide_True by done. apply lookup_insert_eq.
  - intros c' e' Hc'. unfold lookupOrCalculate. simpl. rewrite Hc'.
    by rewrite deref_store, decide_True, lookup_insert_eq.
Qed.

End recalculation.

(** ** The neighbour sampler and unknown peers *)

Section sampler.

Context {PeerName : Type} `{Countable PeerName} `{!Collaborators PeerName}.

Lemma size_add (x : PeerName) (X : gset PeerName) :
  size ({[ x ]} ∪ X) ≤ S (size X).
Proof.
  rewrite size_union_alt, size_singleton.
  assert (size (X ∖ {[ x ]}) ≤ size X) by (apply subseteq_size; set_solver).
  lia.
Qed.

(** The loop only collects next hops that are neither the unknown name nor
    the excluded one. *)
Lemma RandomNeighbours_loop_subset (count : Z) (except : PeerName)
    (entries : list (PeerName * PeerName)) (destinations : gset PeerName) :
  RandomNeighbours_loop count except entries destinations ⊆
  destinations ∪
  list_to_set (filter (λ dst, dst ≠ UnknownPeerName ∧ dst ≠ except)
                 (entries.*2)).
Proof.
  revert destinations.
  induction entries as [|[k dst] entries IH]; intros destinations; simpl.
  - set_solver.
  - rewrite filter_cons. simpl. case_decide.
    + case_decide; [set_solver|]. etrans; [apply IH|]. set_solver.
    + etrans; [apply IH|]. set_solver.
Qed.

(** The loop stops as soon as it holds [count] destinations; the test comes
    after the insertion, so it holds one destination when [count] is not
    positive. *)
Lemma RandomNeighbours_loop_size (count : Z) (except : PeerName)
    (entries : list (PeerName * PeerName)) (destinations : gset PeerName) :
  (Z.of_nat (size destinations) ≤ Z.max (count - 1) 0)%Z →
  (Z.of_nat (size (RandomNeighbours_loop count except entries destinations))
   ≤ Z.max count 1)%Z.
Proof.
  revert destinations.
  induction entries as [|[k dst] entries IH]; intros destinations Hsize; simpl.
  - lia.
  - case_decide; [|by apply IH].
    pose proof (size_add dst destinations). case_decide; [lia|].
    apply IH. lia.
Qed.

Lemma eligible_permutation (m : gmap PeerName PeerName) (except : PeerName)
    (entries : list (PeerName * PeerName)) :
  entries ≡ₚ map_to_list m →
  list_to_set (filter (λ dst, dst ≠ UnknownPeerName ∧ dst ≠ except)
                 (entries.*2)) = eligible m except.
Proof.
  intros Hperm. unfold eligible. apply set_eq. intros x.
  rewrite !elem_of_list_to_set, !list_elem_of_filter, !list_elem_of_fmap.
  by setoid_rewrite Hperm.
Qed.

(** A table that only holds the local peer's entry offers nothing. *)
Lemma eligible_alone (m : gmap PeerName PeerName) (self except : PeerName) :
  m !! self = Some UnknownPeerName → size m ≤ 1 →
  eligible m except = ∅.
Proof.
  intros Hself Hsize.
  assert (m = {[ self := UnknownPeerName ]}) as ->.
  { rewrite <- (insert_delete_id m self UnknownPeerName) by done.
    assert (delete self m = ∅) as ->; [|done].
    apply map_size_empty_inv. rewrite map_size_delete_Some by eauto. lia. }
  unfold eligible. rewrite map_to_list_singleton. simpl.
  rewrite filter_cons_False; [done|]. intros [? _]. done.
Qed.

(** C5.  Sampler bound.  For a table that holds the local peer's entry
    (invariant I1), whatever order the map iteration yields the entries in
    and whatever order the result is collected in: the result has no
    duplicate, at most [min (floor (log2 peerCount)) distinctNeighbours]
    names, and none of them is the excluded name or the unknown name. *)
Theorem sampler_bound (r : Routes) (except : PeerName)
    (entries : list (PeerName * PeerName)) (res : list PeerName) :
  unicastAll r !! Name (ourself r) = Some UnknownPeerName →
  entries ≡ₚ map_to_list (unicastAll r) →
  res ≡ₚ RandomNeighbours r except entries →
  NoDup res ∧
  (0 ≤ Z.of_nat (length res) ≤
     Z.min (log2_count (size (unicastAll r)))
           (Z.of_nat (size (eligible (unicastAll r) except))))%Z ∧
  (∀ x, x ∈ res →
        x ≠ except ∧ x ≠ UnknownPeerName ∧
        x ∈ eligible (unicastAll r) except).
Proof.
  intros Hself Hperm Hres. unfold RandomNeighbours in Hres.
  set (count := log2_count (size (unicastAll r))) in *.
  set (found := RandomNeighbours_loop count except entries ∅) in *.
  assert (found ⊆ eligible (unicastAll r) except) as Hsub.
  { rewrite <- (eligible_permutation _ _ entries) by done.
    etrans; [apply RandomNeighbours_loop_subset|]. set_solver. }
  assert (length res = size found) as Hlen.
  { rewrite Hres. done. }
  split_and!.
  - rewrite Hres. apply NoDup_elements.
  - lia.
  - rewrite Hlen. apply Z.min_glb.
    + pose proof (RandomNeighbours_loop_size count except entries ∅) as Hsz.
      rewrite size_empty in Hsz. fold found in Hsz.
      pose proof (Z.log2_nonneg (Z.of_nat (size (unicastAll r)))) as Hnn.
      fold (log2_count (size (unicastAll r))) in Hnn. fold count in Hnn.
      destruct (decide (count = 0)%Z) as [Hzero|Hpos]; [|lia].
      assert (eligible (unicastAll r) except = ∅) as Hnone.
      { eapply eligible_alone; [done|]. unfold count, log2_count in Hzero.
        apply Z.log2_null in Hzero. lia. }
      rewrite Hnone in Hsub. apply subseteq_size in Hsub.
      rewrite size_empty in Hsub. lia.
    + apply subseteq_size in Hsub. lia.
  - intros x Hx. rewrite Hres in Hx. apply elem_of_elements in Hx.
    apply Hsub in Hx as Hel. split_and!; [| |done].
    + unfold eligible in Hel. apply elem_of_list_to_set in Hel.
      apply list_elem_of_filter in Hel as [[_ ?] _]. done.
    + unfold eligible in Hel. apply elem_of_list_to_set in Hel.
      apply list_elem_of_filter in Hel as [[? _] _]. done.
Qed.

(** X2.  The same without the invariant: on any table the sampler returns
    at most [max 1 (floor (log2 peerCount))] names, since it tests the size
    after the insertion. *)
Theorem sampler_bound_any_table (r : Routes) (except : PeerName)
    (entries : list (PeerName * PeerName)) (res : list PeerName) :
  entries ≡ₚ map_to_list (unicastAll r) →
  res ≡ₚ RandomNeighbours r except entries →
  NoDup res ∧
  (Z.of_nat (length res) ≤
     Z.min (Z.max 1 (log2_count (size (unicastAll r))))
           (Z.of_nat (size (eligible (unicastAll r) except))))%Z ∧
  (∀ x, x ∈ res → x ≠ except ∧ x ≠ UnknownPeerName).
Proof.
  intros Hperm Hres. unfold RandomNeighbours in Hres.
  set (count := log2_count (size (unicastAll r))) in *.
  set (found := RandomNeighbours_loop count except entries ∅) in *.
  assert (found ⊆ eligible (unicastAll r) except) as Hsub.
  { rewrite <- (eligible_permutation _ _ entries) by done.
    etrans; [apply RandomNeighbours_loop_subset|]. set_solver. }
  assert (length res = size found) as Hlen.
  { rewrite Hres. done. }
  split_and!.
  - rewrite Hres. apply NoDup_elements.
  - rewrite Hlen. apply Z.min_glb.
    + pose proof (RandomNeighbours_loop_size count except entries ∅) as Hsz.
      rewrite size_empty in Hsz. fold found in Hsz. lia.
    + apply subseteq_size in Hsub. lia.
  - intros x Hx. rewrite Hres in Hx. apply elem_of_elements in Hx.
    apply Hsub in Hx as Hel.
    unfold eligible in Hel. apply elem_of_list_to_set in Hel.
    apply list_elem_of_filter in Hel as [[? ?] _]. done.
Qed.

(** C4.  Unknown peers never make an operation fail.  A name with
    no entry in a unicast table is reported as not found.  For a name the
    peer directory does not hold, [calculateBroadcast] returns the empty
    list, so the closure of a [Broadcast]/[BroadcastAll] call that missed
    the cache, run while the directory does not hold the name, replies with
    the empty list; a cached entry is returned as it is, whatever the
    directory holds.  Every call of a caller that is not blocked is
    accepted, and the serializer always has a next statement away from its
    select. *)
Theorem unknown_peers_total :
  (∀ (r : Routes) (X : PeerName),
     (unicast r !! X = None → Unicast r X = (zeroPeerName, false)) ∧
     (unicastAll r !! X = None → UnicastAll r X = (zeroPeerName, false))) ∧
  (∀ (t : Topology) (r : Routes) (X : PeerName) (e : bool),
     byName t (peers r) X = None → calculateBroadcast t r X e = []) ∧
  (∀ (s : State) (c : nat) (X : PeerName) (ptr : BroadcastPtr) (e : bool),
     pc s = PCompute c X ptr e →
     byName (topology s) (peers (routes s)) X = None →
     ∃ s1 s2, run s = Some s1 ∧ run s1 = Some s2 ∧
              trace s2 = EvReturn c ptr X [] ::
                         EvCalculateBroadcast ptr X [] :: trace s) ∧
  (∀ (s : State) (c : nat) (X : PeerName) (ptr : BroadcastPtr) (e : bool)
     (hops : list PeerName),
     callers s !! c = None → deref ptr (routes s) !! X = Some hops →
     lookupOrCalculate c X ptr e s = Some (emit (EvReturn c ptr X hops) s)) ∧
  (∀ (s : State) (c : nat) (X : PeerName),
     callers s !! c = None →
     is_Some (Broadcast c X s) ∧ is_Some (BroadcastAll c X s)) ∧
  (∀ s : State, pc s ≠ PSelect → is_Some (run s)).
Proof.
  split_and!.
  - intros r X. unfold Unicast, UnicastAll, comma_ok.
    split; by intros ->.
  - intros t r X e Hnone. unfold calculateBroadcast. by rewrite Hnone.
  - intros s c X ptr e Hpc Hnone. unfold run. rewrite Hpc. simpl.
    unfold calculateBroadcast. rewrite Hnone. eauto.
  - intros s c X ptr e hops Hc Hhit. unfold lookupOrCalculate.
    by rewrite Hc, Hhit.
  - intros s c X Hc. unfold Broadcast, BroadcastAll, lookupOrCalculate.
    rewrite Hc. split; case_match; eauto.
  - intros s Hpc. unfold run. destruct (pc s); try done;
      repeat case_match; eauto.
Qed.

End sampler.

(** ** Coalescing of recalculation requests and the barrier *)

Section barrier.

Context {PeerName : Type} `{Countable PeerName} `{!Collaborators PeerName}.

(** Transitions of the environment other than [Recalculate] keep the
    phase. *)
Lemma phase_env (c : nat) (l : Label) (s s' : State) (new tr0 : list Event) :
  phase c s new → trace s = new ++ tr0 →
  env_label l = true → is_Recalculate l = false → step l s = Some s' →
  ∃ new', trace s' = new' ++ tr0 ∧ phase c s' new'.
Proof.
  intros Hphase Htr Hl Hr Hstep. unfold phase in *.
  destruct (stage_at_done c new) as [st|] eqn:Hdone.
  - step_cases Hstep; simpl in *; try done.
    all: try (exists new; split; [done|]; by rewrite Hdone).
    all: eexists (_ :: new); split; [reflexivity|].
    all: simpl; rewrite Hdone, ?count_calculate_cons; try by simpl.
    all: match goal with ptr : BroadcastPtr |- _ => by destruct ptr end.
  - assert (is_Some (callers s !! c)) as [w Hw].
    { destruct (callers s !! c); [by eauto|].
      unfold phase_of, awaiting in Hphase.
      destruct (stage new); break; congruence. }
    step_cases Hstep; simpl in *; try done.
    all: try (exists new; split; [done|]).
    all: try (eexists (_ :: new); split; [reflexivity|]).
    all: simpl; rewrite ?Hdone, ?count_calculate_cons; simpl.
    all: try (rewrite lookup_insert_ne by congruence).
    all: try done.
    all: destruct (stage new); by simplify_eq.
Qed.

(** Transitions of the serializer move the phase forward. *)
Lemma phase_serializer (c : nat) (l : Label) (s s' : State)
    (new tr0 : list Event) :
  served s → phase c s new → trace s = new ++ tr0 →
  env_label l = false → step l s = Some s' →
  ∃ new', trace s' = new' ++ tr0 ∧ phase c s' new'.
Proof.
  intros Hserved Hphase Htr Hl Hstep. unfold phase, served in *.
  destruct (stage_at_done c new) as [st|] eqn:Hdone.
  - destruct Hphase as (Hsnap & Hsig & Hn).
    step_cases Hstep; simpl in *; try done; try congruence.
    all: try (exists new; split; [done|]; by rewrite Hdone).
    all: eexists (_ :: new); split; [reflexivity|].
    all: simpl; rewrite Hdone, ?count_calculate_cons; try by simpl.
    all: match goal with ptr : BroadcastPtr |- _ => by destruct ptr end.
  - assert (is_Some (callers s !! c)) as [w Hw].
    { destruct (callers s !! c); [by eauto|].
      unfold phase_of, awaiting in Hphase.
      destruct (stage new); break; congruence. }
    step_cases Hstep; simpl in *; try done.
    all: try (exists new; split; [done|]).
    all: try (eexists (_ :: new); split; [reflexivity|]).
    all: simpl; rewrite ?Hdone, ?count_calculate_cons; simpl.
    all: try (specialize (Hserved _ _ eq_refl)).
    all: unfold awaiting in *.
    all: destruct (stage new) eqn:Hstage; simpl in *.
    all: break; simplify_eq/=.
    all: rewrite ?lookup_insert_eq, ?lookup_delete_eq.
    all: try match goal with ptr : BroadcastPtr |- _ => destruct ptr; simpl end.
    all: try (split_and!; try done; eauto 6; fail).
    all: try match goal with
         | |- context [decide (?a = ?b)] =>
             destruct (decide (a = b)); simplify_eq/=
         | |- context [<[?a := _]> _ !! ?b] =>
             destruct (decide (a = b)); simplify_eq/=
         | |- context [delete ?a _ !! ?b] =>
             destruct (decide (a = b)); simplify_eq/=
         end.
    all: rewrite ?lookup_insert_eq, ?lookup_delete_eq.
    all: try rewrite lookup_insert_ne by done.
    all: try rewrite lookup_delete_ne by done.
    all: unfold phase_of, awaiting; simpl.
    all: try (split_and!; try done; eauto 8; fail).
    all: rewrite ?app_nil_r in *; rewrite <- ?app_assoc; simpl.
    all: try (split_and!; try done; eauto 8; fail).
    all: split_and!; try done; left; eexists _, _.
    all: split_and!; [done|by rewrite <- app_assoc|eauto].
Qed.

Lemma phase_exec (c : nat) (sch : list Label) (s s' : State)
    (new tr0 : list Event) :
  reachable s → phase c s new → trace s = new ++ tr0 →
  (∀ l, l ∈ sch → is_Recalculate l = false) →
  exec sch s = Some s' →
  ∃ new', trace s' = new' ++ tr0 ∧ phase c s' new'.
Proof.
  revert s new. induction sch as [|l sch IH]; intros s new Hs Hph Htr Hno Hexec.
  - simpl in Hexec. injection Hexec as <-. eauto.
  - apply exec_cons_Some in Hexec as (s1 & Hstep & Hexec).
    assert (∃ new1, trace s1 = new1 ++ tr0 ∧ phase c s1 new1)
      as (new1 & Htr1 & Hph1).
    { destruct (env_label l) eqn:Hl.
      - eapply phase_env; eauto. apply Hno. by left.
      - eapply phase_serializer; eauto. by apply served_reachable. }
    eapply (IH s1 new1); [by eapply reachable_step|done|done| |done].
    intros x Hx. apply Hno. by right.
Qed.

(** Any number of [Recalculate] calls in a row leaves the state one call
    leaves. *)
Lemma Recalculate_burst (n : nat) (s : State) :
  1 ≤ n → exec (replicate n LRecalculate) s = step LRecalculate s.
Proof.
  intros Hn. destruct n as [|n]; [lia|]. clear Hn. revert s.
  induction n as [|n IH]; intros s; [done|].
  change (exec (replicate (S (S n)) LRecalculate) s)
    with (exec (replicate (S n) LRecalculate)
            (with_routes (Recalculate (routes s)) s)).
  rewrite IH. simpl. f_equal. unfold with_routes, Recalculate. simpl.
  destruct (recalculate (routes s)) eqn:E; simpl; by rewrite ?E.
Qed.

Lemma stage_called_split (tr : list Event) :
  stage tr = SCalled → ∃ mid pre, tr = mid ++ EvCalculate :: pre.
Proof.
  induction tr as [|ev tr IH]; [done|]. simpl.
  destruct (stage tr) eqn:Hst.
  - destruct ev; simpl; try done. intros _. by exists [], tr.
  - intros _. destruct IH as (mid & pre & ->); [done|].
    by exists (ev :: mid), pre.
  - by destruct ev.
Qed.

Lemma stage_replaced_split (tr : list Event) (snapshot fired : list Callback) :
  stage tr = SReplaced snapshot fired →
  ∃ mid2 mid1 pre,
    tr = mid2 ++ EvReplace snapshot :: mid1 ++ EvCalculate :: pre ∧
    callbacks_of mid2 = rev fired.
Proof.
  revert snapshot fired. induction tr as [|ev tr IH]; [done|].
  intros snapshot fired. simpl. destruct (stage tr) eqn:Hst.
  - by destruct ev.
  - destruct (stage_called_split tr Hst) as (mid1 & pre & ->).
    destruct ev; simpl; try done. intros [= -> <-].
    by exists [], mid1, pre.
  - destruct (IH _ _ eq_refl) as (mid2 & mid1 & pre & -> & Hcb).
    destruct ev; simpl; intros [= <- <-];
      eexists (_ :: mid2), mid1, pre; (split; [reflexivity|]); simpl;
      try done.
    by rewrite rev_app_distr, Hcb.
Qed.

Lemma stage_at_done_Some (c : nat) (new : list Event) (st : Stage) :
  stage_at_done c new = Some st →
  ∃ post older, new = post ++ EvDone c :: older ∧ st = stage older.
Proof.
  induction new as [|ev new IH]; [done|]. simpl.
  destruct (stage_at_done c new) as [st'|].
  - intros [= <-]. destruct (IH eq_refl) as (post & older & -> & ->).
    by exists (ev :: post), older.
  - destruct ev; try done. case_decide; [|done]. subst.
    intros [= <-]. by exists [], new.
Qed.

Lemma stage_at_done_None (c : nat) (new : list Event) :
  stage_at_done c new = None → EvDone c ∉ new.
Proof.
  induction new as [|ev new IH]; simpl.
  - intros _. apply not_elem_of_nil.
  - destruct (stage_at_done c new); [done|]. intros Hev.
    apply not_elem_of_cons. split; [|by apply IH].
    intros <-. by rewrite decide_True in Hev.
Qed.

(** An uninterrupted burst followed by the barrier: [n >= 1] calls of
    [Recalculate] in a row, then a call of [EnsureRecalculated] by [c], then
    any schedule in which nobody calls [Recalculate].  The [n] calls leave
    the state that one call leaves, [calculate] is called at most once, and
    if [done] is closed for [c], then before that, and after the burst,
    [calculate] was called, replaced the tables and invoked every callback
    of its snapshot, in order. *)
Lemma burst_then_barrier (s0 s' : State) (n c : nat)
    (sch : list Label) :
  reachable s0 → 1 ≤ n →
  (∀ l, l ∈ sch → is_Recalculate l = false) →
  exec (replicate n LRecalculate ++ LEnsureRecalculated c :: sch) s0
    = Some s' →
  exec (replicate n LRecalculate) s0 = step LRecalculate s0 ∧
  ∃ new,
    trace s' = new ++ trace s0 ∧
    count_calculate new ≤ 1 ∧
    (EvDone c ∈ new →
     ∃ post mid2 snapshot mid1 pre,
       new = post ++ EvDone c :: mid2 ++ EvReplace snapshot :: mid1 ++
             EvCalculate :: pre ∧
       callbacks_of mid2 = rev snapshot).
Proof.
  intros Hs0 Hn Hno Hexec. split; [by apply Recalculate_burst|].
  apply exec_app_Some in Hexec as (s1 & Hburst & Hexec).
  rewrite Recalculate_burst in Hburst by done. simpl in Hburst.
  injection Hburst as <-.
  apply exec_cons_Some in Hexec as (s2 & Hcall & Hexec).
  simpl in Hcall. unfold EnsureRecalculated in Hcall. simpl in Hcall.
  destruct (callers s0 !! c) eqn:Hc; [done|]. injection Hcall as <-.
  eapply (phase_exec c sch _ _ [] (trace s0)) in Hexec
    as (new & Htr & Hph); [|..|done].
  - exists new. split; [done|]. unfold phase, phase_of in Hph.
    destruct (stage_at_done c new) as [st|] eqn:Hdone.
    + destruct Hph as ((snapshot & ->) & _ & Hcnt). split; [lia|].
      intros _.
      apply stage_at_done_Some in Hdone as (post & older & -> & Hst).
      symmetry in Hst.
      apply stage_replaced_split in Hst as (mid2 & mid1 & pre & -> & Hcb).
      by exists post, mid2, snapshot, mid1, pre.
    + split.
      * destruct (stage new); break; lia.
      * intros Hin. by apply stage_at_done_None in Hdone.
  - eapply (reachable_exec [LRecalculate; LEnsureRecalculated c]); [done|].
    simpl. unfold EnsureRecalculated. simpl. by rewrite Hc.
  - unfold phase, phase_of, awaiting. simpl.
    rewrite lookup_insert_eq. split_and!; [|done|by left].
    unfold Recalculate. by destruct (recalculate (routes s0)) eqn:E.
  - done.
Qed.

End barrier.
(** ** Requests, recalculations and what changes the tables *)

(** Name the events a transition has emitted. *)
Ltac emitted :=
  match goal with
  | |- ∃ new, ?ev :: ?tr = new ++ ?tr ∧ _ => exists [ev]
  | |- ∃ new, ?tr = new ++ ?tr ∧ _ => exists []
  end; (split; [reflexivity|]).

Section requests.

Context {PeerName : Type} `{Countable PeerName} `{!Collaborators PeerName}.

Lemma count_Recalculate_cons (l : Label) (ls : list Label) :
  count_Recalculate (l :: ls) =
  (if is_Recalculate l then 1 else 0) + count_Recalculate ls.
Proof.
  unfold count_Recalculate. rewrite filter_cons.
  destruct (is_Recalculate l); simpl; done.
Qed.

(** The trace only grows. *)
Lemma exec_trace (sch : list Label) (s s' : State) :
  exec sch s = Some s' → ∃ new, trace s' = new ++ trace s.
Proof.
  revert s. induction sch as [|l sch IH]; intros s Hexec.
  - injection Hexec as <-. by exists [].
  - apply exec_cons_Some in Hexec as (s1 & Hstep & Hexec).
    destruct (IH _ Hexec) as (new2 & ->).
    destruct (step_trace _ _ _ Hstep) as [->|[ev ->]].
    + by exists new2.
    + exists (new2 ++ [ev]). by rewrite <- app_assoc.
Qed.

Lemma step_request (l : Label) (s s' : State) :
  step l s = Some s' →
  ∃ new, trace s' = new ++ trace s ∧
    count_calculate new + pending (routes s') ≤
      pending (routes s) + (if is_Recalculate l then 1 else 0) ∧
    (recalculate (routes s) = true →
     recalculate (routes s') = true ∨ EvCalculate ∈ new).
Proof.
  intros Hstep. step_cases Hstep; simpl; emitted.
  all: unfold pending, count_calculate; simpl.
  all: try match goal with
       | |- context [Recalculate ?r] =>
           unfold Recalculate; destruct (recalculate r) eqn:E; simpl;
           rewrite ?E
       end.
  all: try match goal with ptr : BroadcastPtr |- _ => destruct ptr; simpl end.
  all: try match goal with
       | H : recalculate ?r = _ |- _ => rewrite ?H
       end.
  all: try match goal with
       | |- context [recalculate ?r] => destruct (recalculate r) eqn:E
       end.
  all: split; [simpl; lia|]; intros; simplify_eq/=; eauto.
  all: right; by left.
Qed.

Lemma exec_request (sch : list Label) (s s' : State) :
  exec sch s = Some s' →
  ∃ new, trace s' = new ++ trace s ∧
    count_calculate new + pending (routes s') ≤
      pending (routes s) + count_Recalculate sch ∧
    (recalculate (routes s) = true →
     recalculate (routes s') = true ∨ EvCalculate ∈ new).
Proof.
  revert s. induction sch as [|l sch IH]; intros s Hexec.
  - injection Hexec as <-. exists []. split; [done|]. split; [|by left].
    unfold count_calculate, count_Recalculate. simpl. lia.
  - apply exec_cons_Some in Hexec as (s1 & Hstep & Hexec).
    destruct (step_request _ _ _ Hstep) as (new1 & Ht1 & Hc1 & Hp1).
    destruct (IH _ Hexec) as (new2 & Ht2 & Hc2 & Hp2).
    exists (new2 ++ new1). split; [by rewrite Ht2, Ht1, app_assoc|].
    rewrite count_calculate_app, count_Recalculate_cons. split; [lia|].
    intros Hsig. destruct (Hp1 Hsig) as [Hsig1|Hin].
    + destruct (Hp2 Hsig1) as [?|Hin]; [by left|].
      right. apply elem_of_app. by left.
    + right. apply elem_of_app. by right.
Qed.

(** X3.  [calculate] runs only on request, and a request is not lost.
    Over any schedule, the number of calls of [calculate], plus one if a
    signal is pending at the end, is at most the number of calls of
    [Recalculate], plus one if a signal was pending at the start.  And a
    signal that was pending at the start is still pending at the end,
    unless [calculate] was called. *)
Theorem calculate_needs_request (sch : list Label) (s s' : State)
    (new : list Event) :
  exec sch s = Some s' → trace s' = new ++ trace s →
  count_calculate new + pending (routes s') ≤
    pending (routes s) + count_Recalculate sch ∧
  (recalculate (routes s) = true →
   recalculate (routes s') = true ∨ EvCalculate ∈ new).
Proof.
  intros Hexec Htr.
  destruct (exec_request _ _ _ Hexec) as (new' & Htr' & Hcount & Hkept).
  rewrite Htr in Htr'. apply app_inv_tail in Htr' as ->. done.
Qed.

Lemma step_quiet (l : Label) (s s' : State) :
  recalculate (routes s) = false → in_calculate (pc s) = None →
  is_Recalculate l = false → step l s = Some s' →
  ∃ new, trace s' = new ++ trace s ∧
    (∀ ev, ev ∈ new →
       is_calculate ev = false ∧ is_replace ev = false ∧
       is_callback ev = false) ∧
    unicast (routes s') = unicast (routes s) ∧
    unicastAll (routes s') = unicastAll (routes s) ∧
    recalculate (routes s') = false ∧ in_calculate (pc s') = None.
Proof.
  intros Hsig Hpc Hl Hstep. step_cases Hstep; simpl in *; emitted.
  all: try match goal with ptr : BroadcastPtr |- _ => destruct ptr; simpl end.
  all: split_and!; try done.
  all: try (intros ev Hev; by apply elem_of_nil in Hev).
  all: intros ev Hev; apply list_elem_of_singleton in Hev as ->; done.
Qed.

(** X4.  Without a request nothing is recalculated.  When no signal is
    pending, the serializer is not inside [calculate], and nobody calls
    [Recalculate], then whatever else happens (topology changes, callback
    registrations, accessor calls, [EnsureRecalculated]) [calculate] is not
    called, the tables are not replaced, no callback is invoked, and the
    unicast tables stay as they are. *)
Theorem no_request_no_change (sch : list Label) (s s' : State)
    (new : list Event) :
  recalculate (routes s) = false → in_calculate (pc s) = None →
  (∀ l, l ∈ sch → is_Recalculate l = false) →
  exec sch s = Some s' → trace s' = new ++ trace s →
  (∀ ev, ev ∈ new →
     is_calculate ev = false ∧ is_replace ev = false ∧
     is_callback ev = false) ∧
  unicast (routes s') = unicast (routes s) ∧
  unicastAll (routes s') = unicastAll (routes s) ∧
  recalculate (routes s') = false ∧ in_calculate (pc s') = None.
Proof.
  revert s new. induction sch as [|l sch IH]; intros s new Hsig Hpc Hno Hexec Htr.
  - injection Hexec as <-.
    rewrite <- (app_nil_l (trace s)) in Htr at 1.
    apply app_inv_tail in Htr as <-. split_and!; try done.
    intros ev Hev. by apply elem_of_nil in Hev.
  - apply exec_cons_Some in Hexec as (s1 & Hstep & Hexec).
    eapply step_quiet in Hstep
      as (new1 & Ht1 & Hev1 & Hu1 & Hua1 & Hsig1 & Hpc1);
      [|done|done|apply Hno; by left].
    destruct (exec_trace _ _ _ Hexec) as (new2 & Ht2).
    eapply (IH s1 new2) in Hexec
      as (Hev2 & Hu2 & Hua2 & Hsig2 & Hpc2);
      [|done|done|intros x Hx; apply Hno; by right|done].
    rewrite Ht2, Ht1, app_assoc in Htr. apply app_inv_tail in Htr as <-.
    split_and!; try congruence.
    intros ev Hev. apply elem_of_app in Hev as [?|?]; eauto.
Qed.

Lemma step_between (l : Label) (s s' : State) :
  coherent s → step l s = Some s' →
  ∃ new, trace s' = new ++ trace s ∧
    (no_replace new →
     unicast (routes s') = unicast (routes s) ∧
     unicastAll (routes s') = unicastAll (routes s) ∧
     (∀ ptr X hops,
        deref ptr (routes s) !! X = Some hops →
        deref ptr (routes s') !! X = Some hops) ∧
     (∀ ptr X hops,
        deref ptr (routes s') !! X = Some hops →
        deref ptr (routes s) !! X = Some hops ∨ EvStore ptr X hops ∈ new)).
Proof.
  intros (_ & I2 & _) Hstep. step_cases Hstep; simpl in *; emitted.
  all: intros Hno.
  all: try (exfalso; by specialize (Hno _ (list_elem_of_here _ _))).
  all: rewrite ?deref_Recalculate.
  all: try match goal with
       | |- context [Recalculate ?r] =>
           unfold Recalculate; destruct (recalculate r) eqn:E; simpl
       end.
  all: try (split_and!; eauto; fail).
  specialize (I2 _ _ _ eq_refl). split_and!.
  - by destruct p0.
  - by destruct p0.
  - intros ptr X hops' Hin. rewrite deref_store. case_decide; [|done].
    subst. rewrite lookup_insert_ne; [done|]. intros ->. congruence.
  - intros ptr X hops' Hin. rewrite deref_store in Hin.
    case_decide; [|by left]. subst.
    apply lookup_insert_Some in Hin as [[<- <-]|[_ Hin]]; [|by left].
    right. by left.
Qed.

(** X5.  Between two replacements the tables change only by the stores of
    the lazy fill.  Over any schedule from a reachable state during which
    the tables are not replaced: the unicast tables stay the same; every
    broadcast entry stays, with the same list; and an entry that is there
    at the end was there at the start or was stored by the closure in
    between. *)
Theorem tables_between_replacements (sch : list Label) (s s' : State)
    (new : list Event) :
  reachable s → exec sch s = Some s' → trace s' = new ++ trace s →
  no_replace new →
  unicast (routes s') = unicast (routes s) ∧
  unicastAll (routes s') = unicastAll (routes s) ∧
  (∀ ptr X hops,
     deref ptr (routes s) !! X = Some hops →
     deref ptr (routes s') !! X = Some hops) ∧
  (∀ ptr X hops,
     deref ptr (routes s') !! X = Some hops →
     deref ptr (routes s) !! X = Some hops ∨ EvStore ptr X hops ∈ new).
Proof.
  revert s new. induction sch as [|l sch IH]; intros s new Hs Hexec Htr Hno.
  - injection Hexec as <-. split_and!; eauto.
  - apply exec_cons_Some in Hexec as (s1 & Hstep & Hexec).
    pose proof (reachable_step _ _ _ Hs Hstep) as Hs1.
    apply step_between in Hstep as (new1 & Ht1 & Hstep);
      [|by apply coherent_reachable].
    destruct (exec_trace _ _ _ Hexec) as (new2 & Ht2).
    rewrite Ht2, Ht1, app_assoc in Htr. apply app_inv_tail in Htr as <-.
    destruct Hstep as (Hu1 & Hua1 & Hkeep1 & Hgrow1).
    { intros ev Hev. apply Hno. apply elem_of_app. by right. }
    eapply (IH s1 new2) in Hexec as (Hu2 & Hua2 & Hkeep2 & Hgrow2);
      [|done|done|intros ev Hev; apply Hno; apply elem_of_app; by left].
    split_and!; try congruence; eauto.
    intros ptr X hops Hin. apply Hgrow2 in Hin as [Hin|Hin].
    + apply Hgrow1 in Hin as [Hin|Hin]; [by left|].
      right. apply elem_of_app. by right.
    + right. apply elem_of_app. by left.
Qed.

End requests.

(** ** Coalescing and the barrier under any interleaving *)

(** Where caller [c] is after a transition, from where it was. *)
Ltac window_callers :=
  let Hc' := fresh "Hc'" in
  intros Hc';
  try (apply lookup_insert_Some in Hc' as [[? ?]|[? Hc']]; simplify_eq/=);
  try (apply lookup_delete_Some in Hc' as [? Hc']);
  try done;
  repeat match goal with
  | Hc : ?P → _, Hp : ?P |- _ => specialize (Hc Hp); simplify_eq/=
  end;
  by eauto.

Ltac window_notin :=
  first [ done | split; [congruence|done] ].

Section coalescing.

Context {PeerName : Type} `{Countable PeerName} `{!Collaborators PeerName}.

(** A call of [Recalculate] while a signal is pending changes nothing. *)
Lemma Recalculate_pending (s : State) :
  recalculate (routes s) = true → step LRecalculate s = Some s.
Proof.
  intros Hsig. simpl. unfold Recalculate. rewrite Hsig. by destruct s.
Qed.

(** Every call of [calculate] takes one signal out of the channel, and only
    a call of [Recalculate] that finds the channel empty puts one in. *)
Lemma step_sent (l : Label) (s s' : State) :
  step l s = Some s' →
  ∃ new, trace s' = new ++ trace s ∧
    count_calculate new + pending (routes s') =
      pending (routes s) +
      (if is_Recalculate l && negb (recalculate (routes s)) then 1 else 0).
Proof.
  intros Hstep. step_cases Hstep; simpl; emitted.
  all: unfold pending, count_calculate; simpl.
  all: try match goal with
       | |- context [Recalculate ?r] =>
           unfold Recalculate; destruct (recalculate r) eqn:E; simpl;
           rewrite ?E
       end.
  all: try match goal with ptr : BroadcastPtr |- _ => destruct ptr; simpl end.
  all: try match goal with
       | H : recalculate ?r = _ |- _ => rewrite ?H
       end.
  all: try match goal with
       | |- context [recalculate ?r] => destruct (recalculate r) eqn:E
       end.
  all: simpl; lia.
Qed.

Lemma exec_sent (sch : list Label) (s s' : State) :
  exec sch s = Some s' →
  ∃ new, trace s' = new ++ trace s ∧
    count_calculate new + pending (routes s') =
      pending (routes s) + count_sent sch s.
Proof.
  revert s. induction sch as [|l sch IH]; intros s Hexec.
  - injection Hexec as <-. exists []. split; [done|].
    unfold count_calculate. simpl. lia.
  - apply exec_cons_Some in Hexec as (s1 & Hstep & Hexec).
    destruct (step_sent _ _ _ Hstep) as (new1 & Ht1 & Hc1).
    destruct (IH _ Hexec) as (new2 & Ht2 & Hc2).
    exists (new2 ++ new1). split; [by rewrite Ht2, Ht1, app_assoc|].
    rewrite count_calculate_app. simpl. rewrite Hstep. lia.
Qed.

Lemma count_sent_le (sch : list Label) (s : State) :
  count_sent sch s ≤ count_Recalculate sch.
Proof.
  revert s. induction sch as [|l sch IH]; intros s; simpl; [lia|].
  rewrite count_Recalculate_cons. destruct (step l s) as [s1|]; [|lia].
  specialize (IH s1).
  destruct (is_Recalculate l), (recalculate (routes s)); simpl; lia.
Qed.

(** A signal that was sent and that no call of [calculate] has taken is
    still in the channel. *)
Lemma signal_unconsumed (burst : list Label) (s0 s1 : State)
    (newb : list Event) :
  exec burst s0 = Some s1 → trace s1 = newb ++ trace s0 →
  count_calculate newb = 0 →
  recalculate (routes s0) = true ∨ 1 ≤ count_Recalculate burst →
  recalculate (routes s1) = true.
Proof.
  revert s0 newb. induction burst as [|l burst IH];
    intros s0 newb Hexec Htr Hcount Hsig.
  - injection Hexec as <-. destruct Hsig as [?|Hn]; [done|].
    unfold count_Recalculate in Hn. simpl in Hn. lia.
  - apply exec_cons_Some in Hexec as (sa & Hstep & Hexec).
    destruct (step_sent _ _ _ Hstep) as (new1 & Ht1 & Hc1).
    destruct (exec_trace _ _ _ Hexec) as (new2 & Ht2).
    rewrite Ht2, Ht1, app_assoc in Htr. apply app_inv_tail in Htr as <-.
    rewrite count_calculate_app in Hcount.
    apply (IH sa new2); [done|done|lia|].
    rewrite count_Recalculate_cons in Hsig. unfold pending in Hc1.
    destruct (recalculate (routes sa)); [by left|].
    destruct (recalculate (routes s0)), (is_Recalculate l);
      simpl in *; destruct Hsig as [?|?]; try done; lia.
Qed.

Lemma completed_cons (ev : Event) (new : list Event) :
  completed new → completed (ev :: new).
Proof.
  intros (post & mid2 & snapshot & mid1 & pre & -> & Hcb).
  by exists (ev :: post), mid2, snapshot, mid1, pre.
Qed.

Lemma done_after_completed_cons (c : nat) (ev : Event) (new : list Event) :
  completed new → done_after_completed c new →
  done_after_completed c (ev :: new).
Proof.
  intros Hc Hd post older Heq. destruct post as [|x post]; simpl in Heq.
  - by injection Heq as -> <-.
  - injection Heq as -> Heq. by eapply Hd.
Qed.

Lemma done_after_completed_notin (c : nat) (new : list Event) :
  EvDone c ∉ new → done_after_completed c new.
Proof.
  intros Hnot post older ->. exfalso. apply Hnot.
  apply elem_of_app. right. by left.
Qed.

(** One transition inside the window that a call of [Recalculate]
    opened. *)
Lemma window_step (c : nat) (l : Label) (s s' : State)
    (new tr0 : list Event) :
  served s → barrier c s new → trace s = new ++ tr0 → step l s = Some s' →
  ∃ new', trace s' = new' ++ tr0 ∧ barrier c s' new'.
Proof.
  intros Hserved [(Hw & Hnot)|(Hc & Hd)] Htr Hstep.
  - unfold barrier, before_barrier, served in *.
    step_cases Hstep; simpl in *.
    all: try (specialize (Hserved _ _ eq_refl)).
    all: try (exists new; split; [done|]).
    all: try (eexists (_ :: new); split; [reflexivity|]).
    all: simpl.
    all: destruct (stage new) eqn:Hstage; simpl in *.
    all: unfold once_received in *.
    all: break; simplify_eq/=.
    all: try match goal with
         | |- context [Recalculate ?r] =>
             unfold Recalculate; destruct (recalculate r) eqn:E; simpl
         end.
    all: try match goal with ptr : BroadcastPtr |- _ => destruct ptr; simpl end.
    all: rewrite ?not_elem_of_cons.
    all: try (solve [left; split;
                      [split; [done|window_callers]|window_notin]]).
    all: try (solve [left; split;
                      [eexists; split;
                         [by (left + (right; eexists))|window_callers]
                      |window_notin]]).
    all: try (solve [left; split;
                      [eexists _, _; split_and!;
                         [done|by rewrite <- ?app_assoc|window_callers]
                      |window_notin]]).
    + assert (c ≠ c0) as Hne.
      { intros ->. by specialize (H1 Hserved). }
      left. split; [split; [done|]|split; [congruence|done]].
      intros Hc'. apply lookup_delete_Some in Hc' as [_ Hc'].
      by specialize (H1 Hc').
    + right. rewrite app_nil_r in Hstage.
      apply stage_replaced_split in Hstage
        as (mid2 & mid1 & pre & -> & Hcb).
      split; [by exists [], mid2, fired, mid1, pre|].
      by apply done_after_completed_notin.
    + right. rewrite app_nil_r in Hstage.
      apply stage_replaced_split in Hstage
        as (mid2 & mid1 & pre & -> & Hcb).
      split; [by exists [], mid2, fired, mid1, pre|].
      by apply done_after_completed_notin.
  - destruct (step_trace _ _ _ Hstep) as [Heq|[ev Heq]].
    + exists new. split; [by rewrite Heq|]. by right.
    + exists (ev :: new). split; [by rewrite Heq, Htr|]. right.
      split; [by apply completed_cons|by apply done_after_completed_cons].
Qed.

Lemma window_exec (c : nat) (sch : list Label) (s s' : State)
    (new tr0 : list Event) :
  reachable s → barrier c s new → trace s = new ++ tr0 →
  exec sch s = Some s' →
  ∃ new', trace s' = new' ++ tr0 ∧ barrier c s' new'.
Proof.
  revert s new. induction sch as [|l sch IH]; intros s new Hs Hb Htr Hexec.
  - injection Hexec as <-. eauto.
  - apply exec_cons_Some in Hexec as (s1 & Hstep & Hexec).
    destruct (window_step c l s s1 new tr0) as (new1 & Htr1 & Hb1);
      [by apply served_reachable|done..|].
    eapply (IH s1 new1); [by eapply reachable_step|done..].
Qed.

(** C3.  Coalescing of recalculation requests, and [EnsureRecalculated] as
    a barrier.
    - A call of [Recalculate] while a signal is pending changes nothing.
    - Over any schedule, the number of calls of [calculate], plus one if a
      signal is pending at the end, is the number of the calls of
      [Recalculate] that found the channel empty, plus one if a signal was
      pending at the start: the other calls of [Recalculate] cause nothing.
      This number is at most the number of calls of [Recalculate].
    - A burst: a schedule with [N >= 1] calls of [Recalculate], between
      and around which anything else may happen, except that the serializer
      does not take the signal ([calculate] is not called) before the burst
      is over.  After the burst [c] calls [EnsureRecalculated], and nobody
      calls [Recalculate] any more.  Then [calculate] is called at most once
      from the start of the burst on; and if [done] is closed for [c], then
      before that, and after the burst, [calculate] was called, replaced the
      tables and invoked every callback of its snapshot, in order.
    - Under any interleaving: after a call of [Recalculate], whenever
      [done] is closed for a caller [c] whose [done] the serializer did not
      hold at the call, a complete recalculation lies between the call and
      the close: [calculate] was called, replaced the tables and invoked
      every callback of its snapshot, in order. *)
Theorem recalculation_coalescing :
  (∀ s : State,
     recalculate (routes s) = true → step LRecalculate s = Some s) ∧
  (∀ (sch : list Label) (s s' : State) (new : list Event),
     exec sch s = Some s' → trace s' = new ++ trace s →
     count_calculate new + pending (routes s') =
       pending (routes s) + count_sent sch s ∧
     count_sent sch s ≤ count_Recalculate sch) ∧
  (∀ (s0 s1 s' : State) (c : nat) (burst sch : list Label)
     (newb : list Event),
     reachable s0 →
     exec burst s0 = Some s1 → trace s1 = newb ++ trace s0 →
     1 ≤ count_Recalculate burst → count_calculate newb = 0 →
     (∀ l, l ∈ sch → is_Recalculate l = false) →
     exec (LEnsureRecalculated c :: sch) s1 = Some s' →
     ∃ new,
       trace s' = new ++ newb ++ trace s0 ∧
       count_calculate (new ++ newb) ≤ 1 ∧
       (EvDone c ∈ new →
        ∃ post mid2 snapshot mid1 pre,
          new = post ++ EvDone c :: mid2 ++ EvReplace snapshot :: mid1 ++
                EvCalculate :: pre ∧
          callbacks_of mid2 = rev snapshot)) ∧
  (∀ (s0 s' : State) (c : nat) (sch : list Label) (new : list Event),
     reachable s0 → callers s0 !! c ≠ Some CRecvDone →
     exec (LRecalculate :: sch) s0 = Some s' →
     trace s' = new ++ trace s0 →
     ∀ post older, new = post ++ EvDone c :: older →
     ∃ post' mid2 snapshot mid1 pre,
       older = post' ++ mid2 ++ EvReplace snapshot :: mid1 ++
               EvCalculate :: pre ∧
       callbacks_of mid2 = rev snapshot).
Proof.
  split_and!.
  - apply Recalculate_pending.
  - intros sch s s' new Hexec Htr. split; [|apply count_sent_le].
    destruct (exec_sent _ _ _ Hexec) as (new' & Htr' & Hcount).
    rewrite Htr in Htr'. by apply app_inv_tail in Htr' as ->.
  - intros s0 s1 s' c burst sch newb Hs0 Hburst Htrb Hn Hcount Hno Hexec.
    assert (recalculate (routes s1) = true) as Hsig.
    { eapply signal_unconsumed; eauto. }
    destruct (burst_then_barrier s1 s' 1 c sch) as (_ & new & Htr & Hc & Hd).
    + by eapply reachable_exec.
    + done.
    + done.
    + change (exec (LRecalculate :: LEnsureRecalculated c :: sch) s1
              = Some s').
      apply exec_cons_Some. exists s1.
      split; [by apply Recalculate_pending|done].
    + exists new. split; [by rewrite Htr, Htrb|].
      rewrite count_calculate_app. split; [lia|done].
  - intros s0 s' c sch new Hs0 Hc Hexec Htr post older Hnew.
    apply exec_cons_Some in Hexec as (s1 & Hstep & Hexec).
    pose proof (reachable_step _ _ _ Hs0 Hstep) as Hs1.
    simpl in Hstep. injection Hstep as <-.
    destruct (window_exec c sch _ s' [] (trace s0) Hs1) as (new' & Htr' & Hb);
      [| done | done |].
    + left. split; [|apply not_elem_of_nil]. simpl. split.
      * unfold Recalculate. by destruct (recalculate (routes s0)) eqn:E.
      * intros Hc'. by destruct Hc.
    + rewrite Htr in Htr'. apply app_inv_tail in Htr' as <-.
      destruct Hb as [(_ & Hnot)|(_ & Hd)].
      * exfalso. apply Hnot. rewrite Hnew. apply elem_of_app. right. by left.
      * by apply (Hd post older).
Qed.

End coalescing.
(** ** Where the entries of the tables come from *)

Section provenance.

Context {PeerName : Type} `{Countable PeerName} `{!Collaborators PeerName}.

(** [calculateUnicast], [calculateBroadcast] and [calculate] read the
    handles of the [Routes] value, not its tables. *)
Lemma calculateBroadcast_handles (t : Topology) (r r' : Routes)
    (name : PeerName) (e : bool) :
  ourself r = ourself r' → peers r = peers r' →
  calculateBroadcast t r name e = calculateBroadcast t r' name e.
Proof. unfold calculateBroadcast. by intros -> ->. Qed.

Lemma calculateUnicast_handles (t : Topology) (r r' : Routes) (e : bool) :
  ourself r = ourself r' →
  calculateUnicast t r e = calculateUnicast t r' e.
Proof. unfold calculateUnicast. by intros ->. Qed.

Lemma calculate_derive_handles (t : Topology) (r r' : Routes) :
  ourself r = ourself r' → peers r = peers r' →
  calculate_derive t r = calculate_derive t r'.
Proof.
  intros Ho Hp. unfold calculate_derive.
  rewrite !(calculateUnicast_handles t r r') by done.
  rewrite !(calculateBroadcast_handles t r r') by done.
  by rewrite Ho.
Qed.

Lemma serving_reachable (s : State) : reachable s → serving s.
Proof.
  intros Hs. reachable_induction Hs.
  - intros c w Hc. simpl in Hc. by rewrite lookup_empty in Hc.
  - unfold serving in *. intros c w Hc Hr.
    step_cases Hstep; simpl in *; eauto.
    all: try (apply lookup_insert_Some in Hc as [[<- <-]|[? Hc]]; try done).
    all: try (apply lookup_delete_Some in Hc as [? Hc]).
    all: try (specialize (IH _ _ Hc Hr); simplify_eq/=; done).
    all: specialize (IH _ _ Hc Hr); simpl in IH.
    all: destruct k; simplify_eq/=; done.
Qed.

Lemma filters_match_reachable (s : State) : reachable s → filters_match s.
Proof.
  intros Hs. reachable_induction Hs.
  - split; simpl; intros; break; simplify_eq/=.
  - destruct IH as (Ic & Ip). unfold filters_match.
    step_cases Hstep; simpl in *.
    all: split; intros; break; simplify_eq/=; eauto.
    all: try match goal with
         | Hl : <[_ := _]> _ !! _ = Some _ |- _ =>
             apply lookup_insert_Some in Hl as [[? ?]|[? Hl]]; simplify_eq/=
         | Hl : delete _ _ !! _ = Some _ |- _ =>
             apply lookup_delete_Some in Hl as [? Hl]
         end; eauto.
    all: destruct k; simplify_eq/=.
Qed.

(** The four tables come from one run of [calculate]: the derivation reads
    one topology, and the lazy fill never touches the local peer's
    entries. *)
Lemma snapshot_invariant (s : State) :
  reachable s →
  (seeded (routes s) ∨ ∃ t, snapshot_of t (routes s)) ∧
  (∀ tb k, pc s = PReplace tb k → ∃ t, tb = calculate_derive t (routes s)).
Proof.
  intros Hs. reachable_induction Hs.
  - split; [|by simpl]. left. unfold seeded. simpl.
    by rewrite !lookup_singleton_eq.
  - destruct IH as (It & Ir).
    destruct (coherent_reachable _ Hreach) as (_ & I2 & _).
    unfold seeded, snapshot_of, calculate_derive, calculateUnicast,
      calculateBroadcast in *.
    step_cases Hstep; simpl in *.
    all: try match goal with
         | |- context [Recalculate ?r] =>
             unfold Recalculate; destruct (recalculate r) eqn:E; simpl
         end.
    all: split; try done.
    all: try (by apply (Ir _ _ eq_refl)).
    all: try (intros ? ? [= <- <-]; eauto; fail).
    all: try (destruct k; simpl; intros; break; simplify_eq/=; fail).
    + destruct (Ir _ _ eq_refl) as (t' & ->). simpl. right. exists t'.
      by rewrite !lookup_insert_eq.
    + specialize (I2 _ _ _ eq_refl).
      assert (name ≠ Name (ourself r)) as Hname.
      { intros ->. destruct p0; simpl in I2;
          destruct It as [(_ & _ & ? & ?)|(? & _ & _ & ? & ?)]; congruence. }
      destruct p0; simpl; rewrite lookup_insert_ne by done; done.
Qed.

(** X6.  The tables are never a mix of two topologies.  In every reachable
    state the unicast table, the unicastAll table and the local peer's
    entries of the two broadcast tables are the ones [NewRoutes] seeded, or
    they are all four what [calculate] derives from one and the same
    topology. *)
Theorem tables_from_one_snapshot (s : State) :
  reachable s →
  seeded (routes s) ∨ ∃ t, snapshot_of t (routes s).
Proof. intros Hs. by apply snapshot_invariant. Qed.

(** Every event of the trace was emitted by a transition of the execution
    that leads to the state: the schedule splits at that transition. *)
Lemma exec_history (o : Peer) (ps : Peers) (t : Topology)
    (ls : list Label) (s : State) :
  exec ls (NewState o ps t) = Some s →
  ∀ a ev b, trace s = a ++ ev :: b →
  ∃ ls1 l ls2 s1 s2,
    ls = ls1 ++ l :: ls2 ∧ exec ls1 (NewState o ps t) = Some s1 ∧
    step l s1 = Some s2 ∧ exec ls2 s2 = Some s ∧
    trace s1 = b ∧ trace s2 = ev :: b.
Proof.
  revert s. induction ls as [|l ls IH] using rev_ind; intros s Hls a ev b Ht.
  - injection Hls as <-. simpl in Ht. by destruct a.
  - apply exec_app_Some in Hls as (sm & Hls & Hl).
    apply exec_cons_Some in Hl as (s' & Hstep & [= <-]).
    assert (∀ a', trace sm = a' ++ ev :: b →
              ∃ ls1 l0 ls2 s1 s2,
                ls ++ [l] = ls1 ++ l0 :: ls2 ∧
                exec ls1 (NewState o ps t) = Some s1 ∧
                step l0 s1 = Some s2 ∧ exec ls2 s2 = Some s' ∧
                trace s1 = b ∧ trace s2 = ev :: b) as Hold.
    { intros a' Ha'.
      destruct (IH _ Hls _ _ _ Ha')
        as (ls1 & l0 & ls2 & s1 & s2 & -> & H1 & H2 & H3 & H4 & H5).
      exists ls1, l0, (ls2 ++ [l]), s1, s2. split_and!; try done.
      - by rewrite <- app_assoc.
      - apply exec_app_Some. exists sm. split; [done|].
        simpl. by rewrite Hstep. }
    destruct (step_trace _ _ _ Hstep) as [Heq|[ev' Heq]].
    + rewrite Heq in Ht. by eapply Hold.
    + rewrite Heq in Ht. destruct a as [|x a]; simpl in Ht.
      * injection Ht as -> <-. exists ls, l, [], sm, s'. by split_and!.
      * injection Ht as -> Ht. by eapply Hold.
Qed.

Lemma since_replace_split (tr : list Event) (ev : Event) :
  ev ∈ since_replace tr →
  ∃ t2 t1, tr = t2 ++ ev :: t1 ∧ no_replace t2.
Proof.
  induction tr as [|x tr IH]; simpl.
  - intros Hin. by apply elem_of_nil in Hin.
  - destruct (is_replace x) eqn:Hx.
    + intros Hin. by apply elem_of_nil in Hin.
    + intros Hin. apply elem_of_cons in Hin as [->|Hin].
      * exists [], tr. split; [done|]. intros y Hy. by apply elem_of_nil in Hy.
      * destruct (IH Hin) as (t2 & t1 & -> & Hno). exists (x :: t2), t1.
        split; [done|]. intros y Hy.
        apply elem_of_cons in Hy as [->|Hy]; [done|by apply Hno].
Qed.

Lemma ourself_store (ptr : BroadcastPtr) (name : PeerName)
    (hops : list PeerName) (r : Routes) :
  ourself (store ptr name hops r) = ourself r.
Proof. by destruct ptr. Qed.

(** An entry for another peer's name that a table holds, or is about to
    hold, was computed by the closure since the last replacement. *)
Lemma cached_computed (s : State) :
  reachable s →
  ∀ ptr X hops,
    cached s ptr X hops → X ≠ Name (ourself (routes s)) →
    EvCalculateBroadcast ptr X hops ∈ since_replace (trace s).
Proof.
  intros Hs. reachable_induction Hs.
  - intros ptr X hops [Hin|Hin] HX; simpl in *; [|done].
    destruct ptr; simpl in Hin;
      apply lookup_singleton_Some in Hin as [<- _]; done.
  - intros ptr X hops Hc HX.
    destruct (snapshot_invariant _ Hreach) as (_ & Ir).
    unfold cached in *.
    step_cases Hstep; simpl in *.
    all: rewrite ?deref_Recalculate in Hc.
    all: try match type of HX with
         | context [Recalculate ?r] =>
             unfold Recalculate in HX; destruct (recalculate r) in HX;
             simpl in HX
         | context [store ?p _ _ _] => rewrite ourself_store in HX
         end.
    all: try (apply IH; [|done]; destruct Hc as [?|?]; eauto;
              by destruct ptr).
    all: try (right; apply IH; [|done]; destruct Hc as [?|?];
              simplify_eq/=; eauto; fail).
    + destruct (Ir _ _ eq_refl) as (t' & ->).
      destruct Hc as [Hin|?]; [|done].
      destruct ptr; simpl in Hin;
        rewrite lookup_insert_ne in Hin by done; by rewrite lookup_empty in Hin.
    + destruct k; simpl in Hc; apply IH; eauto;
        destruct Hc as [?|?]; eauto; done.
    + destruct Hc as [?|?]; simplify_eq/=; [right; apply IH; eauto|by left].
    + right. apply IH; [|done]. destruct Hc as [Hin|?]; [|done].
      rewrite deref_store in Hin. case_decide; [|by left]. subst.
      apply lookup_insert_Some in Hin as [[<- <-]|[_ Hin]]; eauto.
Qed.

(** X7.  A [Broadcast]/[BroadcastAll] call never answers with a list that
    was not computed for it.  Take any execution from a fresh [Routes] in
    which a call for a name [X] other than the local peer's returns
    [hops].  Then the execution passed, before the return, through a state
    [s1] in which the serializer was about to run [calculateBroadcast] for
    [X], for the table and with the filter of that accessor; the serializer
    ran it there, and [hops] is what [calculateBroadcast] gives on the
    topology of [s1]; and the tables were not replaced between that
    computation and the return. *)
Theorem broadcast_return_provenance (o : Peer) (ps : Peers) (t : Topology)
    (ls : list Label) (s : State) (c : nat) (ptr : BroadcastPtr)
    (X : PeerName) (hops : list PeerName) (a b : list Event) :
  exec ls (NewState o ps t) = Some s →
  trace s = a ++ EvReturn c ptr X hops :: b →
  X ≠ Name o →
  ∃ ls1 ls2 s1 c' b2,
    ls = ls1 ++ LRun :: ls2 ∧
    exec ls1 (NewState o ps t) = Some s1 ∧
    pc s1 = PCompute c' X ptr (filter_of ptr) ∧
    hops = calculateBroadcast (topology s1) (routes s1) X (filter_of ptr) ∧
    b = b2 ++ EvCalculateBroadcast ptr X hops :: trace s1 ∧
    no_replace b2.
Proof.
  intros Hls Htr HX.
  destruct (exec_history _ _ _ _ _ Hls _ _ _ Htr)
    as (lsA & l & lsB & sA & sA' & -> & HlsA & Hstep & _ & Ht1 & Ht2).
  assert (reachable sA) as HsA by by exists o, ps, t, lsA.
  rewrite <- Ht1 in Ht2.
  pose proof (return_cached _ _ _ _ _ _ _
                (coherent_reachable _ HsA) Hstep Ht2) as Hc.
  assert (X ≠ Name (ourself (routes sA))) as HXA.
  { apply exec_frame in HlsA as (_ & -> & _). done. }
  pose proof (cached_computed _ HsA _ _ _ Hc HXA) as Hev.
  apply since_replace_split in Hev as (b2 & b1 & Hb & Hno).
  destruct (exec_history _ _ _ _ _ HlsA _ _ _ Hb)
    as (ls1 & l' & ls2 & s1 & s2 & -> & Hls1 & Hstep' & _ & Ht3 & Ht4).
  assert (reachable s1) as Hs1 by by exists o, ps, t, ls1.
  destruct (filters_match_reachable _ Hs1) as (_ & If).
  rewrite <- Ht3 in Ht4.
  assert (l' = LRun ∧ ∃ c', pc s1 = PCompute c' X ptr (filter_of ptr) ∧
          hops = calculateBroadcast (topology s1) (routes s1) X
                   (filter_of ptr)) as (-> & c' & Hpc & Hhops).
  { clear - Hstep' Ht4 If.
    step_cases Hstep'; simpl in *; simplify_eq/=;
      try (by destruct (trace_fresh _ _ Ht4)).
    specialize (If _ _ _ _ (or_intror eq_refl)). subst. eauto. }
  exists ls1, (ls2 ++ l :: lsB), s1, c', b2. split_and!; try done.
  - by rewrite <- app_assoc.
  - by rewrite <- Ht1, Ht3.
Qed.

(** X14.  A callback sees the new tables, and nothing else.  While
    [calculate] invokes the callbacks, the four tables are exactly what it
    derived, from one topology: the broadcast tables hold the local peer's
    entries only, since no lazy fill runs before the last callback has
    returned. *)
Theorem callbacks_see_new_tables (s : State) (rest : list Callback)
    (k : Cont) :
  reachable s → pc s = PCallbacks rest k →
  ∃ t, tables (routes s) = calculate_derive t (routes s).
Proof.
  intros Hs. revert rest k. reachable_induction Hs.
  - intros rest k Hpc. done.
  - intros rest k Hpc.
    destruct (snapshot_invariant _ Hreach) as (_ & Ir).
    pose proof (step_frame _ _ _ Hstep) as (_ & Ho & Hp).
    setoid_rewrite (calculate_derive_handles _ (routes s') (routes s) Ho Hp).
    clear Ho Hp. unfold tables in *.
    step_cases Hstep; simpl in *; simplify_eq/=; eauto.
    + unfold Recalculate. destruct (recalculate r); simpl; eauto.
    + destruct (Ir _ _ eq_refl) as (t' & ->). by exists t'.
Qed.

End provenance.

(** ** [EnsureRecalculated] as a barrier for the topology *)

(** The side conditions of [owed] after a transition: where caller [c] is,
    from where it was ([Hc]), and that [done] was not closed for it. *)
Ltac owed_callers Hc :=
  let Hc' := fresh "Hc'" in
  intros Hc';
  try (apply lookup_insert_Some in Hc' as [[? ?]|[? Hc']]; simplify_eq/=);
  try (apply lookup_delete_Some in Hc' as [? Hc']);
  try done;
  try (specialize (Hc Hc'); simplify_eq/=);
  by eauto.

Ltac owed_notin :=
  first [ apply not_elem_of_nil
        | apply not_elem_of_cons; split; [|apply not_elem_of_nil];
          try done; congruence ].

Section freshness.

Context {PeerName : Type} `{Countable PeerName} `{!Collaborators PeerName}.

(** Once the tables and the local variables are up to date they stay so, as
    long as the topology does not change. *)
Lemma settled_step (l : Label) (s s' : State) :
  filters_match s → is_Topology l = false → step l s = Some s' →
  settled s → settled s'.
Proof.
  intros (_ & If) Hl Hstep ((Hu & Hua & Hb) & (Hr & Hl')).
  pose proof (step_frame _ _ _ Hstep) as (_ & Ho & Hp).
  unfold settled, up_to_date, locals_up_to_date.
  rewrite !(calculateUnicast_handles _ (routes s') (routes s)) by done.
  rewrite (calculate_derive_handles _ (routes s') (routes s)) by done.
  setoid_rewrite
    (calculateBroadcast_handles _ (routes s') (routes s) _ _ Ho Hp).
  clear Ho Hp.
  step_cases Hstep; simpl in *; try done.
  all: rewrite ?deref_Recalculate.
  all: try match goal with
       | |- context [Recalculate ?r] =>
           unfold Recalculate; destruct (recalculate r) eqn:E; simpl
       end.
  all: try (split_and!; try done; fail).
  - split_and!; try done. by intros ? ? [= <- <-].
  - rewrite (Hr _ _ eq_refl). simpl. split_and!; try done.
    intros ptr X hops Hin.
    destruct ptr; simpl in *;
      apply lookup_insert_Some in Hin as [[<- <-]|[_ Hin]]; try done;
      by rewrite lookup_empty in Hin.
  - split_and!; try done; destruct k; done.
  - split_and!; try done. intros ? ? ? [= <- <- <-].
    by rewrite (If _ _ _ _ (or_intror eq_refl)).
  - split_and!; try done; try by destruct p0.
    intros ptr X hops' Hin. rewrite deref_store in Hin.
    case_decide; [|by eauto]. subst.
    apply lookup_insert_Some in Hin as [[<- <-]|[_ Hin]]; eauto.
Qed.

Lemma owed_step (c : nat) (l : Label) (s s' : State) :
  served s → is_Topology l = false → step l s = Some s' → owed c s →
  ∃ new, trace s' = new ++ trace s ∧
    ((owed c s' ∧ EvDone c ∉ new) ∨ settled s').
Proof.
  intros Hserved Hl Hstep Howed.
  pose proof (step_frame _ _ _ Hstep) as (_ & Ho & Hp).
  unfold owed, settled, up_to_date, locals_up_to_date in *.
  rewrite !(calculateUnicast_handles _ (routes s') (routes s)) by done.
  rewrite !(calculate_derive_handles _ (routes s') (routes s)) by done.
  setoid_rewrite
    (calculateBroadcast_handles _ (routes s') (routes s) _ _ Ho Hp).
  clear Ho Hp. unfold served in Hserved.
  step_cases Hstep; simpl in *; try done; emitted.
  all: try (specialize (Hserved _ _ eq_refl)).
  all: try match goal with
       | |- context [Recalculate ?r] =>
           unfold Recalculate; destruct (recalculate r) eqn:E; simpl
       end.
  all: try match goal with ptr : BroadcastPtr |- _ => destruct ptr; simpl end.
  all: destruct Howed as [(Hsig & Hc)|(k' & Hpc & Hc)].
  all: try (destruct Hpc as [Hpc|Hpc]; simplify_eq/=).
  all: try (solve [left; split;
                    [left; split; [done|owed_callers Hc]|owed_notin]]).
  all: try (solve [left; split;
                    [right; eexists; split;
                       [by (left + right)|owed_callers Hc]|owed_notin]]).
  - assert (c ≠ c0) as Hne.
    { intros ->. by specialize (Hc Hserved). }
    left. split.
    + left. split; [done|]. intros Hc'.
      apply lookup_delete_Some in Hc' as [_ Hc']. by specialize (Hc Hc').
    + apply not_elem_of_cons. split; [congruence|apply not_elem_of_nil].
  - right. split_and!; try done. intros ptr X hops Hin.
    destruct ptr; simpl in *;
      apply lookup_insert_Some in Hin as [[<- <-]|[_ Hin]]; try done;
      by rewrite lookup_empty in Hin.
  - right. split_and!; try done. intros ptr X hops Hin.
    destruct ptr; simpl in *;
      apply lookup_insert_Some in Hin as [[<- <-]|[_ Hin]]; try done;
      by rewrite lookup_empty in Hin.
Qed.

Lemma barrier_exec (c : nat) (sch : list Label) (s s' : State) :
  reachable s → (∀ l, l ∈ sch → is_Topology l = false) →
  exec sch s = Some s' →
  (settled s → settled s') ∧
  (owed c s →
   ∃ new, trace s' = new ++ trace s ∧
     ((owed c s' ∧ EvDone c ∉ new) ∨ settled s')).
Proof.
  revert s. induction sch as [|l sch IH]; intros s Hs Hno Hexec.
  - injection Hexec as <-. split; [done|]. intros Howed. exists [].
    split; [done|]. left. split; [done|apply not_elem_of_nil].
  - apply exec_cons_Some in Hexec as (s1 & Hstep & Hexec).
    assert (is_Topology l = false) as Hl by (apply Hno; by left).
    destruct (IH s1) as (IHs & IHo);
      [by eapply reachable_step|intros x Hx; apply Hno; by right|done|].
    split.
    + intros Hset. apply IHs.
      eapply settled_step; [by apply filters_match_reachable|done..].
    + intros Howed.
      destruct (owed_step c _ _ _ (served_reachable _ Hs) Hl Hstep Howed)
        as (new1 & Ht1 & [(Howed1 & Hnot1)|Hset1]).
      * destruct (IHo Howed1) as (new2 & Ht2 & Hcase).
        exists (new2 ++ new1). split; [by rewrite Ht2, Ht1, app_assoc|].
        destruct Hcase as [(Howed2 & Hnot2)|Hset2]; [left|by right].
        split; [done|]. rewrite not_elem_of_app. done.
      * destruct (exec_trace _ _ _ Hexec) as (new2 & Ht2).
        exists (new2 ++ new1). split; [by rewrite Ht2, Ht1, app_assoc|].
        right. by apply IHs.
Qed.

(** X8.  [Recalculate] followed by [EnsureRecalculated] brings the tables
    up to date.  Let [Recalculate] be called, and let a caller [c], whose
    [done] the serializer does not hold at that moment, return from
    [EnsureRecalculated] afterwards.  If the topology has not changed since
    the call of [Recalculate], then the unicast tables are the ones
    [calculateUnicast] derives from the topology as it is, and every entry
    of the broadcast tables is what [calculateBroadcast] derives from it,
    whatever else happened in between; and this stays so for as long as the
    topology does not change. *)
Theorem ensure_recalculated_fresh (s0 s' : State) (c : nat)
    (sch : list Label) (new : list Event) :
  reachable s0 → callers s0 !! c ≠ Some CRecvDone →
  (∀ l, l ∈ sch → is_Topology l = false) →
  exec (LRecalculate :: sch) s0 = Some s' →
  trace s' = new ++ trace s0 → EvDone c ∈ new →
  up_to_date s'.
Proof.
  intros Hs0 Hc Hno Hexec Htr Hdone.
  apply exec_cons_Some in Hexec as (s1 & Hstep & Hexec).
  pose proof (reachable_step _ _ _ Hs0 Hstep) as Hs1.
  simpl in Hstep. injection Hstep as <-.
  destruct (barrier_exec c _ _ _ Hs1 Hno Hexec) as (_ & Hbar).
  destruct Hbar as (new' & Htr' & Hcase).
  { left. simpl. split; [|done].
    unfold Recalculate. by destruct (recalculate (routes s0)) eqn:E. }
  simpl in Htr'. rewrite Htr in Htr'. apply app_inv_tail in Htr' as ->.
  destruct Hcase as [(_ & Hnot)|(Hup & _)]; done.
Qed.

End freshness.
(** ** Progress of the serializer and of its callers *)

Section progress.

Context {PeerName : Type} `{Countable PeerName} `{!Collaborators PeerName}.

(** One statement of the serializer: it keeps working for the same caller,
    or it answers that caller and releases it; it takes up no caller away
    from its select. *)
Lemma run_serves (s s1 : State) :
  run s = Some s1 →
  steps_to_select s = S (steps_to_select s1) ∧
  topology s1 = topology s ∧
  match serves (pc s) with
  | Some (c, w) =>
      (serves (pc s1) = Some (c, w) ∧ callers s1 = callers s ∧
       ∃ new, trace s1 = new ++ trace s) ∨
      (serves (pc s1) = None ∧ callers s1 = delete c (callers s) ∧
       ∃ ev, answers c w ev ∧ trace s1 = ev :: trace s)
  | None =>
      serves (pc s1) = None ∧ callers s1 = callers s ∧
      ∃ new, trace s1 = new ++ trace s
  end.
Proof.
  intros Hrun. unfold steps_to_select.
  destruct s as [r t p cs tr]. unfold run in Hrun. simpl in *.
  destruct p; simpl in *; repeat case_match; simplify_eq/=.
  all: split_and!; try done; try lia.
  all: try (by eexists []).
  all: try (by eexists [_]).
  all: try (left; split_and!; [done|done|];
            first [by eexists [] | by eexists [_]]).
  all: right; split_and!; [done|done|].
  all: eexists; split; [|done]; simpl; eauto.
Qed.

(** From any control point the serializer reaches its select by its own
    statements, and the caller it was working for is answered and
    released. *)
Lemma run_to_select (n : nat) (s : State) :
  steps_to_select s = n →
  ∃ s' new,
    exec (replicate n LRun) s = Some s' ∧ pc s' = PSelect ∧
    topology s' = topology s ∧ trace s' = new ++ trace s ∧
    match serves (pc s) with
    | Some (c, w) =>
        callers s' = delete c (callers s) ∧ ∃ ev, answers c w ev ∧ ev ∈ new
    | None => callers s' = callers s
    end.
Proof.
  revert s. induction n as [|n IH]; intros s Hn.
  - exists s, []. unfold steps_to_select in Hn.
    destruct (pc s) eqn:Hpc; simpl in *; repeat case_match; try lia.
    done.
  - assert (pc s ≠ PSelect) as Hpc.
    { intros Hpc. unfold steps_to_select in Hn. by rewrite Hpc in Hn. }
    assert (is_Some (run s)) as [s1 Hrun].
    { unfold run. destruct (pc s); try done; repeat case_match; eauto. }
    destruct (run_serves _ _ Hrun) as (Hsteps & Htop & Hserves).
    destruct (IH s1) as (s' & new1 & Hexec & Hsel & Htop' & Htr & Hcall);
      [lia|].
    exists s'. simpl. rewrite Hrun.
    destruct (serves (pc s)) as [[c w]|].
    + destruct Hserves as [(Hs1 & Hc1 & new0 & Ht1)|(Hs1 & Hc1 & ev & Hev & Ht1)].
      * rewrite Hs1 in Hcall. destruct Hcall as (Hc' & ev & Hev & Hin).
        exists (new1 ++ new0). rewrite Htr, Ht1, app_assoc.
        split_and!; try congruence. exists ev. split; [done|].
        apply elem_of_app. by left.
      * rewrite Hs1 in Hcall.
        exists (new1 ++ [ev]). rewrite Htr, Ht1, <- app_assoc.
        split_and!; try (simpl; congruence). exists ev. split; [done|].
        apply elem_of_app. right. by left.
    + destruct Hserves as (Hs1 & Hc1 & new0 & Ht1).
      rewrite Hs1 in Hcall.
      exists (new1 ++ new0). rewrite Htr, Ht1, app_assoc.
      split_and!; congruence.
Qed.

(** X9.  The serializer always gets back to its select.  From any control
    point, [steps_to_select] statements of the serializer alone lead to
    the outer select of [run], every callback being taken to return (its
    invocation is one transition); on the way the caller whose [done] or
    closure it had received gets its answer ([done] is closed, or the
    result is sent) and is released, and no other caller is touched. *)
Theorem serializer_returns_to_select (s : State) :
  ∃ s' new,
    exec (replicate (steps_to_select s) LRun) s = Some s' ∧
    pc s' = PSelect ∧ trace s' = new ++ trace s ∧
    match serves (pc s) with
    | Some (c, w) =>
        callers s' = delete c (callers s) ∧ ∃ ev, answers c w ev ∧ ev ∈ new
    | None => callers s' = callers s
    end.
Proof.
  destruct (run_to_select _ s eq_refl)
    as (s' & new & Hexec & Hsel & _ & Htr & Hcall).
  by exists s', new.
Qed.

Lemma serializer_only_replicate (n : nat) :
  serializer_only (replicate n LRun).
Proof. apply Forall_replicate. done. Qed.

(** X10.  No caller stays blocked when the serializer runs.  From every
    reachable state, for every caller blocked in [EnsureRecalculated] or in
    [Broadcast]/[BroadcastAll], there is a schedule of the serializer
    alone after which that caller has its answer ([done] closed for it, or
    a list returned to it for the name and table it asked for) and is no
    longer blocked. *)
Theorem blocked_caller_is_served (s : State) (c : nat)
    (w : Caller (PeerName:=PeerName)) :
  reachable s → callers s !! c = Some w →
  ∃ sch s' new,
    serializer_only sch ∧ exec sch s = Some s' ∧
    trace s' = new ++ trace s ∧ pc s' = PSelect ∧
    callers s' !! c = None ∧ ∃ ev, answers c w ev ∧ ev ∈ new.
Proof.
  intros Hs Hc.
  destruct (receive c w) as [l|] eqn:Hl.
  - destruct (run_to_select _ s eq_refl)
      as (s1 & new1 & Hexec1 & Hsel1 & _ & Htr1 & Hcall1).
    assert (callers s1 !! c = Some w) as Hc1.
    { destruct (serves (pc s)) as [[c' w']|] eqn:Hserves; [|congruence].
      destruct Hcall1 as (-> & _).
      rewrite lookup_delete_ne; [done|]. intros ->.
      rewrite (served_reachable _ Hs _ _ Hserves) in Hc.
      injection Hc as <-.
      destruct (pc s); simpl in Hserves; repeat case_match;
        simplify_eq/=. }
    assert (∃ s2 w2, step l s1 = Some s2 ∧ serves (pc s2) = Some (c, w2) ∧
                     trace s2 = trace s1 ∧
                     (∀ ev, answers c w2 ev → answers c w ev))
      as (s2 & w2 & Hstep & Hserves2 & Htr2 & Hans).
    { destruct w; simplify_eq/=;
        unfold run_recv_wait, run_recv_action; rewrite Hsel1, Hc1;
        eexists _, _; simpl; split_and!; eauto. }
    destruct (run_to_select _ s2 eq_refl)
      as (s3 & new3 & Hexec3 & Hsel3 & _ & Htr3 & Hcall3).
    rewrite Hserves2 in Hcall3. destruct Hcall3 as (Hc3 & ev & Hev & Hin).
    exists (replicate (steps_to_select s) LRun ++
            l :: replicate (steps_to_select s2) LRun), s3, (new3 ++ new1).
    split_and!.
    + apply Forall_app. split; [apply serializer_only_replicate|].
      constructor; [|apply serializer_only_replicate].
      destruct w; simpl in Hl; by simplify_eq.
    + apply exec_app_Some. exists s1. split; [done|].
      apply exec_cons_Some. by exists s2.
    + by rewrite Htr3, Htr2, Htr1, app_assoc.
    + done.
    + rewrite Hc3. apply lookup_delete_eq.
    + exists ev. split; [by apply Hans|]. apply elem_of_app. by left.
  - pose proof (serving_reachable _ Hs _ _ Hc Hl) as Hserves.
    destruct (run_to_select _ s eq_refl)
      as (s1 & new1 & Hexec1 & Hsel1 & _ & Htr1 & Hcall1).
    rewrite Hserves in Hcall1. destruct Hcall1 as (Hc1 & ev & Hev & Hin).
    exists (replicate (steps_to_select s) LRun), s1, new1.
    split_and!; try done.
    + apply serializer_only_replicate.
    + rewrite Hc1. apply lookup_delete_eq.
    + by exists ev.
Qed.

(** X11.  One caller at a time.  In every reachable state, a caller whose
    [done] or whose closure the serializer has received is the caller the
    serializer's current statement works for; so at most one caller is in
    that position. *)
Theorem one_caller_served (s : State) (c1 c2 : nat)
    (w1 w2 : Caller (PeerName:=PeerName)) :
  reachable s →
  callers s !! c1 = Some w1 → receive c1 w1 = None →
  callers s !! c2 = Some w2 → receive c2 w2 = None →
  c1 = c2 ∧ serves (pc s) = Some (c1, w1).
Proof.
  intros Hs Hc1 Hr1 Hc2 Hr2.
  pose proof (serving_reachable _ Hs _ _ Hc1 Hr1) as H1.
  pose proof (serving_reachable _ Hs _ _ Hc2 Hr2) as H2.
  split; congruence.
Qed.

Lemma serializer_clears (sch : list Label) (s s' : State) :
  serializer_only sch → exec sch s = Some s' →
  recalculate (routes s') = true → recalculate (routes s) = true.
Proof.
  revert s. induction sch as [|l sch IH]; intros s Hsch Hexec Hsig.
  - by injection Hexec as <-.
  - apply exec_cons_Some in Hexec as (s1 & Hstep & Hexec).
    apply list.Forall_cons in Hsch as (Hl & Hsch).
    specialize (IH _ Hsch Hexec Hsig). clear - Hl Hstep IH.
    step_cases Hstep; simpl in *; try done; try congruence.
    match goal with ptr : BroadcastPtr |- _ => by destruct ptr end.
Qed.

Lemma serializer_only_topology (sch : list Label) :
  serializer_only sch → ∀ l, l ∈ sch → is_Topology l = false.
Proof.
  intros Hsch l Hl. unfold serializer_only in Hsch.
  rewrite list.Forall_forall in Hsch. specialize (Hsch _ Hl).
  by destruct l.
Qed.

(** X12.  A pending request is served.  From every reachable state in
    which a signal is pending, there is a schedule of the serializer alone
    that leads it back to its select with no signal pending, [calculate]
    called, and the tables up to date with the topology. *)
Theorem pending_request_is_served (s : State) :
  reachable s → recalculate (routes s) = true →
  ∃ sch s' new,
    serializer_only sch ∧ exec sch s = Some s' ∧
    trace s' = new ++ trace s ∧ EvCalculate ∈ new ∧
    pc s' = PSelect ∧ recalculate (routes s') = false ∧ up_to_date s'.
Proof.
  intros Hs Hsig.
  assert (∃ sch s', serializer_only sch ∧ exec sch s = Some s' ∧
                    pc s' = PSelect ∧ recalculate (routes s') = false)
    as (sch & s' & Hsch & Hexec & Hsel & Hsig').
  { destruct (run_to_select _ s eq_refl)
      as (s1 & new1 & Hexec1 & Hsel1 & _).
    destruct (recalculate (routes s1)) eqn:Hsig1.
    - assert (∃ s2, step LRecvRecalculate s1 = Some s2 ∧
                    recalculate (routes s2) = false) as (s2 & Hstep & Hsig2).
      { simpl. unfold run_recv_recalculate. rewrite Hsel1, Hsig1. eauto. }
      destruct (run_to_select _ s2 eq_refl)
        as (s3 & new3 & Hexec3 & Hsel3 & _).
      exists (replicate (steps_to_select s) LRun ++
              LRecvRecalculate :: replicate (steps_to_select s2) LRun), s3.
      split_and!; try done.
      + apply Forall_app. split; [apply serializer_only_replicate|].
        constructor; [done|apply serializer_only_replicate].
      + apply exec_app_Some. exists s1. split; [done|].
        apply exec_cons_Some. by exists s2.
      + destruct (recalculate (routes s3)) eqn:Hsig3; [|done].
        rewrite <- Hsig2. symmetry.
        eapply serializer_clears; [apply serializer_only_replicate|done..].
    - exists (replicate (steps_to_select s) LRun), s1.
      split_and!; try done. apply serializer_only_replicate. }
  destruct (exec_trace _ _ _ Hexec) as (new & Htr).
  exists sch, s', new. split_and!; try done.
  - destruct (exec_request _ _ _ Hexec)
      as (new' & Htr' & _ & Hkept).
    rewrite Htr in Htr'. apply app_inv_tail in Htr' as <-.
    destruct (Hkept Hsig); [congruence|done].
  - set (c := fresh (dom (callers s))).
    assert (callers s !! c = None) as Hc.
    { apply not_elem_of_dom. apply is_fresh. }
    destruct (barrier_exec c _ _ _ Hs (serializer_only_topology _ Hsch) Hexec)
      as (_ & Hbar).
    destruct Hbar as (new' & _ & [(Howed & _)|(Hup & _)]); [|exfalso|done].
    + left. split; [done|]. by rewrite Hc.
    + destruct Howed as [(? & _)|(k & [?|?] & _)]; congruence.
Qed.

End progress.
(** ** How many neighbours the sampler returns *)

Section sampler_exact.

Context {PeerName : Type} `{Countable PeerName} `{!Collaborators PeerName}.

(** The loop visits every entry, unless it stops because it holds [count]
    destinations, and then it holds at least one. *)
Lemma RandomNeighbours_loop_exact (count : Z) (except : PeerName)
    (entries : list (PeerName * PeerName)) (destinations : gset PeerName) :
  RandomNeighbours_loop count except entries destinations =
    destinations ∪
    list_to_set (filter (λ dst, dst ≠ UnknownPeerName ∧ dst ≠ except)
                   (entries.*2)) ∨
  ((count ≤
      Z.of_nat (size (RandomNeighbours_loop count except entries
                        destinations)))%Z ∧
   1 ≤ size (RandomNeighbours_loop count except entries destinations)).
Proof.
  revert destinations.
  induction entries as [|[k dst] entries IH]; intros destinations; simpl.
  - left. set_solver.
  - rewrite filter_cons. simpl. case_decide.
    + case_decide.
      * right. split; [done|].
        assert (size ({[dst]} ∪ destinations) ≠ 0); [|lia].
        apply size_non_empty_iff. set_solver.
      * destruct (IH ({[dst]} ∪ destinations)) as [->|?]; [left|by right].
        set_solver.
    + apply IH.
Qed.

(** X13.  The sampler returns exactly
    [min (max 1 (floor (log2 peerCount))) distinctNeighbours] names,
    whatever order the map iteration yields the entries in; and when the
    table offers no more distinct neighbours than that, it returns all of
    them. *)
Theorem sampler_exact (r : Routes) (except : PeerName)
    (entries : list (PeerName * PeerName)) (res : list PeerName) :
  entries ≡ₚ map_to_list (unicastAll r) →
  res ≡ₚ RandomNeighbours r except entries →
  Z.of_nat (length res) =
    Z.min (Z.max 1 (log2_count (size (unicastAll r))))
          (Z.of_nat (size (eligible (unicastAll r) except))) ∧
  ((Z.of_nat (size (eligible (unicastAll r) except)) ≤
      Z.max 1 (log2_count (size (unicastAll r))))%Z →
   ∀ x, x ∈ res ↔ x ∈ eligible (unicastAll r) except).
Proof.
  intros Hperm Hres. unfold RandomNeighbours in Hres.
  set (count := log2_count (size (unicastAll r))) in *.
  pose proof (RandomNeighbours_loop_subset count except entries ∅) as Hsub.
  pose proof (RandomNeighbours_loop_size count except entries ∅) as Hsz.
  pose proof (RandomNeighbours_loop_exact count except entries ∅) as Hex.
  rewrite (eligible_permutation _ _ entries) in Hsub, Hex by done.
  rewrite (left_id_L ∅ (∪)) in Hsub, Hex. rewrite size_empty in Hsz.
  set (found := RandomNeighbours_loop count except entries ∅) in *.
  assert (length res = size found) as Hlen.
  { rewrite Hres. done. }
  pose proof (subseteq_size _ _ Hsub) as Hle.
  assert (Z.of_nat (size found) =
          Z.min (Z.max 1 count)
                (Z.of_nat (size (eligible (unicastAll r) except)))) as Hexact.
  { destruct Hex as [Hall|(Hcount & Hone)]; [rewrite <- Hall|]; lia. }
  split; [by rewrite Hlen|].
  intros Hfew x. rewrite Hres, elem_of_elements.
  assert (found = eligible (unicastAll r) except) as ->; [|done].
  apply set_subseteq_size_eq; [done|]. lia.
Qed.

End sampler_exact.

(** ** The provider as the specification describes it *)

Section described_facts.

Context {PeerName : Type} `{Countable PeerName}.

Implicit Types t : gmap PeerName (gmap PeerName bool).
Implicit Types table : gmap PeerName PeerName.

(** Entries of the table are never overwritten. *)
Lemma offer_lookup (source p hop q k v : PeerName) table :
  table !! k = Some v → offer source p hop table q !! k = Some v.
Proof.
  intros Hk. unfold offer. destruct (table !! q) eqn:Hq; [done|].
  rewrite lookup_insert_ne; [done|]. intros ->. congruence.
Qed.

Lemma visit_lookup t (e : bool) (source k v : PeerName) table
    (entry : PeerName * PeerName) :
  table !! k = Some v → visit t e source table entry !! k = Some v.
Proof.
  unfold visit. generalize (neighbours t e entry.1). intros l. revert table.
  induction l as [|q l IH]; intros table Hk; simpl; [done|].
  apply IH. by apply offer_lookup.
Qed.

Lemma round_lookup t (e : bool) (source k v : PeerName) table :
  table !! k = Some v → round t e source table !! k = Some v.
Proof.
  unfold round. generalize (map_to_list table) at 1. intros l. revert table.
  induction l as [|entry l IH]; intros table Hk; simpl; [done|].
  apply IH. by apply visit_lookup.
Qed.

Lemma rounds_lookup (n : nat) t (e : bool) (source k v : PeerName) table :
  table !! k = Some v → rounds n t e source table !! k = Some v.
Proof.
  revert table. induction n as [|n IH]; intros table Hk; simpl; [done|].
  apply IH. by apply round_lookup.
Qed.

(** The source's own entry of the described table is the unknown name. *)
Lemma described_Routes_self (unknown : PeerName) t (p : PeerName)
    (stopAt : option PeerName) (e : bool) :
  (described_Routes unknown t p stopAt e).2 !! p = Some unknown.
Proof.
  unfold described_Routes. simpl. apply rounds_lookup.
  apply lookup_singleton_eq.
Qed.

(** The keys after one round: the keys before, and the neighbours of the
    keys before. *)
Lemma elem_of_dom_offer (source p hop q x : PeerName) table :
  x ∈ dom (offer source p hop table q) ↔ x = q ∨ x ∈ dom table.
Proof.
  unfold offer. destruct (table !! q) eqn:Hq.
  - split; [by right|]. intros [->|?]; [|done]. apply elem_of_dom. eauto.
  - rewrite dom_insert. set_solver.
Qed.

Lemma elem_of_dom_visit t (e : bool) (source x : PeerName) table
    (entry : PeerName * PeerName) :
  x ∈ dom (visit t e source table entry) ↔
  x ∈ neighbours t e entry.1 ∨ x ∈ dom table.
Proof.
  unfold visit. generalize (neighbours t e entry.1). intros l. revert table.
  induction l as [|q l IH]; intros table; simpl.
  - split; [by right|]. intros [Hx|?]; [|done]. by apply elem_of_nil in Hx.
  - rewrite IH, elem_of_dom_offer, elem_of_cons. tauto.
Qed.

Lemma elem_of_dom_visits t (e : bool) (source x : PeerName) table
    (l : list (PeerName * PeerName)) :
  x ∈ dom (foldl (visit t e source) table l) ↔
  x ∈ dom table ∨ ∃ entry, entry ∈ l ∧ x ∈ neighbours t e entry.1.
Proof.
  revert table. induction l as [|entry l IH]; intros table; simpl.
  - split; [by left|]. intros [?|(? & Hin & _)]; [done|].
    by apply elem_of_nil in Hin.
  - rewrite IH, elem_of_dom_visit. split.
    + intros [[?|?]|(entry' & ? & ?)]; eauto.
      * right. exists entry. split; [by left|done].
      * right. exists entry'. split; [by right|done].
    + intros [?|(entry' & Hin & ?)]; [by eauto|].
      apply elem_of_cons in Hin as [->|?]; eauto.
Qed.

Lemma elem_of_dom_round t (e : bool) (source x : PeerName) table :
  x ∈ dom (round t e source table) ↔
  x ∈ dom table ∨ ∃ p, p ∈ dom table ∧ x ∈ neighbours t e p.
Proof.
  unfold round. rewrite elem_of_dom_visits. split.
  - intros [?|([p hop] & Hin & ?)]; [by left|]. right. exists p.
    split; [|done]. apply elem_of_map_to_list in Hin.
    apply elem_of_dom. eauto.
  - intros [?|(p & Hp & ?)]; [by left|]. right.
    apply elem_of_dom in Hp as [hop Hp]. exists (p, hop).
    split; [|done]. by apply elem_of_map_to_list.
Qed.

(** A connection that passes the established-and-symmetric filter passes
    the all-connections filter. *)
Lemma passes_all t (p q : PeerName) :
  passes t true p q = true → passes t false p q = true.
Proof. unfold passes. by destruct (connections t p !! q). Qed.

Lemma neighbours_all t (p x : PeerName) :
  x ∈ neighbours t true p → x ∈ neighbours t false p.
Proof.
  unfold neighbours. rewrite !list_elem_of_filter.
  intros [? ?]. split; [by apply passes_all|done].
Qed.

Lemma rounds_all (n : nat) t (source : PeerName) table1 table2 :
  dom table1 ⊆ dom table2 →
  dom (rounds n t true source table1) ⊆ dom (rounds n t false source table2).
Proof.
  revert table1 table2. induction n as [|n IH]; intros table1 table2 Hsub.
  - done.
  - simpl. apply IH. intros x. rewrite !elem_of_dom_round.
    intros [?|(p & ? & ?)]; [left; by apply Hsub|].
    right. exists p. split; [by apply Hsub|by apply neighbours_all].
Qed.

Lemma described_Routes_all (unknown : PeerName) t (p : PeerName)
    (stopAt : option PeerName) :
  dom (described_Routes unknown t p stopAt true).2 ⊆
  dom (described_Routes unknown t p stopAt false).2.
Proof. unfold described_Routes. simpl. by apply rounds_all. Qed.

Lemma described_Routes_found (unknown : PeerName) t (p : PeerName)
    (stopAt : option PeerName) :
  (described_Routes unknown t p stopAt true).1 = true →
  (described_Routes unknown t p stopAt false).1 = true.
Proof.
  pose proof (described_Routes_all unknown t p stopAt) as Hsub.
  unfold described_Routes in *. simpl in *. destruct stopAt as [s|]; [|done].
  rewrite !bool_decide_eq_true. rewrite <- !elem_of_dom. apply Hsub.
Qed.

(** The described table holds exactly the peers reachable from its
    source: the number of rounds is enough. *)
Lemma elem_of_neighbours t (e : bool) (p x : PeerName) :
  x ∈ neighbours t e p ↔ passes t e p x = true.
Proof.
  unfold neighbours. rewrite list_elem_of_filter, elem_of_elements.
  split; [by intros [? _]|]. intros Hp. split; [done|].
  unfold passes in Hp. apply elem_of_dom.
  destruct (connections t p !! x); [eauto|done].
Qed.

Lemma neighbours_mentioned t (e : bool) (p x : PeerName) :
  x ∈ neighbours t e p → x ∈ mentioned t.
Proof.
  rewrite elem_of_neighbours. unfold passes, connections, mentioned.
  destruct (t !! p) as [cs|] eqn:Hp; simpl; [|by rewrite lookup_empty].
  intros Hx. apply elem_of_union. right. apply elem_of_union_list.
  exists (dom cs). split.
  - apply list_elem_of_fmap. exists cs. split; [done|].
    apply list_elem_of_fmap. exists (p, cs). split; [done|].
    by apply elem_of_map_to_list.
  - apply elem_of_dom. destruct (cs !! x); [eauto|done].
Qed.

Lemma rounds_round (n : nat) t (e : bool) (source : PeerName) table :
  rounds n t e source (round t e source table) =
  round t e source (rounds n t e source table).
Proof.
  revert table. induction n as [|n IH]; intros table; simpl; [done|].
  by rewrite IH.
Qed.

Lemma rounds_sound (n : nat) t (e : bool) (source x : PeerName) table :
  (∀ y, y ∈ dom table → reaches t e source y) →
  x ∈ dom (rounds n t e source table) → reaches t e source x.
Proof.
  revert table. induction n as [|n IH]; intros table Htable; simpl.
  - apply Htable.
  - apply IH. intros y. rewrite elem_of_dom_round.
    intros [?|(p & Hp & Hy)]; [by apply Htable|].
    apply (reaches_next _ _ _ p); [by apply Htable|].
    by apply elem_of_neighbours.
Qed.

Lemma rounds_within (n : nat) t (e : bool) (source : PeerName) table :
  dom table ⊆ {[ source ]} ∪ mentioned t →
  dom (rounds n t e source table) ⊆ {[ source ]} ∪ mentioned t.
Proof.
  revert table. induction n as [|n IH]; intros table Htable; simpl; [done|].
  apply IH. intros y. rewrite elem_of_dom_round.
  intros [?|(p & Hp & Hy)]; [by apply Htable|].
  apply elem_of_union. right. by eapply neighbours_mentioned.
Qed.

(** After [k] rounds the table is saturated or holds more than [k] keys. *)
Lemma rounds_progress (k : nat) t (e : bool) (source unknown : PeerName) :
  let table := rounds k t e source {[ source := unknown ]} in
  dom (round t e source table) ⊆ dom table ∨ k + 1 ≤ size (dom table).
Proof.
  induction k as [|k IH]; simpl.
  - right. by rewrite dom_singleton_L, size_singleton.
  - simpl in IH. rewrite rounds_round.
    set (table := rounds k t e source {[ source := unknown ]}) in *.
    destruct (decide (dom (round t e source table) ⊆ dom table))
      as [Hsat|Hmore].
    + left. intros y Hy.
      apply elem_of_dom_round in Hy as [Hy|(p & Hp & Hy)]; [done|].
      apply Hsat in Hp. apply elem_of_dom_round. right. eauto.
    + right. destruct IH as [?|Hsize]; [done|].
      assert (dom table ⊂ dom (round t e source table)) as Hstrict.
      { split; [|done]. intros y Hy. apply elem_of_dom_round. by left. }
      apply subset_size in Hstrict. lia.
Qed.

Lemma rounds_saturated t (e : bool) (source unknown p x : PeerName) :
  let table := rounds (size (mentioned t)) t e source {[ source := unknown ]} in
  p ∈ dom table → x ∈ neighbours t e p → x ∈ dom table.
Proof.
  intros table Hp Hx.
  assert (dom table ⊆ {[ source ]} ∪ mentioned t) as Hin.
  { apply rounds_within. rewrite dom_singleton_L. set_solver. }
  destruct (rounds_progress (size (mentioned t)) t e source unknown)
    as [Hsat|Hsize]; [fold table in Hsat|fold table in Hsize].
  - apply Hsat. apply elem_of_dom_round. eauto.
  - assert (size ({[ source ]} ∪ mentioned t) ≤ size (mentioned t) + 1).
    { rewrite size_union_alt, size_singleton.
      assert (size (mentioned t ∖ {[ source ]}) ≤ size (mentioned t))
        by (apply subseteq_size; set_solver).
      lia. }
    assert (dom table = {[ source ]} ∪ mentioned t) as ->.
    { apply set_subseteq_size_eq; [done|lia]. }
    apply elem_of_union. right. by eapply neighbours_mentioned.
Qed.

Lemma described_Routes_reaches (unknown : PeerName) t (source : PeerName)
    (stopAt : option PeerName) (e : bool) (x : PeerName) :
  x ∈ dom (described_Routes unknown t source stopAt e).2 ↔
  reaches t e source x.
Proof.
  unfold described_Routes. simpl. split.
  - apply rounds_sound. intros y. rewrite dom_singleton_L.
    intros ->%elem_of_singleton. constructor.
  - induction 1 as [|q q' _ IH Hq].
    + apply elem_of_dom. exists unknown. apply rounds_lookup.
      apply lookup_singleton_eq.
    + eapply rounds_saturated; [exact IH|]. by apply elem_of_neighbours.
Qed.

Lemma described_Routes_finds (unknown : PeerName) t (source s : PeerName)
    (e : bool) :
  (described_Routes unknown t source (Some s) e).1 = true ↔
  reaches t e source s.
Proof.
  rewrite <- (described_Routes_reaches unknown t source (Some s) e s).
  unfold described_Routes. simpl.
  by rewrite bool_decide_eq_true, elem_of_dom.
Qed.

Variables (unknown zero : PeerName).
Variable enumerate :
  gmap PeerName (gmap PeerName bool) → PeerName → bool →
  gmap PeerName PeerName → list PeerName.

#[local] Instance described_provider : Collaborators PeerName :=
  described unknown zero enumerate.

(** C1.  Self-entry invariant, with the provider as the specification
    describes it.  In every reachable state the unicast and unicastAll
    tables map the local peer's name to the unknown name, the broadcast and
    broadcastAll tables hold an entry for it, no caller, control point or
    event of the lazy fill is ever for the local peer's name, and a
    [Broadcast] or [BroadcastAll] call for it returns on the fast path. *)
Theorem self_entry_invariant (s : State) :
  reachable s →
  self_unicast (routes s) ∧ self_broadcast (routes s) ∧
  never_lazy_for_self s ∧
  (∀ c, callers s !! c = None →
     (∃ hops, Broadcast c (Name (ourself (routes s))) s =
              Some (emit (EvReturn c PtrBroadcast
                            (Name (ourself (routes s))) hops) s)) ∧
     (∃ hops, BroadcastAll c (Name (ourself (routes s))) s =
              Some (emit (EvReturn c PtrBroadcastAll
                            (Name (ourself (routes s))) hops) s))).
Proof.
  intros Hs.
  destruct (self_broadcast_invariant s Hs) as ((Hb & Hba) & _ & Hlazy).
  destruct (self_unicast_reachable s) as (Hu & _); [|done|].
  { intros t p e. apply described_Routes_self. }
  split_and!; try done. intros c Hc.
  unfold Broadcast, BroadcastAll, lookupOrCalculate. rewrite Hc.
  unfold deref. destruct Hb as [hops Hb], Hba as [hopsAll Hba].
  rewrite Hb, Hba. eauto.
Qed.

(** C7.  Filter monotonicity, with the provider as the specification
    describes it.  In every reachable state the destinations of the unicast
    table are destinations of the unicastAll table.  On every topology, the
    keys of the unicast table derived under the established-and-symmetric
    filter are keys of the one derived under the all-connections filter;
    and for every source peer, the reachability set that constrains the
    broadcast result under the first filter is included in the one under
    the second, and the local peer is found under the second whenever it is
    under the first. *)
Theorem filter_monotonicity (s : State) :
  reachable s →
  dom (unicast (routes s)) ⊆ dom (unicastAll (routes s)) ∧
  (∀ (t : Topology) (peer : Peer),
     dom (calculateUnicast t (routes s) true) ⊆
       dom (calculateUnicast t (routes s) false) ∧
     dom (Peer_Routes t peer (Some (ourself (routes s))) true).2 ⊆
       dom (Peer_Routes t peer (Some (ourself (routes s))) false).2 ∧
     ((Peer_Routes t peer (Some (ourself (routes s))) true).1 = true →
      (Peer_Routes t peer (Some (ourself (routes s))) false).1 = true)).
Proof.
  intros Hs. split.
  - apply unicast_within_all; [|done].
    intros t p. apply described_Routes_all.
  - intros t peer. split_and!.
    + apply described_Routes_all.
    + apply described_Routes_all.
    + apply described_Routes_found.
Qed.

End described_facts.

(** ** The properties on a concrete mesh *)

(** Evaluation in the virtual machine: of both sides of an equation, and of
    a decidable proposition. *)
Ltac vm_refl :=
  match goal with
  | |- @eq ?T ?a ?b => vm_cast_no_check (@eq_refl T a)
  end.

Ltac vm_decide := apply (bool_decide_unpack _); vm_compute; exact I.

Section concrete.

Import Mesh.

Lemma after_reachable (ls : list Label) :
  is_Some (exec ls fresh) → reachable (after ls).
Proof.
  intros [s Hs]. unfold after. rewrite Hs. simpl.
  eexists _, _, _, ls. exact Hs.
Qed.

Lemma env_only_Forall (ls : list Label) :
  Forall (λ l, env_label l = true) ls → env_only ls.
Proof.
  intros Hall x Hx. rewrite list.Forall_forall in Hall. by apply Hall.
Qed.

Lemma no_Recalculate_Forall (ls : list Label) :
  Forall (λ l, is_Recalculate l = false) ls →
  ∀ l, l ∈ ls → is_Recalculate l = false.
Proof.
  intros Hall x Hx. rewrite list.Forall_forall in Hall. by apply Hall.
Qed.

Lemma no_replace_Forall (tr : list Event) :
  Forall (λ ev, is_replace ev = false) tr → no_replace tr.
Proof.
  intros Hall x Hx. rewrite list.Forall_forall in Hall. by apply Hall.
Qed.

(** C1 at the state where the cache holds an entry for peer 1. *)
Lemma self_entry_invariant_witness :
  let s := after fill_1 in
  reachable s ∧
  (self_unicast (routes s) ∧ self_broadcast (routes s) ∧
   never_lazy_for_self s ∧
   (∀ c, callers s !! c = None →
      (∃ hops, Broadcast c (Name (ourself (routes s))) s =
               Some (emit (EvReturn c PtrBroadcast
                             (Name (ourself (routes s))) hops) s)) ∧
      (∃ hops, BroadcastAll c (Name (ourself (routes s))) s =
               Some (emit (EvReturn c PtrBroadcastAll
                             (Name (ourself (routes s))) hops) s)))).
Proof.
  assert (reachable (after fill_1)) as Hreach.
  { apply after_reachable. vm_decide. }
  split; [exact Hreach|].
  exact (self_entry_invariant 0%N 0%N enumerate (after fill_1) Hreach).
Defined.

(** C2 for two calls for peer 1: caller 7 misses the cache, caller 8 comes
    after the fill. *)
Lemma broadcast_cache_coherence_witness :
  let s := after (fill_1 ++ [LBroadcast 8 1%N]) in
  let t2 := [EvStore PtrBroadcast 1%N [3%N]] in
  let t1 := [EvCalculateBroadcast PtrBroadcast 1%N [3%N]] in
  (reachable s ∧
   trace s = [] ++ EvReturn 8 PtrBroadcast 1%N [3%N] :: t2 ++
             EvReturn 7 PtrBroadcast 1%N [3%N] :: t1 ∧
   no_replace t2) ∧
  ([3%N] = [3%N] ∧
   ∀ hops, EvCalculateBroadcast PtrBroadcast 1%N hops ∉ t2).
Proof.
  assert (reachable (after (fill_1 ++ [LBroadcast 8 1%N]))) as Hreach.
  { apply after_reachable. vm_decide. }
  assert (trace (after (fill_1 ++ [LBroadcast 8 1%N])) =
          [] ++ EvReturn 8 PtrBroadcast 1%N [3%N] ::
          [EvStore PtrBroadcast 1%N [3%N]] ++
          EvReturn 7 PtrBroadcast 1%N [3%N] ::
          [EvCalculateBroadcast PtrBroadcast 1%N [3%N]]) as Htrace.
  { vm_refl. }
  assert (no_replace [EvStore PtrBroadcast 1%N [3%N]]) as Hno.
  { apply no_replace_Forall. by repeat constructor. }
  split; [by split_and!|].
  exact (broadcast_cache_coherence _ 7 8 PtrBroadcast 1%N _ _ _ _ _
           Hreach Htrace Hno).
Defined.

(** C5 on the tables a recalculation derives for the chain, excluding
    peer 3. *)
Lemma sampler_bound_witness :
  let r := routes (after recalculation) in
  let entries := map_to_list (unicastAll r) in
  let res := RandomNeighbours r 3%N entries in
  (unicastAll r !! Name (ourself r) = Some UnknownPeerName ∧
   entries ≡ₚ map_to_list (unicastAll r) ∧
   res ≡ₚ RandomNeighbours r 3%N entries) ∧
  (NoDup res ∧
   (0 ≤ Z.of_nat (length res) ≤
      Z.min (log2_count (size (unicastAll r)))
            (Z.of_nat (size (eligible (unicastAll r) 3%N))))%Z ∧
   (∀ x, x ∈ res →
         x ≠ 3%N ∧ x ≠ UnknownPeerName ∧
         x ∈ eligible (unicastAll r) 3%N)).
Proof.
  set (r := routes (after recalculation)).
  assert (unicastAll r !! Name (ourself r) = Some UnknownPeerName) as Hself.
  { vm_refl. }
  split; [by split_and!|].
  exact (sampler_bound r 3%N _ _ Hself (reflexivity _) (reflexivity _)).
Defined.

(** C7 on the tables a recalculation derives for the chain. *)
Lemma filter_monotonicity_witness :
  let s := after recalculation in
  reachable s ∧
  (dom (unicast (routes s)) ⊆ dom (unicastAll (routes s)) ∧
   (∀ (t : Topology) (peer : Peer),
      dom (calculateUnicast t (routes s) true) ⊆
        dom (calculateUnicast t (routes s) false) ∧
      dom (Peer_Routes t peer (Some (ourself (routes s))) true).2 ⊆
        dom (Peer_Routes t peer (Some (ourself (routes s))) false).2 ∧
      ((Peer_Routes t peer (Some (ourself (routes s))) true).1 = true →
       (Peer_Routes t peer (Some (ourself (routes s))) false).1 = true))).
Proof.
  assert (reachable (after recalculation)) as Hreach.
  { apply after_reachable. vm_decide. }
  split; [exact Hreach|].
  exact (filter_monotonicity 0%N 0%N enumerate (after recalculation) Hreach).
Defined.

(** C8 at a state where the closure computed the entry of peer 1 twice,
    once before and once after a recalculation. *)
Lemma lazy_fill_once_witness :
  let s := after (fill_1 ++ recalculation ++
                  [LBroadcast 8 1%N; LRecvAction 8; LRun; LRun]) in
  reachable s ∧
  ((∀ hops1 hops2 t1 t2 t3,
      trace s = t3 ++ EvCalculateBroadcast PtrBroadcast 1%N hops2 :: t2 ++
                EvCalculateBroadcast PtrBroadcast 1%N hops1 :: t1 →
      ∃ snapshot, EvReplace snapshot ∈ t2) ∧
   (∀ l s' hops,
      step l s = Some s' →
      trace s' = EvCalculateBroadcast PtrBroadcast 1%N hops :: trace s →
      l = LRun ∧ (∃ c e, pc s = PCompute c 1%N PtrBroadcast e) ∧
      deref PtrBroadcast (routes s) !! 1%N = None)).
Proof.
  assert (reachable (after (fill_1 ++ recalculation ++
            [LBroadcast 8 1%N; LRecvAction 8; LRun; LRun]))) as Hreach.
  { apply after_reachable. vm_decide. }
  split; [exact Hreach|].
  exact (lazy_fill_once _ PtrBroadcast 1%N Hreach).
Defined.

(** C10 for caller 7 asking for peer 1, while peer 1 leaves, caller 8 asks
    too and a callback is registered. *)
Lemma lazy_fill_stores_reply_witness :
  let env1 := [LTopology without_1; LBroadcast 8 1%N] in
  let env2 := [LOnChange (callback 1)] in
  let s := after [LBroadcast 7 1%N; LRecvAction 7; LRun] in
  ∃ s1 s2 s3,
    (reachable s ∧ pc s = PCompute 7 1%N PtrBroadcast true ∧
     env_only env1 ∧ exec (LRun :: env1) s = Some s1 ∧
     env_only env2 ∧ exec (LRun :: env2) s1 = Some s2 ∧
     run s2 = Some s3) ∧
    (let hops := calculateBroadcast (topology s) (routes s) 1%N true in
     (∃ new1 new2,
        trace s2 = new2 ++ EvReturn 7 PtrBroadcast 1%N hops :: new1 ++
                   EvCalculateBroadcast PtrBroadcast 1%N hops :: trace s) ∧
     deref PtrBroadcast (routes s2) !! 1%N = None ∧
     trace s3 = EvStore PtrBroadcast 1%N hops :: trace s2 ∧
     deref PtrBroadcast (routes s3) !! 1%N = Some hops ∧
     (∀ c' e', callers s3 !! c' = None →
        lookupOrCalculate c' 1%N PtrBroadcast e' s3 =
        Some (emit (EvReturn c' PtrBroadcast 1%N hops) s3))).
Proof.
  set (env1 := [LTopology without_1; LBroadcast 8 1%N]).
  set (env2 := [LOnChange (callback 1)]).
  set (s := after [LBroadcast 7 1%N; LRecvAction 7; LRun]).
  assert (reachable s) as Hreach.
  { apply after_reachable. vm_decide. }
  assert (pc s = PCompute 7 1%N PtrBroadcast true) as Hpc.
  { vm_refl. }
  assert (env_only env1) as Henv1.
  { apply env_only_Forall. by repeat constructor. }
  assert (env_only env2) as Henv2.
  { apply env_only_Forall. by repeat constructor. }
  assert (is_Some (exec (LRun :: env1) s)) as [s1 Hexec1].
  { vm_decide. }
  assert (is_Some (exec (LRun :: env2) s1)) as [s2 Hexec2].
  { apply exec_cons_Some in Hexec1 as (sa & Hstep1 & Hexec1).
    apply env_exec in Hexec1 as (Hp1 & _); [|done].
    simpl in Hstep1. unfold run in Hstep1. rewrite Hpc in Hstep1.
    injection Hstep1 as <-. simpl. unfold run. rewrite Hp1. simpl.
    unfold OnChange. simpl. eauto. }
  assert (is_Some (run s2)) as [s3 Hrun].
  { apply exec_cons_Some in Hexec1 as (sa & Hstep1 & Hexec1).
    apply env_exec in Hexec1 as (Hp1 & _); [|done].
    simpl in Hstep1. unfold run in Hstep1. rewrite Hpc in Hstep1.
    injection Hstep1 as <-.
    apply exec_cons_Some in Hexec2 as (sb & Hstep2 & Hexec2).
    apply env_exec in Hexec2 as (Hp2 & _); [|done].
    simpl in Hstep2. unfold run in Hstep2. rewrite Hp1 in Hstep2.
    injection Hstep2 as <-. unfold run. rewrite Hp2. simpl. eauto. }
  exists s1, s2, s3. split; [by split_and!|].
  exact (lazy_fill_stores_reply _ _ _ _ 7 1%N PtrBroadcast true env1 env2
           Hreach Hpc Henv1 Hexec1 Henv2 Hexec2 Hrun).
Defined.


(** X2 on a table without the local peer's entry: one name comes back
    although [floor (log2 1) = 0]. *)
Lemma sampler_bound_any_table_witness :
  let r := without_self in
  let entries := [(1%N, 3%N)] in
  let res := [3%N] in
  (entries ≡ₚ map_to_list (unicastAll r) ∧
   res ≡ₚ RandomNeighbours r 0%N entries) ∧
  (NoDup res ∧
   (Z.of_nat (length res) ≤
      Z.min (Z.max 1 (log2_count (size (unicastAll r))))
            (Z.of_nat (size (eligible (unicastAll r) 0%N))))%Z ∧
   (∀ x, x ∈ res → x ≠ 0%N ∧ x ≠ UnknownPeerName)).
Proof.
  set (r := without_self).
  assert ([(1%N, 3%N)] ≡ₚ map_to_list (unicastAll r)) as Hperm.
  { unfold r, without_self. simpl. by rewrite map_to_list_singleton. }
  assert ([3%N] ≡ₚ RandomNeighbours r 0%N [(1%N, 3%N)]) as Hres.
  { assert (RandomNeighbours r 0%N [(1%N, 3%N)] = [3%N]) as ->; [|done].
    vm_refl. }
  split; [by split|].
  exact (sampler_bound_any_table r 0%N _ _ Hperm Hres).
Defined.

(** The scenarios of the specification, with peer 1 as the local peer.
    A and B: on the line 1 - 2 - 3, after a recalculation, peer 3 is
    reached through peer 2, the local peer's next hop is the unknown name,
    a broadcast of the local peer goes to peer 2, and peer 4 is not found. *)
Example scenario_A_B :
  let r := routes (after_on line recalculation) in
  Unicast r 3%N = (2%N, true) ∧ Unicast r 1%N = (0%N, true) ∧
  broadcast r !! 1%N = Some [2%N] ∧ Unicast r 4%N = (0%N, false).
Proof. cbv zeta. split_and!; vm_refl. Qed.

(** C: on the star the sampler returns [floor (log2 5) = 2] of the four
    neighbours. *)
Example scenario_C :
  let r := routes (after_on star recalculation) in
  size (unicastAll r) = 5 ∧
  length (RandomNeighbours r 0%N (map_to_list (unicastAll r))) = 2.
Proof. cbv zeta. split; vm_refl. Qed.

(** D: the entry of peer 3 is cached; then the link between 2 and 3 goes
    and the tables are recalculated.  The next [Broadcast] call for peer 3
    computes the entry again, and the neighbour that was reached through
    the removed link is no longer in it. *)
Example scenario_D :
  let ls := [LBroadcast 7 3%N; LRecvAction 7; LRun; LRun; LRun; LRun;
             LTopology (link 1 2 {[ 3%N := ∅ ]})] ++ recalculation ++
            [LBroadcast 7 3%N; LRecvAction 7; LRun; LRun; LRun; LRun] in
  trace (after_on line ls) =
    [EvStore PtrBroadcast 3%N []; EvReturn 7 PtrBroadcast 3%N [];
     EvCalculateBroadcast PtrBroadcast 3%N [];
     EvReplace []; EvCalculate;
     EvStore PtrBroadcast 3%N [2%N]; EvReturn 7 PtrBroadcast 3%N [2%N];
     EvCalculateBroadcast PtrBroadcast 3%N [2%N]].
Proof. cbv zeta. vm_refl. Qed.

(** A recalculation with two callbacks registered, the second one while the
    first recalculation is on its way: the cached entry of peer 1 is gone
    and the callbacks are invoked in registration order. *)
Example recalculation_on_chain :
  let ls := fill_1 ++ [LOnChange (callback 1); LRecalculate;
                       LRecvRecalculate; LOnChange (callback 2); LRun; LRun;
                       LRun; LOnChange (callback 3); LRun; LRun] in
  let s := after ls in
  broadcast (routes s) !! 1%N = None ∧
  broadcast (routes s) !! 2%N = Some [3%N; 1%N] ∧
  trace s = [EvCallback (callback 2); EvCallback (callback 1);
             EvReplace [callback 1; callback 2]; EvCalculate] ++
            trace (after fill_1) ∧
  onChange (routes s) = [callback 1; callback 2; callback 3] ∧
  pc s = PSelect.
Proof. cbv zeta. split_and!; vm_refl. Qed.

(** C4, counterexample.  Peer 1 is known when caller 7 asks for its
    broadcast routes; the lazy fill caches the answer.  Then peer 1 leaves
    the directory.  A [Broadcast] call for peer 1 still returns the cached,
    non-empty list although the directory does not hold peer 1. *)
Lemma stale_entry_counterexample :
  let s := after (fill_1 ++ [LTopology without_1]) in
  reachable s ∧
  byName (topology s) (peers (routes s)) 1%N = None ∧
  Broadcast 8 1%N s =
    Some (emit (EvReturn 8 PtrBroadcast 1%N [3%N]) s).
Proof.
  split_and!.
  - apply after_reachable. vm_decide.
  - vm_refl.
  - vm_refl.
Qed.

End concrete.
(** ** The properties of the whole system on the concrete mesh *)

Section concrete_system.

Import Mesh.

Lemma trace_of_exec (sch : list Label) (s s' : State) (tr : list Event) :
  exec sch s = Some s' → trace <$> exec sch s = Some tr → trace s' = tr.
Proof. intros -> [= <-]. done. Qed.

Lemma no_Topology_Forall (ls : list Label) :
  Forall (λ l, is_Topology l = false) ls →
  ∀ l, l ∈ ls → is_Topology l = false.
Proof.
  intros Hall x Hx. rewrite list.Forall_forall in Hall. by apply Hall.
Qed.

(** X3: two [Recalculate] calls and an [EnsureRecalculated] that the
    serializer serves. *)
Lemma calculate_needs_request_witness :
  let sch := [LRecalculate; LRecalculate; LEnsureRecalculated 5;
              LRecvWait 5; LRun; LRun; LRun; LRun; LRun] in
  ∃ s' new,
    (exec sch fresh = Some s' ∧ trace s' = new ++ trace fresh) ∧
    (count_calculate new + pending (routes s') ≤
       pending (routes fresh) + count_Recalculate sch ∧
     (recalculate (routes fresh) = true →
      recalculate (routes s') = true ∨ EvCalculate ∈ new)).
Proof.
  set (sch := [LRecalculate; LRecalculate; LEnsureRecalculated 5;
               LRecvWait 5; LRun; LRun; LRun; LRun; LRun]).
  assert (is_Some (exec sch fresh)) as [s' Hexec].
  { vm_decide. }
  destruct (exec_trace _ _ _ Hexec) as (new & Htr).
  exists s', new. split; [by split|].
  exact (calculate_needs_request sch fresh s' new Hexec Htr).
Defined.

(** X4: after a recalculation, the topology changes, a caller waits, another
    asks for the routes of peer 1 and a callback is registered. *)
Lemma no_request_no_change_witness :
  let s := after recalculation in
  let sch := [LTopology without_1; LEnsureRecalculated 5; LRecvWait 5;
              LRun; LRun; LBroadcast 7 1%N; LRecvAction 7; LRun; LRun;
              LRun; LRun; LOnChange (callback 1)] in
  ∃ s' new,
    (recalculate (routes s) = false ∧ in_calculate (pc s) = None ∧
     (∀ l, l ∈ sch → is_Recalculate l = false) ∧
     exec sch s = Some s' ∧ trace s' = new ++ trace s) ∧
    ((∀ ev, ev ∈ new →
        is_calculate ev = false ∧ is_replace ev = false ∧
        is_callback ev = false) ∧
     unicast (routes s') = unicast (routes s) ∧
     unicastAll (routes s') = unicastAll (routes s) ∧
     recalculate (routes s') = false ∧ in_calculate (pc s') = None).
Proof.
  set (s := after recalculation).
  set (sch := [LTopology without_1; LEnsureRecalculated 5; LRecvWait 5;
               LRun; LRun; LBroadcast 7 1%N; LRecvAction 7; LRun; LRun;
               LRun; LRun; LOnChange (callback 1)]).
  assert (recalculate (routes s) = false) as Hsig.
  { vm_refl. }
  assert (in_calculate (pc s) = None) as Hpc.
  { vm_refl. }
  assert (∀ l, l ∈ sch → is_Recalculate l = false) as Hno.
  { apply no_Recalculate_Forall. by repeat constructor. }
  assert (is_Some (exec sch s)) as [s' Hexec].
  { vm_decide. }
  destruct (exec_trace _ _ _ Hexec) as (new & Htr).
  exists s', new. split; [by split_and!|].
  exact (no_request_no_change sch s s' new Hsig Hpc Hno Hexec Htr).
Defined.

(** X5: after a recalculation the lazy fill stores the entry of peer 1, and
    caller 8 asks for peer 3. *)
Lemma tables_between_replacements_witness :
  let s := after recalculation in
  let sch := fill_1 ++ [LBroadcast 8 3%N] in
  let new := [EvStore PtrBroadcast 1%N [3%N];
              EvReturn 7 PtrBroadcast 1%N [3%N];
              EvCalculateBroadcast PtrBroadcast 1%N [3%N]] in
  ∃ s',
    (reachable s ∧ exec sch s = Some s' ∧ trace s' = new ++ trace s ∧
     no_replace new) ∧
    (unicast (routes s') = unicast (routes s) ∧
     unicastAll (routes s') = unicastAll (routes s) ∧
     (∀ ptr X hops,
        deref ptr (routes s) !! X = Some hops →
        deref ptr (routes s') !! X = Some hops) ∧
     (∀ ptr X hops,
        deref ptr (routes s') !! X = Some hops →
        deref ptr (routes s) !! X = Some hops ∨ EvStore ptr X hops ∈ new)).
Proof.
  set (s := after recalculation).
  set (sch := fill_1 ++ [LBroadcast 8 3%N]).
  set (new := [EvStore PtrBroadcast 1%N [3%N];
               EvReturn 7 PtrBroadcast 1%N [3%N];
               EvCalculateBroadcast PtrBroadcast 1%N [3%N]]).
  assert (reachable s) as Hreach.
  { apply after_reachable. vm_decide. }
  assert (is_Some (exec sch s)) as [s' Hexec].
  { vm_decide. }
  assert (trace s' = new ++ trace s) as Htr.
  { apply (trace_of_exec sch s); [exact Hexec|]. vm_refl. }
  assert (no_replace new) as Hno.
  { apply no_replace_Forall. by repeat constructor. }
  exists s'. split; [by split_and!|].
  exact (tables_between_replacements sch s s' new Hreach Hexec Htr Hno).
Defined.

(** X6 after a lazy fill, a change of the topology and a recalculation. *)
Lemma tables_from_one_snapshot_witness :
  let s := after (fill_1 ++ [LTopology without_1] ++ recalculation) in
  reachable s ∧
  (seeded (routes s) ∨ ∃ t, snapshot_of t (routes s)).
Proof.
  assert (reachable (after (fill_1 ++ [LTopology without_1] ++
                            recalculation))) as Hreach.
  { apply after_reachable. vm_decide. }
  split; [exact Hreach|].
  exact (tables_from_one_snapshot _ Hreach).
Defined.

(** X7 for caller 8, which finds the entry that the lazy fill stored for
    caller 7.  Peer 1 is away when caller 7 asks, back when the serializer
    computes the entry, and away again when caller 8 asks. *)
Lemma broadcast_return_provenance_witness :
  let ls := [LTopology without_1; LBroadcast 7 1%N; LRecvAction 7; LRun;
             LTopology (chain : Topology); LRun; LRun; LRun;
             LTopology without_1; LBroadcast 8 1%N] in
  let b := [EvStore PtrBroadcast 1%N [3%N];
            EvReturn 7 PtrBroadcast 1%N [3%N];
            EvCalculateBroadcast PtrBroadcast 1%N [3%N]] in
  ∃ s,
    (exec ls (NewState (2%N : Peer) (tt : Peers) (chain : Topology))
       = Some s ∧
     trace s = [] ++ EvReturn 8 PtrBroadcast 1%N [3%N] :: b ∧
     1%N ≠ Name (2%N : Peer)) ∧
    ∃ ls1 ls2 s1 c' b2,
      ls = ls1 ++ LRun :: ls2 ∧
      exec ls1 (NewState (2%N : Peer) (tt : Peers) (chain : Topology))
        = Some s1 ∧
      pc s1 = PCompute c' 1%N PtrBroadcast (filter_of PtrBroadcast) ∧
      [3%N] = calculateBroadcast (topology s1) (routes s1) 1%N
                (filter_of PtrBroadcast) ∧
      b = b2 ++ EvCalculateBroadcast PtrBroadcast 1%N [3%N] :: trace s1 ∧
      no_replace b2.
Proof.
  intros ls b.
  assert (is_Some (exec ls (NewState (2%N : Peer) (tt : Peers)
                              (chain : Topology)))) as [s Hexec].
  { vm_decide. }
  assert (trace s = [] ++ EvReturn 8 PtrBroadcast 1%N [3%N] :: b) as Htr.
  { eapply trace_of_exec; [exact Hexec|]. vm_refl. }
  assert (1%N ≠ Name (2%N : Peer)) as HX.
  { discriminate. }
  exists s. split; [by split_and!|].
  exact (broadcast_return_provenance _ _ _ ls s 8 PtrBroadcast 1%N [3%N]
           [] b Hexec Htr HX).
Defined.

(** X8: the cache holds the entry of peer 1, then peer 1 leaves;
    [Recalculate] is called, caller 5 calls [EnsureRecalculated] and the
    serializer serves it. *)
Lemma ensure_recalculated_fresh_witness :
  let s0 := after (fill_1 ++ [LTopology without_1]) in
  let sch := [LEnsureRecalculated 5; LRecvWait 5; LRun; LRun; LRun; LRun;
              LRun] in
  let new := [EvDone 5; EvReplace []; EvCalculate] in
  ∃ s',
    (reachable s0 ∧ callers s0 !! 5 ≠ Some CRecvDone ∧
     (∀ l, l ∈ sch → is_Topology l = false) ∧
     exec (LRecalculate :: sch) s0 = Some s' ∧
     trace s' = new ++ trace s0 ∧ EvDone 5 ∈ new) ∧
    up_to_date s'.
Proof.
  set (s0 := after (fill_1 ++ [LTopology without_1])).
  set (sch := [LEnsureRecalculated 5; LRecvWait 5; LRun; LRun; LRun; LRun;
               LRun]).
  set (new := [EvDone 5; EvReplace []; EvCalculate]).
  assert (reachable s0) as Hreach.
  { apply after_reachable. vm_decide. }
  assert (callers s0 !! 5 ≠ Some CRecvDone) as Hc.
  { assert (callers s0 !! 5 = None) as ->; [vm_refl|done]. }
  assert (∀ l, l ∈ sch → is_Topology l = false) as Hno.
  { apply no_Topology_Forall. by repeat constructor. }
  assert (is_Some (exec (LRecalculate :: sch) s0)) as [s' Hexec].
  { vm_decide. }
  assert (trace s' = new ++ trace s0) as Htr.
  { apply (trace_of_exec (LRecalculate :: sch) s0); [exact Hexec|]. vm_refl. }
  assert (EvDone 5 ∈ new) as Hdone.
  { by left. }
  exists s'. split; [by split_and!|].
  exact (ensure_recalculated_fresh s0 s' 5 sch new Hreach Hc Hno Hexec Htr
           Hdone).
Defined.

(** X10 for caller 5, blocked sending [done]. *)
Lemma blocked_caller_is_served_witness :
  let s := after [LEnsureRecalculated 5] in
  (reachable s ∧ callers s !! 5 = Some CSendWait) ∧
  (∃ sch s' new,
     serializer_only sch ∧ exec sch s = Some s' ∧
     trace s' = new ++ trace s ∧ pc s' = PSelect ∧
     callers s' !! 5 = None ∧ ∃ ev, answers 5 CSendWait ev ∧ ev ∈ new).
Proof.
  set (s := after [LEnsureRecalculated 5]).
  assert (reachable s) as Hreach.
  { apply after_reachable. vm_decide. }
  assert (callers s !! 5 = Some CSendWait) as Hc.
  { vm_refl. }
  split; [by split|].
  exact (blocked_caller_is_served s 5 CSendWait Hreach Hc).
Defined.

(** X11 at the inner select of [run], with caller 5 being served. *)
Lemma one_caller_served_witness :
  let s := after [LEnsureRecalculated 5; LRecvWait 5] in
  (reachable s ∧
   callers s !! 5 = Some CRecvDone ∧ receive 5 CRecvDone = None ∧
   callers s !! 5 = Some CRecvDone ∧ receive 5 CRecvDone = None) ∧
  (5 = 5 ∧ serves (pc s) = Some (5, CRecvDone)).
Proof.
  set (s := after [LEnsureRecalculated 5; LRecvWait 5]).
  assert (reachable s) as Hreach.
  { apply after_reachable. vm_decide. }
  assert (callers s !! 5 = Some CRecvDone) as Hc.
  { vm_refl. }
  split; [by split_and!|].
  exact (one_caller_served s 5 5 CRecvDone CRecvDone Hreach Hc eq_refl Hc
           eq_refl).
Defined.

(** X12 when peer 1 has left and [Recalculate] was called. *)
Lemma pending_request_is_served_witness :
  let s := after (fill_1 ++ [LTopology without_1; LRecalculate]) in
  (reachable s ∧ recalculate (routes s) = true) ∧
  (∃ sch s' new,
     serializer_only sch ∧ exec sch s = Some s' ∧
     trace s' = new ++ trace s ∧ EvCalculate ∈ new ∧
     pc s' = PSelect ∧ recalculate (routes s') = false ∧ up_to_date s').
Proof.
  set (s := after (fill_1 ++ [LTopology without_1; LRecalculate])).
  assert (reachable s) as Hreach.
  { apply after_reachable. vm_decide. }
  assert (recalculate (routes s) = true) as Hsig.
  { vm_refl. }
  split; [by split|].
  exact (pending_request_is_served s Hreach Hsig).
Defined.

(** X13 on the star: [floor (log2 5) = 2] of the four neighbours. *)
Lemma sampler_exact_witness :
  let r := routes (after_on star recalculation) in
  let entries := map_to_list (unicastAll r) in
  let res := RandomNeighbours r 0%N entries in
  (entries ≡ₚ map_to_list (unicastAll r) ∧
   res ≡ₚ RandomNeighbours r 0%N entries) ∧
  (Z.of_nat (length res) =
     Z.min (Z.max 1 (log2_count (size (unicastAll r))))
           (Z.of_nat (size (eligible (unicastAll r) 0%N))) ∧
   ((Z.of_nat (size (eligible (unicastAll r) 0%N)) ≤
       Z.max 1 (log2_count (size (unicastAll r))))%Z →
    ∀ x, x ∈ res ↔ x ∈ eligible (unicastAll r) 0%N)).
Proof.
  set (r := routes (after_on star recalculation)).
  split; [by split|].
  exact (sampler_exact r 0%N _ _ (reflexivity _) (reflexivity _)).
Defined.

(** X14 while the first of two callbacks is about to be invoked, after a
    lazy fill. *)
Lemma callbacks_see_new_tables_witness :
  let s := after (fill_1 ++ [LOnChange (callback 1); LOnChange (callback 2);
                             LRecalculate; LRecvRecalculate; LRun; LRun]) in
  (reachable s ∧ pc s = PCallbacks [callback 1; callback 2] KLoop) ∧
  (∃ t, tables (routes s) = calculate_derive t (routes s)).
Proof.
  set (s := after (fill_1 ++
                   [LOnChange (callback 1); LOnChange (callback 2);
                    LRecalculate; LRecvRecalculate; LRun; LRun])).
  assert (reachable s) as Hreach.
  { apply after_reachable. vm_decide. }
  assert (pc s = PCallbacks [callback 1; callback 2] KLoop) as Hpc.
  { vm_refl. }
  split; [by split|].
  exact (callbacks_see_new_tables s _ _ Hreach Hpc).
Defined.

(** The serializer gets back to its select from the middle of a
    recalculation with two callbacks, in the number of statements
    [steps_to_select] says. *)
Example steps_on_chain :
  let s := after [LOnChange (callback 1); LOnChange (callback 2);
                  LRecalculate; LEnsureRecalculated 5; LRecvWait 5] in
  steps_to_select s = 7 ∧
  pc <$> exec (replicate 7 LRun) s = Some PSelect ∧
  pc <$> exec (replicate 6 LRun) s = Some (PClose 5).
Proof. cbv zeta. split_and!; vm_refl. Qed.

End concrete_system.
(** ** Recalculation on the concrete mesh *)

Section concrete_recalculation.

Import Mesh.

(** C3 with two callbacks registered.  The burst: three [Recalculate]
    calls, between which peer 1 leaves and caller 7 asks for its routes.
    Then caller 5 calls [EnsureRecalculated]; the serializer answers
    caller 7 first and then serves caller 5. *)
Lemma recalculation_coalescing_witness :
  let s0 := after [LOnChange (callback 1); LOnChange (callback 2)] in
  let burst := [LRecalculate; LTopology without_1; LRecalculate;
                LBroadcast 7 1%N; LRecvAction 7; LRecalculate] in
  let sch := [LRun; LRun; LRun; LRun; LRecvWait 5; LRun; LRun; LRun; LRun;
              LRun; LRun; LRun] in
  ∃ s1 s',
    (reachable s0 ∧ exec burst s0 = Some s1 ∧ trace s1 = [] ++ trace s0 ∧
     1 ≤ count_Recalculate burst ∧ count_calculate [] = 0 ∧
     (∀ l, l ∈ sch → is_Recalculate l = false) ∧
     exec (LEnsureRecalculated 5 :: sch) s1 = Some s') ∧
    ∃ new,
      trace s' = new ++ [] ++ trace s0 ∧
      count_calculate (new ++ []) ≤ 1 ∧
      (EvDone 5 ∈ new →
       ∃ post mid2 snapshot mid1 pre,
         new = post ++ EvDone 5 :: mid2 ++ EvReplace snapshot :: mid1 ++
               EvCalculate :: pre ∧
         callbacks_of mid2 = rev snapshot).
Proof.
  set (s0 := after [LOnChange (callback 1); LOnChange (callback 2)]).
  set (burst := [LRecalculate; LTopology without_1; LRecalculate;
                 LBroadcast 7 1%N; LRecvAction 7; LRecalculate]).
  set (sch := [LRun; LRun; LRun; LRun; LRecvWait 5; LRun; LRun; LRun; LRun;
               LRun; LRun; LRun]).
  assert (reachable s0) as Hreach.
  { apply after_reachable. vm_decide. }
  assert (is_Some (exec burst s0)) as [s1 Hburst].
  { vm_decide. }
  assert (trace s1 = [] ++ trace s0) as Htrb.
  { apply (trace_of_exec burst s0); [exact Hburst|]. vm_refl. }
  assert (1 ≤ count_Recalculate burst) as Hn.
  { assert (count_Recalculate burst = 3) as ->; [vm_refl|lia]. }
  assert (count_calculate [] = 0) as Hcount.
  { reflexivity. }
  assert (∀ l, l ∈ sch → is_Recalculate l = false) as Hno.
  { apply no_Recalculate_Forall. by repeat constructor. }
  assert (is_Some (exec (LEnsureRecalculated 5 :: sch) s1)) as [s' Hexec].
  { assert (exec (burst ++ LEnsureRecalculated 5 :: sch) s0 =
            exec (LEnsureRecalculated 5 :: sch) s1) as <-.
    { by rewrite exec_app, Hburst. }
    vm_decide. }
  exists s1, s'. split; [by split_and!|].
  destruct recalculation_coalescing as (_ & _ & Hcoalesce & _).
  exact (Hcoalesce s0 s1 s' 5 burst sch [] Hreach Hburst Htrb Hn Hcount Hno
           Hexec).
Defined.

(** C3, counterexample.  On a fresh [Routes], two [Recalculate] calls
    followed by one [EnsureRecalculated], with the serializer taking the
    signal of the first call before the second call is made: the second
    call finds the channel empty and sends a signal of its own.
    [calculate] is called twice, once from the outer select and once from
    the inner select before [done] is closed. *)
Lemma interleaved_burst_counterexample :
  let burst := [LRecalculate; LRecvRecalculate; LRecalculate] in
  let sch := [LRun; LRun; LRun; LRecvWait 5; LRun; LRun; LRun; LRun; LRun] in
  let new := [EvDone 5; EvReplace []; EvCalculate; EvReplace [];
              EvCalculate] in
  reachable fresh ∧ recalculate (routes fresh) = false ∧
  count_Recalculate burst = 2 ∧
  (∀ l, l ∈ sch → is_Recalculate l = false) ∧
  trace <$> exec burst fresh = Some [EvCalculate] ∧
  trace <$> exec (burst ++ LEnsureRecalculated 5 :: sch) fresh = Some new ∧
  count_calculate new = 2.
Proof.
  cbv zeta. split_and!.
  - apply reachable_new.
  - reflexivity.
  - vm_refl.
  - apply no_Recalculate_Forall. by repeat constructor.
  - vm_refl.
  - vm_refl.
  - vm_refl.
Qed.

(** C6 with the entry of peer 1 cached and two callbacks registered.  The
    serializer has taken the signal.  After it has derived the tables,
    peer 1 leaves and a third callback is registered; a fourth one is
    registered while the serializer invokes the first three. *)
Lemma recalculation_replaces_and_notifies_witness :
  let s := after (fill_1 ++ [LOnChange (callback 1); LOnChange (callback 2);
                             LRecalculate; LRecvRecalculate]) in
  let env1 := [LTopology without_1; LOnChange (callback 3)] in
  let sch := [LRun; LOnChange (callback 4); LRun; LRun] in
  ∃ sb s2 s',
    (pc s = PCalculate KLoop ∧ env_only env1 ∧
     exec (LRun :: env1) s = Some sb ∧ step LRun sb = Some s2 ∧
     runs_on sch ∧ count_run sch = length (onChange (routes sb)) ∧
     exec sch s2 = Some s') ∧
    (tables (routes sb) = tables (routes s) ∧
     (unicast (routes s2) =
        (Peer_Routes (topology s) (ourself (routes s)) None true).2 ∧
      unicastAll (routes s2) =
        (Peer_Routes (topology s) (ourself (routes s)) None false).2 ∧
      broadcast (routes s2) =
        {[ Name (ourself (routes s)) :=
             calculateBroadcast (topology s) (routes s)
               (Name (ourself (routes s))) true ]} ∧
      broadcastAll (routes s2) =
        {[ Name (ourself (routes s)) :=
             calculateBroadcast (topology s) (routes s)
               (Name (ourself (routes s))) false ]}) ∧
     trace s2 = EvReplace (onChange (routes sb)) :: trace sb ∧
     tables (routes s') = tables (routes s2) ∧
     (∃ new, trace s' = new ++ trace s2 ∧
             callbacks_of new = rev (onChange (routes sb))) ∧
     pc s' = PCallbacks [] KLoop).
Proof.
  set (s := after (fill_1 ++ [LOnChange (callback 1); LOnChange (callback 2);
                              LRecalculate; LRecvRecalculate])).
  set (env1 := [LTopology without_1; LOnChange (callback 3)]).
  set (sch := [LRun; LOnChange (callback 4); LRun; LRun]).
  assert (pc s = PCalculate KLoop) as Hpc.
  { vm_refl. }
  assert (env_only env1) as Henv1.
  { apply env_only_Forall. by repeat constructor. }
  assert (runs_on sch) as Hsch.
  { intros l Hl.
    repeat (apply elem_of_cons in Hl as [->|Hl]; [by (left + right)|]).
    by apply elem_of_nil in Hl. }
  assert (is_Some (exec ((LRun :: env1) ++ LRun :: sch) s)) as [s' Hexec].
  { vm_decide. }
  apply exec_app_Some in Hexec as (sb & Hexec1 & Hexec2).
  apply exec_cons_Some in Hexec2 as (s2 & Hstep2 & Hexec2).
  assert (count_run sch = length (onChange (routes sb))) as Hn.
  { rewrite (proj1 (exec_frame _ _ _ Hexec1)). vm_refl. }
  exists sb, s2, s'. split; [by split_and!|].
  destruct recalculation_replaces_and_notifies as (Hfull & _).
  exact (Hfull s sb s2 s' KLoop env1 sch Hpc Henv1 Hexec1 Hstep2 Hsch Hn
           Hexec2).
Defined.

End concrete_recalculation.
